(** * DList: a doubly-linked sequence with Python-style positions

    Shallow embedding of [DListNode.hpp] and [DList.hpp], with the helpers
    [make_list] and [expect_contents] of the test file.

    Nodes live in a heap addressed by natural numbers; a [std::shared_ptr]
    is an optional address ([None] is [nullptr]).  The methods of [DList]
    are computations in a small state-and-error monad over the heap and
    the fields of the receiver ([*this]); dereferencing a null pointer is
    the outcome [Fault].  Several [DList] objects share one heap in a
    [store], where [operator=] and [extend] compare the identities of
    their two objects as the code does.

    Modelling conventions.
    - [make_shared] always succeeds and hands out the next unused
      address; nothing is ever freed, so unreachable nodes simply stay
      behind.  A [std::weak_ptr] whose target is still owned locks to that
      target; the representation invariant [wf] shows that every
      back-reference the code reads targets a node of the owning chain.
    - [long] and [size_t] are 64 bits wide.  [_size] is a [long] that
      counts the nodes of the chain, and the positions handed to [_find],
      [insert] and [pop] are [long]s.  The only arithmetic performed on
      them adds a non-negative size to a negative position, or steps the
      size by one, so it is written in [Z]; the conversion between
      [size_t] and [long] that happens inside [index], and the increment
      of its [size_t] counter, are written out with their wrap-around.
    - [while] loops over the chain take a step budget (fuel); the
      theorems show that any budget of at least the length of the list is
      enough. *)

From Stdlib Require Import ZArith Lia.
From stdpp Require Import base list option numbers.

(** ** Outcomes *)

Inductive outcome (A : Type) : Type :=
| Ok (a : A)
| Fault
| OutOfFuel.
Arguments Ok {A} a.
Arguments Fault {A}.
Arguments OutOfFuel {A}.

(** ** Machine integers at the [size_t]/[long] boundary *)

Definition to_size_t (z : Z) : Z := (z mod 2 ^ 64)%Z.
Definition to_long (z : Z) : Z := ((z + 2 ^ 63) mod 2 ^ 64 - 2 ^ 63)%Z.

(** [static_cast<size_t>(-1)], the value [index] returns when nothing matches. *)
Definition NOT_FOUND : Z := to_size_t (-1).

(** Addresses of nodes, and [std::shared_ptr] values ([None] is [nullptr]). *)
Abbreviation loc := nat (only parsing).
Abbreviation ptr := (option nat) (only parsing).

(** The value-initialised element [ItemType{}] of an element type. *)
Class ValueInit (A : Type) := value_init : A.

Section DList.

Context {ItemType : Type} `{EqDecision ItemType} `{ValueInit ItemType}.

(** ** DListNode.hpp *)

Record DListNode := mkNode {
  _item : ItemType;
  _next : ptr;
  _prev : ptr
}.

(** [DListNode(item, prev, next)] *)
Definition new_node (item : ItemType) (prev next : ptr) : DListNode :=
  {| _item := item; _next := next; _prev := prev |}.

(** ** DList.hpp: the fields *)

Record DList := mkDList {
  _head : ptr;
  _tail : ptr;
  _size : Z
}.

Abbreviation heap := (list DListNode) (only parsing).

Record config := mkConfig {
  mem : heap;
  self : DList
}.

Definition M (A : Type) : Type := config -> outcome (A * config).

Definition ret {A} (a : A) : M A := fun c => Ok (a, c).

Definition bind {A B} (m : M A) (k : A -> M B) : M B :=
  fun c => match m c with
           | Ok (a, c') => k a c'
           | Fault => Fault
           | OutOfFuel => OutOfFuel
           end.

Definition out_of_fuel {A} : M A := fun _ => OutOfFuel.

Notation "x <- m ;; k" := (bind m (fun x => k))
  (at level 90, m at level 89, right associativity).
Notation "m ;;; k" := (bind m (fun _ => k))
  (at level 90, right associativity).

(** *** Heap primitives *)

Definition make_shared (n : DListNode) : M ptr :=
  fun c => Ok (Some (length (mem c)),
               {| mem := mem c ++ [n]; self := self c |}).

Definition deref (p : ptr) : M DListNode :=
  fun c => match p with
           | Some a => match mem c !! a with
                       | Some n => Ok (n, c)
                       | None => Fault
                       end
           | None => Fault
           end.

Definition update (p : ptr) (f : DListNode -> DListNode) : M unit :=
  fun c => match p with
           | Some a => match mem c !! a with
                       | Some _ => Ok (tt, {| mem := alter f a (mem c);
                                              self := self c |})
                       | None => Fault
                       end
           | None => Fault
           end.

Definition with_item (v : ItemType) (n : DListNode) : DListNode :=
  {| _item := v; _next := _next n; _prev := _prev n |}.
Definition with_next (v : ptr) (n : DListNode) : DListNode :=
  {| _item := _item n; _next := v; _prev := _prev n |}.
Definition with_prev (v : ptr) (n : DListNode) : DListNode :=
  {| _item := _item n; _next := _next n; _prev := v |}.

Definition rd_item (p : ptr) : M ItemType := n <- deref p ;; ret (_item n).
Definition rd_next (p : ptr) : M ptr := n <- deref p ;; ret (_next n).
(** [p->_prev.lock()] *)
Definition rd_prev (p : ptr) : M ptr := n <- deref p ;; ret (_prev n).

Definition wr_item (p : ptr) (v : ItemType) : M unit := update p (with_item v).
Definition wr_next (p : ptr) (v : ptr) : M unit := update p (with_next v).
Definition wr_prev (p : ptr) (v : ptr) : M unit := update p (with_prev v).

(** *** Fields of the receiver *)

Definition get_head : M ptr := fun c => Ok (_head (self c), c).
Definition get_tail : M ptr := fun c => Ok (_tail (self c), c).
Definition get_size : M Z := fun c => Ok (_size (self c), c).

Definition set_head (v : ptr) : M unit :=
  fun c => Ok (tt, {| mem := mem c;
                      self := {| _head := v; _tail := _tail (self c);
                                 _size := _size (self c) |} |}).
Definition set_tail (v : ptr) : M unit :=
  fun c => Ok (tt, {| mem := mem c;
                      self := {| _head := _head (self c); _tail := v;
                                 _size := _size (self c) |} |}).
Definition set_size (v : Z) : M unit :=
  fun c => Ok (tt, {| mem := mem c;
                      self := {| _head := _head (self c);
                                 _tail := _tail (self c); _size := v |} |}).

(** ** DList.hpp: the methods *)

(** [DList::DList()] *)
Definition empty_DList : DList :=
  {| _head := None; _tail := None; _size := 0 |}.

(** [length()]: [_size] converted to [size_t], which keeps the value of
    a count of nodes. *)
Definition length_ : M Z := get_size.

(** [clear()] *)
Definition clear : M unit :=
  set_head None ;;; set_tail None ;;; set_size 0.

(** [append(x)] *)
Definition append (x : ItemType) : M unit :=
  newNode <- make_shared (new_node x None None) ;;
  size <- get_size ;;
  (if (size =? 0)%Z then
     set_head newNode ;;; set_tail newNode
   else
     tail <- get_tail ;;
     wr_next tail newNode ;;;
     wr_prev newNode tail ;;;
     set_tail newNode) ;;;
  size <- get_size ;;
  set_size (size + 1).

(** A counted loop [for (...; n times; ...) current = step(current)]. *)
Fixpoint walk (step : ptr -> M ptr) (n : nat) (current : ptr) : M ptr :=
  match n with
  | O => ret current
  | S n' => next <- step current ;; walk step n' next
  end.

(** [_find(position)] *)
Definition _find (position : Z) : M ptr :=
  size <- get_size ;;
  if ((position >=? size) || (position <? - size))%Z then ret None
  else if (position >=? 0)%Z then
    current <- get_head ;;
    walk rd_next (Z.to_nat position) current
  else
    current <- get_tail ;;
    walk rd_prev (Z.to_nat (-1 - position)) current.

(** [operator[](position) const] *)
Definition get (position : Z) : M ItemType :=
  node <- _find position ;; rd_item node.

(** [operator[](position) = v] through the mutable accessor *)
Definition set (position : Z) (v : ItemType) : M unit :=
  node <- _find position ;; wr_item node v.

(** [insert(position, x)] *)
Definition insert (position : Z) (x : ItemType) : M unit :=
  size <- get_size ;;
  let position := if (position <? 0)%Z then (position + size)%Z else position in
  let position := if (position <? 0)%Z then 0%Z else position in
  let position := if (position >? size)%Z then size else position in
  if ((size =? 0) || (position =? size))%Z then append x
  else
    current <- _find position ;;
    previous <- rd_prev current ;;
    newNode <- make_shared (new_node x previous current) ;;
    match previous with
    | Some _ => wr_next previous newNode
    | None => set_head newNode
    end ;;;
    wr_prev current newNode ;;;
    size <- get_size ;;
    set_size (size + 1).

(** The unlinking shared by [_delete] and [remove]. *)
Definition unlink (previous next : ptr) : M unit :=
  match previous with
  | Some _ => wr_next previous next
  | None => set_head next
  end ;;;
  match next with
  | Some _ => wr_prev next previous
  | None => set_tail previous
  end ;;;
  size <- get_size ;;
  set_size (size - 1).

(** [_delete(position)] *)
Definition _delete (position : Z) : M ItemType :=
  size <- get_size ;;
  let position := if (position <? 0)%Z then (position + size)%Z else position in
  if ((position <? 0) || (position >=? size))%Z then ret value_init
  else
    current <- _find position ;;
    previous <- rd_prev current ;;
    next <- rd_next current ;;
    unlink previous next ;;;
    rd_item current.

(** [pop(position)], and [pop()] with the default argument [-1]. *)
Definition pop (position : Z) : M ItemType := _delete position.
Definition pop_default : M ItemType := pop (-1).

(** [remove(x)] *)
Fixpoint remove_loop (fuel : nat) (x : ItemType) (node : ptr) : M unit :=
  match node with
  | None => ret tt
  | Some _ =>
    match fuel with
    | O => out_of_fuel
    | S fuel' =>
      item <- rd_item node ;;
      if decide (item = x) then
        previous <- rd_prev node ;;
        next <- rd_next node ;;
        unlink previous next
      else
        next <- rd_next node ;;
        remove_loop fuel' x next
    end
  end.

Definition remove (fuel : nat) (x : ItemType) : M unit :=
  node <- get_head ;; remove_loop fuel x node.

(** [index(x, start)]; [start] and the running [index] are [size_t]. *)
Fixpoint index_loop (fuel : nat) (x : ItemType) (node : ptr) (index : Z) : M Z :=
  match node with
  | None => ret NOT_FOUND
  | Some _ =>
    match fuel with
    | O => out_of_fuel
    | S fuel' =>
      item <- rd_item node ;;
      if decide (item = x) then ret index
      else
        next <- rd_next node ;;
        index_loop fuel' x next (to_size_t (index + 1))
    end
  end.

Definition index (fuel : nat) (x : ItemType) (start : Z) : M Z :=
  node <- _find (to_long start) ;;
  index_loop fuel x node start.

(** [count(x)]; the [int] counter never exceeds the number of nodes and
    is kept in [Z]. *)
Fixpoint count_loop (fuel : nat) (x : ItemType) (node : ptr) (count : Z) : M Z :=
  match node with
  | None => ret count
  | Some _ =>
    match fuel with
    | O => out_of_fuel
    | S fuel' =>
      item <- rd_item node ;;
      next <- rd_next node ;;
      count_loop fuel' x next (if decide (item = x) then (count + 1)%Z else count)
    end
  end.

Definition count (fuel : nat) (x : ItemType) : M Z :=
  node <- get_head ;; count_loop fuel x node 0%Z.

(** [extend(otherList)] when [&otherList == this]. *)
Fixpoint extend_self_loop (n : nat) (node : ptr) : M unit :=
  match n with
  | O => ret tt
  | S n' =>
    item <- rd_item node ;;
    append item ;;;
    next <- rd_next node ;;
    extend_self_loop n' next
  end.

Definition extend_self : M unit :=
  n <- get_size ;;
  node <- get_head ;;
  extend_self_loop (Z.to_nat n) node.

(** [extend(otherList)] for another object: the fields of [otherList]
    are read, its nodes are reached through the shared heap. *)
Fixpoint extend_loop (fuel : nat) (node : ptr) : M unit :=
  match node with
  | None => ret tt
  | Some _ =>
    match fuel with
    | O => out_of_fuel
    | S fuel' =>
      item <- rd_item node ;;
      append item ;;;
      next <- rd_next node ;;
      extend_loop fuel' next
    end
  end.

Definition extend_other (fuel : nat) (otherList : DList) : M unit :=
  extend_loop fuel (_head otherList).

(** [_copy(source)] *)
Fixpoint copy_loop (fuel : nat) (sourceNode newNode : ptr) : M ptr :=
  match sourceNode with
  | None => ret newNode
  | Some _ =>
    match fuel with
    | O => out_of_fuel
    | S fuel' =>
      item <- rd_item sourceNode ;;
      fresh <- make_shared (new_node item newNode None) ;;
      wr_next newNode fresh ;;;
      newNode' <- rd_next newNode ;;
      sourceNode' <- rd_next sourceNode ;;
      copy_loop fuel' sourceNode' newNode'
    end
  end.

Definition _copy (fuel : nat) (source : DList) : M unit :=
  let sourceNode := _head source in
  p <- match sourceNode with
       | Some _ =>
         item <- rd_item sourceNode ;;
         newNode <- make_shared (new_node item None None) ;;
         set_head newNode ;;;
         sourceNode' <- rd_next sourceNode ;;
         ret (sourceNode', newNode)
       | None =>
         set_head None ;;; ret (None, None)
       end ;;
  newNode <- copy_loop fuel p.1 p.2 ;;
  set_tail newNode ;;;
  set_size (_size source).

(** ** Several lists in one heap

    A program holds several [DList] objects whose nodes share the heap.
    An object is named by its index in [objs]; a method call loads the
    receiver's fields, runs the method and stores the fields back. *)

Abbreviation obj := nat (only parsing).

Record store := mkStore {
  nodes : heap;
  objs : list DList
}.

Definition empty_store : store := {| nodes := []; objs := [] |}.

Definition call {A} (this : obj) (m : M A) (s : store) : outcome (A * store) :=
  match objs s !! this with
  | None => Fault
  | Some d =>
    match m {| mem := nodes s; self := d |} with
    | Ok (a, c) => Ok (a, {| nodes := mem c; objs := <[this := self c]> (objs s) |})
    | Fault => Fault
    | OutOfFuel => OutOfFuel
    end
  end.

(** [DList L;] *)
Definition declare (s : store) : obj * store :=
  (length (objs s), {| nodes := nodes s; objs := objs s ++ [empty_DList] |}).

(** [DList L(source);]  The two pointers start out null; [_size] holds an
    indeterminate value [garbage] until [_copy] assigns it. *)
Definition copy_construct (fuel : nat) (garbage : Z) (source : obj) (s : store)
  : outcome (obj * store) :=
  match objs s !! source with
  | None => Fault
  | Some src =>
    match _copy fuel src {| mem := nodes s;
                            self := {| _head := None; _tail := None;
                                       _size := garbage |} |} with
    | Ok (_, c) => Ok (length (objs s),
                       {| nodes := mem c; objs := objs s ++ [self c] |})
    | Fault => Fault
    | OutOfFuel => OutOfFuel
    end
  end.

(** [this = source;] *)
Definition assign (fuel : nat) (this source : obj) (s : store)
  : outcome (unit * store) :=
  if decide (this = source) then
    match objs s !! this with Some _ => Ok (tt, s) | None => Fault end
  else
    match objs s !! source with
    | None => Fault
    | Some src => call this (clear ;;; _copy fuel src) s
    end.

(** [this.extend(otherList);] *)
Definition extend (fuel : nat) (this otherList : obj) (s : store)
  : outcome (unit * store) :=
  if decide (otherList = this) then call this extend_self s
  else
    match objs s !! otherList with
    | None => Fault
    | Some other => call this (extend_other fuel other) s
    end.

(** ** Lists built by appends, and the test helper expect_contents *)

(** [for (auto x : vs) L.append(x);] *)
Fixpoint append_all (vs : list ItemType) : M unit :=
  match vs with
  | [] => ret tt
  | x :: vs' => append x ;;; append_all vs'
  end.

(** [expect_contents(L, v)] of the test file asserts that [L.length()] is
    the size of [v] and that [L[i] == v[i]] for every [i]; here it returns
    whether the assertions hold. *)

Fixpoint expect_from (i : nat) (v : list ItemType) : M bool :=
  match v with
  | [] => ret true
  | x :: v' =>
    y <- get (Z.of_nat i) ;;
    if decide (y = x) then expect_from (S i) v' else ret false
  end.

Definition expect_contents (v : list ItemType) : M bool :=
  n <- length_ ;;
  if (n =? Z.of_nat (length v))%Z then expect_from 0 v else ret false.

(** ** Client programs over a store *)

Inductive op : Type :=
| OpDeclare
| OpCopy (garbage : Z) (source : obj)
| OpAssign (this source : obj)
| OpClear (this : obj)
| OpAppend (this : obj) (x : ItemType)
| OpInsert (this : obj) (position : Z) (x : ItemType)
| OpPop (this : obj) (position : Z)
| OpRemove (this : obj) (x : ItemType)
| OpExtend (this otherList : obj)
| OpSet (this : obj) (position : Z) (v : ItemType).

Definition result_store {A} (r : outcome (A * store)) : outcome store :=
  match r with
  | Ok (_, s) => Ok s
  | Fault => Fault
  | OutOfFuel => OutOfFuel
  end.

(** One statement of a client program.  The loops get as many steps as
    there are nodes in the heap, which no chain exceeds. *)
Definition step (o : op) (s : store) : outcome store :=
  let fuel := length (nodes s) in
  match o with
  | OpDeclare => Ok (declare s).2
  | OpCopy garbage source => result_store (copy_construct fuel garbage source s)
  | OpAssign this source => result_store (assign fuel this source s)
  | OpClear this => result_store (call this clear s)
  | OpAppend this x => result_store (call this (append x) s)
  | OpInsert this position x => result_store (call this (insert position x) s)
  | OpPop this position => result_store (call this (pop position) s)
  | OpRemove this x => result_store (call this (remove fuel x) s)
  | OpExtend this otherList => result_store (extend fuel this otherList s)
  | OpSet this position v => result_store (call this (set position v) s)
  end.

Fixpoint run (ops : list op) (s : store) : outcome store :=
  match ops with
  | [] => Ok s
  | o :: ops' =>
    match step o s with
    | Ok s' => run ops' s'
    | Fault => Fault
    | OutOfFuel => OutOfFuel
    end
  end.

Inductive reachable : store -> Prop :=
| reachable_empty : reachable empty_store
| reachable_step s o s' : reachable s -> step o s = Ok s' -> reachable s'.

(** * Specification

    ** The representation invariant

    A list is described by its cells, the addresses of its nodes paired
    with the elements they hold, in order from [_head] to [_tail]. *)

Abbreviation cell := (nat * ItemType)%type (only parsing).
Definition addrs (cs : list cell) : list loc := cs.*1.
Definition items (cs : list cell) : list ItemType := cs.*2.

Definition first_of (cs : list cell) (dflt : ptr) : ptr :=
  match cs with
  | [] => dflt
  | c :: _ => Some c.1
  end.

Definition last_of (cs : list cell) (dflt : ptr) : ptr :=
  match list.last cs with
  | Some c => Some c.1
  | None => dflt
  end.

(** [seg h p cs n]: the cells [cs] are linked in [h], the first one
    pointing back to [p] and the last one forward to [n]. *)
Fixpoint seg (h : heap) (p : ptr) (cs : list cell) (n : ptr) : Prop :=
  match cs with
  | [] => True
  | c :: rest =>
    h !! c.1 = Some (mkNode c.2 (first_of rest n) p) /\ seg h (Some c.1) rest n
  end.

Record wf (h : heap) (d : DList) (cs : list cell) : Prop := mkWf {
  wf_nodup : NoDup (addrs cs);
  wf_seg : seg h None cs None;
  wf_head : _head d = first_of cs None;
  wf_tail : _tail d = last_of cs None;
  wf_size : _size d = Z.of_nat (length cs)
}.

(** The list held by [d] in [h] has the elements [vs], in order. *)
Definition represents (h : heap) (d : DList) (vs : list ItemType) : Prop :=
  exists cs, wf h d cs /\ items cs = vs.

(** The address of the cell at position [i], and of the one before it. *)
Definition addr_at (cs : list cell) (i : nat) : ptr := fst <$> cs !! i.

Definition prev_at (cs : list cell) (i : nat) : ptr :=
  match i with
  | O => None
  | S i' => addr_at cs i'
  end.

(** ** Runs and their footprint *)

(** Run of a method from heap [h] and fields [d], returning [r] and
    leaving heap [h'] and fields [d']. *)
Definition runs {A} (m : M A) (h : heap) (d : DList)
    (r : A) (h' : heap) (d' : DList) : Prop :=
  m {| mem := h; self := d |} = Ok (r, {| mem := h'; self := d' |}).

(** What a method may touch: nodes outside the receiver's chain keep
    their contents, and the chain only gains freshly allocated nodes. *)
Definition preserved (h h' : heap) (cs : list cell) : Prop :=
  length h <= length h' /\
  forall a, a < length h -> a ∉ addrs cs -> h' !! a = h !! a.

Definition grown (h : heap) (cs cs' : list cell) : Prop :=
  forall a, a ∈ addrs cs' -> a ∈ addrs cs \/ length h <= a.

(** Cells whose nodes were allocated after the heap [h] was taken. *)
Definition fresh_in (h : list DListNode) (cs : list cell) : Prop :=
  forall a, a ∈ addrs cs -> length h <= a.

(** Two chains that share no node. *)
Definition disjoint (cs co : list cell) : Prop :=
  forall a, a ∈ addrs cs -> a ∉ addrs co.

(** ** Python-style lists *)

(** The position a signed index denotes in a list of [n] elements:
    [0 .. n-1] count from the front, [-1 .. -n] from the back. *)
Definition resolve (n : nat) (position : Z) : option nat :=
  if ((0 <=? position) && (position <? Z.of_nat n))%Z then
    Some (Z.to_nat position)
  else if ((- Z.of_nat n <=? position) && (position <? 0))%Z then
    Some (Z.to_nat (Z.of_nat n + position))
  else None.

(** The position [insert] ends up using in a list of [n] elements: a
    negative position has [n] added, what is still negative becomes [0],
    what exceeds [n] becomes [n]. *)
Definition clamp (n : nat) (position : Z) : nat :=
  let position :=
    if (position <? 0)%Z then (position + Z.of_nat n)%Z else position in
  let position := if (position <? 0)%Z then 0%Z else position in
  let position :=
    if (position >? Z.of_nat n)%Z then Z.of_nat n else position in
  Z.to_nat position.

(** The list [vs] with [x] put at position [i]. *)
Definition insert_at {A} (i : nat) (x : A) (vs : list A) : list A :=
  take i vs ++ x :: drop i vs.

(** The first position of [x] in [vs], if any. *)
Fixpoint first_index (x : ItemType) (vs : list ItemType) : option nat :=
  match vs with
  | [] => None
  | v :: vs' => if decide (v = x) then Some 0 else S <$> first_index x vs'
  end.

(** The list [vs] without the first occurrence of [x]. *)
Fixpoint remove_first (x : ItemType) (vs : list ItemType) : list ItemType :=
  match vs with
  | [] => []
  | v :: vs' => if decide (v = x) then vs' else v :: remove_first x vs'
  end.

(** ** Stores of several lists *)

(** [css] gives the cells of every object of the store; the chains are
    well formed and pairwise disjoint. *)
Record store_inv (s : store) (css : list (list cell)) : Prop := mkStoreInv {
  inv_length : length css = length (objs s);
  inv_wf : forall o d cs,
    objs s !! o = Some d -> css !! o = Some cs -> wf (nodes s) d cs;
  inv_disjoint : forall o1 o2 c1 c2,
    o1 <> o2 -> css !! o1 = Some c1 -> css !! o2 = Some c2 -> disjoint c1 c2
}.

(** The store holds the lists [vss], one per object. *)
Definition models (s : store) (vss : list (list ItemType)) : Prop :=
  exists css, store_inv s css /\ (items <$> css) = vss.

Definition list_of (vss : list (list ItemType)) (o : obj) : list ItemType :=
  default [] (vss !! o).

(** A statement of a client program on the lists themselves: what a
    client expects of Python-style lists. *)
Definition abstract_step (o : op) (vss : list (list ItemType))
  : list (list ItemType) :=
  match o with
  | OpDeclare => vss ++ [[]]
  | OpCopy _ source => vss ++ [list_of vss source]
  | OpAssign this source => <[this := list_of vss source]> vss
  | OpClear this => <[this := []]> vss
  | OpAppend this x => <[this := list_of vss this ++ [x]]> vss
  | OpInsert this position x =>
    let vs := list_of vss this in
    <[this := insert_at (clamp (length vs) position) x vs]> vss
  | OpPop this position =>
    let vs := list_of vss this in
    match resolve (length vs) position with
    | Some i => <[this := delete i vs]> vss
    | None => vss
    end
  | OpRemove this x => <[this := remove_first x (list_of vss this)]> vss
  | OpExtend this otherList =>
    <[this := list_of vss this ++ list_of vss otherList]> vss
  | OpSet this position v =>
    let vs := list_of vss this in
    match resolve (length vs) position with
    | Some i => <[this := <[i := v]> vs]> vss
    | None => vss
    end
  end.

(** ** The invariant in terms of the links *)

(** Follow [_next] exactly [n] times; [None] if a null pointer would be
    dereferenced on the way. *)
Fixpoint nth_next (h : heap) (n : nat) (p : ptr) : option ptr :=
  match n with
  | O => Some p
  | S n' =>
    match p with
    | Some a =>
      match h !! a with
      | Some nd => nth_next h n' (_next nd)
      | None => None
      end
    | None => None
    end
  end.

(** The nodes met when following [link] from [p] up to null, if that
    takes at most [fuel] steps. *)
Fixpoint traverse (link : DListNode -> ptr) (h : heap) (fuel : nat) (p : ptr)
  : option (list nat) :=
  match p with
  | None => Some []
  | Some a =>
    match fuel with
    | O => None
    | S fuel' =>
      match h !! a with
      | Some nd => cons a <$> traverse link h fuel' (link nd)
      | None => None
      end
    end
  end.

(** For nodes [a], [b] among [ns]: [a]'s next is [b] iff [b]'s prev is [a]. *)
Definition links_consistent (h : heap) (ns : list nat) : Prop :=
  forall a b na nb, a ∈ ns -> b ∈ ns ->
    h !! a = Some na -> h !! b = Some nb ->
    (_next na = Some b <-> _prev nb = Some a).

Definition DList_invariant (h : heap) (d : DList) : Prop :=
  let n := Z.to_nat (_size d) in
  (0 <= _size d)%Z /\
  (_size d = 0%Z <-> _head d = None) /\
  (_head d = None <-> _tail d = None) /\
  nth_next h n (_head d) = Some None /\
  (n <> 0 -> nth_next h (n - 1) (_head d) = Some (_tail d)) /\
  exists ns,
    traverse _next h n (_head d) = Some ns /\
    traverse _prev h n (_tail d) = Some (reverse ns) /\
    runs length_ h d (Z.of_nat (length ns)) h d /\
    links_consistent h ns.

(** ** Well-formed client programs *)

(** A statement is valid for the lists [vss] when the objects it names
    exist and, for a write through [operator[]], the position is inside
    the list. *)
Definition op_valid (o : op) (vss : list (list ItemType)) : bool :=
  let n := length vss in
  match o with
  | OpDeclare => true
  | OpCopy _ source => bool_decide (source < n)
  | OpAssign this source => bool_decide (this < n) && bool_decide (source < n)
  | OpClear this | OpAppend this _ | OpInsert this _ _ | OpPop this _
  | OpRemove this _ => bool_decide (this < n)
  | OpExtend this otherList =>
    bool_decide (this < n) && bool_decide (otherList < n)
  | OpSet this position _ =>
    bool_decide (this < n) &&
    bool_decide (is_Some (resolve (length (list_of vss this)) position))
  end.

Fixpoint program_valid (ops : list op) (vss : list (list ItemType)) : bool :=
  match ops with
  | [] => true
  | o :: ops' => op_valid o vss && program_valid ops' (abstract_step o vss)
  end.

(** * Proofs *)

(** ** Facts about segments *)

Lemma first_of_app cs1 cs2 dflt :
  first_of (cs1 ++ cs2) dflt = first_of cs1 (first_of cs2 dflt).
Proof. by destruct cs1. Qed.

Lemma last_of_app cs1 cs2 dflt :
  last_of (cs1 ++ cs2) dflt = last_of cs2 (last_of cs1 dflt).
Proof.
  unfold last_of. destruct cs2 as [|c cs2 _] using rev_ind.
  - by rewrite app_nil_r.
  - by rewrite app_assoc, !last_snoc.
Qed.

Lemma last_of_cons c cs dflt : last_of (c :: cs) dflt = last_of cs (Some c.1).
Proof. apply (last_of_app [c] cs). Qed.

Lemma seg_app h p cs1 cs2 n :
  seg h p (cs1 ++ cs2) n <->
  seg h p cs1 (first_of cs2 n) /\ seg h (last_of cs1 p) cs2 n.
Proof.
  revert p. induction cs1 as [|c cs1 IH]; intros p; simpl.
  - unfold last_of; simpl. tauto.
  - rewrite IH, first_of_app, last_of_cons. tauto.
Qed.

Lemma seg_frame h h' p cs n :
  (forall a, a ∈ addrs cs -> h' !! a = h !! a) ->
  seg h p cs n -> seg h' p cs n.
Proof.
  revert p. induction cs as [|c cs IH]; intros p Hf; simpl; [done|].
  intros [Hc Hs]. split.
  - rewrite Hf; [done|]. unfold addrs. simpl. left.
  - apply IH; [|done]. intros a Ha. apply Hf. unfold addrs. simpl. by right.
Qed.

Lemma seg_bound h p cs n a :
  seg h p cs n -> a ∈ addrs cs -> a < length h.
Proof.
  revert p. induction cs as [|c cs IH]; intros p; simpl.
  - intros _ Ha. inversion Ha.
  - intros [Hc Hs] Ha. unfold addrs in Ha. simpl in Ha.
    apply elem_of_cons in Ha as [->|Ha].
    + by apply lookup_lt_Some in Hc.
    + by apply (IH (Some c.1)).
Qed.

Lemma seg_lookup h p cs n i a v :
  seg h p cs n -> cs !! i = Some (a, v) ->
  h !! a = Some (mkNode v (first_of (drop (S i) cs) n) (last_of (take i cs) p)).
Proof.
  intros Hs Hi.
  rewrite <- (take_drop_middle cs i (a, v)) in Hs by done.
  apply seg_app in Hs as [_ [Hc _]]. done.
Qed.

(** ** Running the primitives *)

Ltac conj_split := repeat match goal with |- _ /\ _ => split end.

Lemma runs_bind {A B} (m : M A) (k : A -> M B) h d a h1 d1 b h2 d2 :
  runs m h d a h1 d1 -> runs (k a) h1 d1 b h2 d2 ->
  runs (bind m k) h d b h2 d2.
Proof. unfold runs, bind. by intros ->. Qed.

Lemma runs_ret {A} (a : A) h d : runs (ret a) h d a h d.
Proof. done. Qed.

Lemma runs_get_head h d : runs get_head h d (_head d) h d.
Proof. done. Qed.
Lemma runs_get_tail h d : runs get_tail h d (_tail d) h d.
Proof. done. Qed.
Lemma runs_get_size h d : runs get_size h d (_size d) h d.
Proof. done. Qed.

Lemma runs_set_head h d v :
  runs (set_head v) h d tt h (mkDList v (_tail d) (_size d)).
Proof. done. Qed.
Lemma runs_set_tail h d v :
  runs (set_tail v) h d tt h (mkDList (_head d) v (_size d)).
Proof. done. Qed.
Lemma runs_set_size h d v :
  runs (set_size v) h d tt h (mkDList (_head d) (_tail d) v).
Proof. done. Qed.

Lemma runs_make_shared h d n :
  runs (make_shared n) h d (Some (length h)) (h ++ [n]) d.
Proof. done. Qed.

Lemma runs_rd_item h d a n :
  h !! a = Some n -> runs (rd_item (Some a)) h d (_item n) h d.
Proof. unfold runs, rd_item, bind, deref. simpl. by intros ->. Qed.
Lemma runs_rd_next h d a n :
  h !! a = Some n -> runs (rd_next (Some a)) h d (_next n) h d.
Proof. unfold runs, rd_next, bind, deref. simpl. by intros ->. Qed.
Lemma runs_rd_prev h d a n :
  h !! a = Some n -> runs (rd_prev (Some a)) h d (_prev n) h d.
Proof. unfold runs, rd_prev, bind, deref. simpl. by intros ->. Qed.

Lemma runs_update h d a f :
  a < length h -> runs (update (Some a) f) h d tt (alter f a h) d.
Proof.
  intros Ha. apply lookup_lt_is_Some_2 in Ha as [n Hn].
  unfold runs, update. simpl. by rewrite Hn.
Qed.

(** ** Frames *)

Lemma addrs_app cs1 cs2 : addrs (cs1 ++ cs2) = addrs cs1 ++ addrs cs2.
Proof. apply fmap_app. Qed.

Lemma items_app cs1 cs2 : items (cs1 ++ cs2) = items cs1 ++ items cs2.
Proof. apply fmap_app. Qed.

Lemma seg_alter_out h p cs n a f :
  a ∉ addrs cs -> seg h p cs n -> seg (alter f a h) p cs n.
Proof.
  intros Ha. apply seg_frame. intros b Hb.
  apply list_lookup_alter_ne. by intros ->.
Qed.

Lemma seg_grow h k p cs n : seg h p cs n -> seg (h ++ k) p cs n.
Proof.
  intros Hs. eapply seg_frame; [|exact Hs]. intros a Ha.
  apply lookup_app_l. by apply (seg_bound _ _ _ _ _ Hs).
Qed.

Lemma first_of_Some cs dflt a :
  first_of cs None = Some a -> first_of cs dflt = Some a.
Proof. by destruct cs. Qed.

Lemma last_of_Some cs dflt a :
  last_of cs None = Some a -> last_of cs dflt = Some a.
Proof. unfold last_of. by destruct (list.last cs). Qed.

(** Redirecting the forward link of the last cell of a segment. *)
Lemma seg_set_next_last h p cs n n' b :
  NoDup (addrs cs) -> last_of cs None = Some b ->
  seg h p cs n -> seg (alter (with_next n') b h) p cs n'.
Proof.
  destruct cs as [|[b' w] cs0 _] using rev_ind; [done|].
  rewrite last_of_app. unfold last_of at 1. simpl.
  intros Hnd [= ->] Hs. rewrite addrs_app in Hnd.
  apply list.NoDup_app in Hnd as (_ & Hdisj & _).
  apply seg_app in Hs as [Hs0 [Hb _]]. apply seg_app. simpl in *. split.
  - apply seg_alter_out; [|done]. intros Hin. apply (Hdisj b); [done|left].
  - split; [|done]. rewrite list_lookup_alter_eq, Hb. done.
Qed.

(** Redirecting the back-reference of the first cell of a segment. *)
Lemma seg_set_prev_first h p p' cs n b :
  NoDup (addrs cs) -> first_of cs None = Some b ->
  seg h p cs n -> seg (alter (with_prev p') b h) p' cs n.
Proof.
  destruct cs as [|[b' w] cs0]; [done|]. simpl.
  intros Hnd [= ->] [Hb Hs]. apply list.NoDup_cons in Hnd as [Hnin _]. split.
  - rewrite list_lookup_alter_eq, Hb. done.
  - by apply seg_alter_out.
Qed.

Lemma preserved_refl h cs : preserved h h cs.
Proof. split; [lia|done]. Qed.

Lemma preserved_grow h k cs : preserved h (h ++ k) cs.
Proof.
  split; [rewrite length_app; lia|]. intros a Ha _. by apply lookup_app_l.
Qed.

Lemma preserved_alter h h' cs a f :
  a ∈ addrs cs \/ length h <= a ->
  preserved h h' cs -> preserved h (alter f a h') cs.
Proof.
  intros Ha [Hl Hp]. split; [by rewrite length_alter|].
  intros b Hb Hn. rewrite list_lookup_alter_ne; [by apply Hp|].
  intros ->. destruct Ha; [done|lia].
Qed.

Lemma grown_refl h cs : grown h cs cs.
Proof. intros a Ha. by left. Qed.

Lemma preserved_trans h0 h1 h2 cs0 cs1 :
  preserved h0 h1 cs0 -> grown h0 cs0 cs1 -> preserved h1 h2 cs1 ->
  preserved h0 h2 cs0.
Proof.
  intros [Hl1 Hp1] Hg [Hl2 Hp2]. split; [lia|].
  intros a Ha Hn. rewrite Hp2, Hp1; [done..|lia|].
  intros Hin. apply Hg in Hin as [?|?]; [done|lia].
Qed.

Lemma grown_trans h0 h1 cs0 cs1 cs2 :
  length h0 <= length h1 -> grown h0 cs0 cs1 -> grown h1 cs1 cs2 ->
  grown h0 cs0 cs2.
Proof.
  intros Hl Hg1 Hg2 a Ha. apply Hg2 in Ha as [Ha|Ha]; [by apply Hg1|right; lia].
Qed.

(** A list that is well formed stays so when the heap changes elsewhere. *)
Lemma wf_frame h h' d cs :
  wf h d cs -> (forall a, a ∈ addrs cs -> h' !! a = h !! a) -> wf h' d cs.
Proof.
  intros [] Hf. split; try done. by apply (seg_frame h).
Qed.

Lemma wf_bound h d cs a : wf h d cs -> a ∈ addrs cs -> a < length h.
Proof. intros [] Ha. by eapply seg_bound. Qed.

Lemma wf_fresh h d cs a : wf h d cs -> length h <= a -> a ∉ addrs cs.
Proof. intros Hwf Hle Ha. apply (wf_bound _ _ _ _ Hwf) in Ha. lia. Qed.

(** ** Addresses by position *)

Lemma first_of_drop cs i : first_of (drop i cs) None = addr_at cs i.
Proof.
  unfold addr_at. revert i. induction cs as [|c cs IH]; intros [|i]; simpl; done.
Qed.

Lemma last_of_take cs i :
  i <= length cs -> last_of (take i cs) None = prev_at cs i.
Proof.
  destruct i as [|i]; [by rewrite take_0|]. simpl. intros Hi.
  destruct (lookup_lt_is_Some_2 cs i) as [c Hc]; [lia|].
  rewrite (take_S_r _ _ _ Hc), last_of_app. unfold addr_at. by rewrite Hc.
Qed.

Lemma addr_at_first cs : first_of cs None = addr_at cs 0.
Proof. by rewrite <- first_of_drop, drop_0. Qed.

Lemma addr_at_last cs : last_of cs None = prev_at cs (length cs).
Proof. rewrite <- last_of_take by lia. by rewrite firstn_all. Qed.

Lemma addr_at_elem cs i a : addr_at cs i = Some a -> a ∈ addrs cs.
Proof.
  unfold addr_at. destruct (cs !! i) as [[b v]|] eqn:Hi; [|done].
  intros [= <-]. unfold addrs. apply list_elem_of_fmap. exists (b, v). split; [done|].
  by eapply list_elem_of_lookup_2.
Qed.

Lemma addr_at_ge cs i : length cs <= i -> addr_at cs i = None.
Proof. intros Hi. unfold addr_at. by rewrite lookup_ge_None_2. Qed.

Lemma addr_at_lt cs i : i < length cs -> is_Some (addr_at cs i).
Proof.
  intros Hi. unfold addr_at.
  destruct (lookup_lt_is_Some_2 cs i Hi) as [c ->]. by eexists.
Qed.

Lemma last_of_elem cs a : last_of cs None = Some a -> a ∈ addrs cs.
Proof.
  rewrite addr_at_last. destruct (length cs); [done|]. apply addr_at_elem.
Qed.

Lemma first_of_elem cs a : first_of cs None = Some a -> a ∈ addrs cs.
Proof. rewrite addr_at_first. apply addr_at_elem. Qed.

(** The node of the cell at position [i]. *)
Lemma wf_node h d cs i a v :
  wf h d cs -> cs !! i = Some (a, v) ->
  h !! a = Some (mkNode v (addr_at cs (S i)) (prev_at cs i)).
Proof.
  intros [] Hi. rewrite <- first_of_drop, <- last_of_take.
  - by eapply seg_lookup.
  - apply lookup_lt_Some in Hi. lia.
Qed.

Lemma wf_node_at h d cs i a :
  wf h d cs -> addr_at cs i = Some a ->
  exists v, cs !! i = Some (a, v) /\
            h !! a = Some (mkNode v (addr_at cs (S i)) (prev_at cs i)).
Proof.
  intros Hwf Ha. unfold addr_at in Ha.
  destruct (cs !! i) as [[b v]|] eqn:Hi; [|done]. injection Ha as ->.
  exists v. split; [done|]. by eapply wf_node.
Qed.

(** ** append *)

Lemma append_spec h d cs x :
  wf h d cs ->
  exists h' d',
    runs (append x) h d tt h' d' /\
    wf h' d' (cs ++ [(length h, x)]) /\
    preserved h h' cs.
Proof.
  intros Hwf. pose proof Hwf as [Hnd Hseg Hhd Htl Hsz].
  pose proof (wf_fresh _ _ _ (length h) Hwf (le_n _)) as Hfresh.
  assert (Hnd' : NoDup (addrs (cs ++ [(length h, x)]))).
  { rewrite addrs_app. apply list.NoDup_app. split; [done|]. split.
    - intros a Ha Hin. apply list_elem_of_singleton in Hin. by subst.
    - apply NoDup_singleton. }
  destruct (last_of cs None) as [t|] eqn:Hlast.
  - (* the list ends in the node [t] *)
    assert (Hne : (_size d =? 0)%Z = false).
    { apply Z.eqb_neq. rewrite Hsz. destruct cs; [done|]. simpl. lia. }
    pose proof (last_of_elem _ _ Hlast) as Htin.
    pose proof (wf_bound _ _ _ _ Hwf Htin) as Htlt.
    eexists _, _. split.
    { unfold append. eapply runs_bind; [apply runs_make_shared|].
      eapply runs_bind; [apply runs_get_size|]. rewrite Hne.
      eapply runs_bind.
      { eapply runs_bind; [apply runs_get_tail|]. simpl. rewrite Htl.
        eapply runs_bind; [apply runs_update; rewrite length_app; lia|].
        eapply runs_bind;
          [apply runs_update; rewrite length_alter, length_app; simpl; lia|].
        apply runs_set_tail. }
      eapply runs_bind; [apply runs_get_size|]. apply runs_set_size. }
    simpl. split.
    + split; simpl; [done| | | |].
      * apply seg_app. split.
        -- apply seg_alter_out; [done|].
           apply (seg_set_next_last _ _ _ None); [done..|]. by apply seg_grow.
        -- simpl. split; [|done]. rewrite list_lookup_alter_eq.
           rewrite list_lookup_alter_ne by lia.
           rewrite list_lookup_middle by done. simpl. unfold with_prev. simpl.
           by rewrite (last_of_Some _ _ _ Hlast).
      * rewrite first_of_app, Hhd. destruct cs; [done|done].
      * by rewrite last_of_app.
      * rewrite Hsz, length_app. simpl. lia.
    + apply preserved_alter; [by right|]. apply preserved_alter; [by left|].
      apply preserved_grow.
  - (* the list was empty *)
    assert (cs = []) as ->.
    { destruct cs as [|c cs _] using rev_ind; [done|].
      rewrite last_of_app in Hlast. done. }
    eexists _, _. split.
    { unfold append. eapply runs_bind; [apply runs_make_shared|].
      eapply runs_bind; [apply runs_get_size|]. rewrite Hsz. simpl.
      eapply runs_bind.
      { eapply runs_bind; [apply runs_set_head|]. apply runs_set_tail. }
      eapply runs_bind; [apply runs_get_size|]. apply runs_set_size. }
    simpl. split.
    + split; simpl; [done| | done | done |].
      * split; [|done]. by rewrite list_lookup_middle.
      * rewrite Hsz. simpl. lia.
    + apply preserved_grow.
Qed.

(** ** _find and operator[] *)

Lemma resolve_Some n position i :
  resolve n position = Some i ->
  i < n /\
  ((0 <= position)%Z /\ position = Z.of_nat i \/
   (position < 0)%Z /\ position = (Z.of_nat i - Z.of_nat n)%Z).
Proof.
  unfold resolve. repeat case_match; intros [= <-]; lia.
Qed.

Lemma resolve_None n position :
  resolve n position = None <->
  (position >= Z.of_nat n \/ position < - Z.of_nat n)%Z.
Proof.
  unfold resolve. repeat case_match; split; try done; lia.
Qed.

Lemma resolve_nonneg n i : i < n -> resolve n (Z.of_nat i) = Some i.
Proof.
  intros Hi. unfold resolve.
  destruct (Z.leb_spec 0 (Z.of_nat i)); [|lia].
  destruct (Z.ltb_spec (Z.of_nat i) (Z.of_nat n)); [|lia].
  simpl. by rewrite Nat2Z.id.
Qed.

Lemma resolve_neg n i :
  i < n -> resolve n (Z.of_nat i - Z.of_nat n) = Some i.
Proof.
  intros Hi. unfold resolve.
  destruct (Z.leb_spec 0 (Z.of_nat i - Z.of_nat n)); [lia|]. simpl.
  destruct (Z.leb_spec (- Z.of_nat n) (Z.of_nat i - Z.of_nat n)); [|lia].
  destruct (Z.ltb_spec (Z.of_nat i - Z.of_nat n) 0); [|lia].
  simpl. f_equal. lia.
Qed.

Lemma walk_next_spec h d cs i j :
  wf h d cs -> j + i < length cs ->
  runs (walk rd_next i (addr_at cs j)) h d (addr_at cs (j + i)) h d.
Proof.
  intros Hwf. revert j. induction i as [|i IH]; intros j Hj; simpl.
  - rewrite Nat.add_0_r. apply runs_ret.
  - destruct (addr_at_lt cs j) as [a Ha]; [lia|].
    destruct (wf_node_at _ _ _ _ _ Hwf Ha) as (v & _ & Hn).
    rewrite Ha. eapply runs_bind; [by apply runs_rd_next|]. simpl.
    replace (j + S i) with (S j + i) by lia. apply IH. lia.
Qed.

Lemma walk_prev_spec h d cs i j :
  wf h d cs -> i <= j < length cs ->
  runs (walk rd_prev i (addr_at cs j)) h d (addr_at cs (j - i)) h d.
Proof.
  intros Hwf. revert j. induction i as [|i IH]; intros j Hj; simpl.
  - rewrite Nat.sub_0_r. apply runs_ret.
  - destruct (addr_at_lt cs j) as [a Ha]; [lia|].
    destruct (wf_node_at _ _ _ _ _ Hwf Ha) as (v & _ & Hn).
    rewrite Ha. eapply runs_bind; [by apply runs_rd_prev|]. simpl.
    destruct j as [|j]; [lia|]. simpl. apply IH. lia.
Qed.

Lemma _find_spec h d cs position :
  wf h d cs ->
  runs (_find position) h d (resolve (length cs) position ≫= addr_at cs) h d.
Proof.
  intros Hwf. pose proof Hwf as [_ _ Hhd Htl Hsz].
  unfold _find, resolve. eapply runs_bind; [apply runs_get_size|]. rewrite Hsz.
  destruct (Z.geb_spec position (Z.of_nat (length cs))) as [Hge|Hlt]; simpl.
  { destruct (Z.leb_spec 0 position); [|lia].
    destruct (Z.ltb_spec position (Z.of_nat (length cs))); [lia|]. simpl.
    destruct (Z.leb_spec (- Z.of_nat (length cs)) position); [|lia].
    destruct (Z.ltb_spec position 0); [lia|]. apply runs_ret. }
  destruct (Z.ltb_spec position (- Z.of_nat (length cs))) as [Hlo|Hlo]; simpl.
  { destruct (Z.leb_spec 0 position); [lia|]. simpl.
    destruct (Z.leb_spec (- Z.of_nat (length cs)) position); [lia|].
    apply runs_ret. }
  destruct (Z.ltb_spec position (Z.of_nat (length cs))); [|lia].
  destruct (Z.leb_spec (- Z.of_nat (length cs)) position); [|lia].
  destruct (Z.geb_spec position 0) as [Hnn|Hneg].
  - destruct (Z.leb_spec 0 position); [|lia]. simpl.
    eapply runs_bind; [apply runs_get_head|]. rewrite Hhd, addr_at_first.
    apply (walk_next_spec h d cs (Z.to_nat position) 0 Hwf). lia.
  - destruct (Z.leb_spec 0 position); [lia|].
    destruct (Z.ltb_spec position 0); [|lia]. simpl.
    eapply runs_bind; [apply runs_get_tail|]. rewrite Htl, addr_at_last.
    destruct (length cs) as [|n] eqn:Hlen; [lia|]. simpl.
    replace (Z.to_nat (Z.of_nat (S n) + position))
      with (n - Z.to_nat (-1 - position)) by lia.
    apply walk_prev_spec; [done|]. lia.
Qed.

(** [operator[]] at a position that resolves: the element there is read,
    nothing changes. *)
Lemma get_spec h d cs position i :
  wf h d cs -> resolve (length cs) position = Some i ->
  exists v, items cs !! i = Some v /\ runs (get position) h d v h d.
Proof.
  intros Hwf Hr. destruct (resolve_Some _ _ _ Hr) as [Hi _].
  destruct (addr_at_lt cs i Hi) as [a Ha].
  destruct (wf_node_at _ _ _ _ _ Hwf Ha) as (v & Hc & Hn).
  exists v. split.
  - unfold items. by rewrite list_lookup_fmap, Hc.
  - unfold get. eapply runs_bind; [by apply _find_spec|].
    rewrite Hr. simpl. rewrite Ha. by apply (runs_rd_item h d a _ Hn).
Qed.

(** [operator[]] at a position that does not resolve dereferences null. *)
Lemma get_fault h d cs position :
  wf h d cs -> resolve (length cs) position = None ->
  get position {| mem := h; self := d |} = Fault.
Proof.
  intros Hwf Hr. unfold get, bind.
  rewrite (_find_spec h d cs position Hwf), Hr. done.
Qed.

(** ** insert *)

Lemma clamp_le n position : clamp n position <= n.
Proof. unfold clamp. repeat case_match; lia. Qed.

Lemma clamp_Z n position0 :
  (let size := Z.of_nat n in
   let position := if position0 <? 0 then position0 + size else position0 in
   let position := if position <? 0 then 0 else position in
   let position := if position >? size then size else position in
   position = Z.of_nat (clamp n position0))%Z.
Proof. unfold clamp. cbv zeta. repeat case_match; lia. Qed.

Lemma NoDup_insert_middle (l1 l2 : list nat) x :
  NoDup (l1 ++ l2) -> x ∉ (l1 ++ l2) -> NoDup (l1 ++ x :: l2).
Proof.
  intros Hnd Hx. rewrite <- Permutation_middle. by apply list.NoDup_cons.
Qed.

Lemma NoDup_delete_middle (l1 l2 : list nat) x :
  NoDup (l1 ++ x :: l2) -> NoDup (l1 ++ l2) /\ x ∉ (l1 ++ l2).
Proof.
  rewrite <- Permutation_middle. intros Hnd.
  apply list.NoDup_cons in Hnd. tauto.
Qed.

Lemma wf_split h d c1 a v c2 :
  wf h d (c1 ++ (a, v) :: c2) ->
  NoDup (addrs c1) /\ NoDup (addrs ((a, v) :: c2)) /\
  (a ∉ addrs c1) /\ (a ∉ addrs c2) /\
  (forall b, b ∈ addrs c1 -> b ∉ addrs ((a, v) :: c2)) /\
  seg h None c1 (Some a) /\
  seg h (last_of c1 None) ((a, v) :: c2) None /\
  h !! a = Some (mkNode v (first_of c2 None) (last_of c1 None)).
Proof.
  intros [Hnd Hseg _ _ _]. rewrite addrs_app in Hnd.
  pose proof Hnd as Hnd2. apply list.NoDup_app in Hnd2 as (Hn1 & Hdisj & Hn2).
  apply seg_app in Hseg as [Hs1 Hs2].
  repeat split; try done.
  - intros Ha. apply (Hdisj a Ha). left.
  - unfold addrs in Hn2. simpl in Hn2. by apply list.NoDup_cons in Hn2 as [? _].
  - by destruct Hs2.
  - by destruct Hs2.
  - by destruct Hs2.
Qed.

(** Splicing a fresh node in front of the cell [(a, v)]. *)
Lemma insert_before_spec h d c1 a v c2 x :
  wf h d (c1 ++ (a, v) :: c2) ->
  exists h' d',
    runs (previous <- rd_prev (Some a) ;;
          newNode <- make_shared (new_node x previous (Some a)) ;;
          match previous with
          | Some _ => wr_next previous newNode
          | None => set_head newNode
          end ;;;
          wr_prev (Some a) newNode ;;;
          size <- get_size ;;
          set_size (size + 1)) h d tt h' d' /\
    wf h' d' (c1 ++ (length h, x) :: (a, v) :: c2) /\
    preserved h h' (c1 ++ (a, v) :: c2).
Proof.
  intros Hwf. pose proof Hwf as [Hnd _ Hhd Htl Hsz].
  destruct (wf_split _ _ _ _ _ _ Hwf)
    as (Hn1 & Hn2 & Ha1 & Ha2 & Hdisj & Hs1 & Hs2 & Hnode).
  pose proof (wf_fresh _ _ _ (length h) Hwf (le_n _)) as Hfresh.
  assert (Halt : a < length h) by (by apply lookup_lt_Some in Hnode).
  assert (Hain : a ∈ addrs (c1 ++ (a, v) :: c2)).
  { rewrite addrs_app. apply elem_of_app. right. left. }
  assert (Hnd' : NoDup (addrs (c1 ++ (length h, x) :: (a, v) :: c2))).
  { rewrite addrs_app in *. by apply NoDup_insert_middle. }
  assert (Htl' : last_of (c1 ++ (length h, x) :: (a, v) :: c2) None
                 = last_of (c1 ++ (a, v) :: c2) None).
  { by rewrite !last_of_app, !last_of_cons. }
  destruct (last_of c1 None) as [pv|] eqn:Hlast.
  - (* there is a previous node [pv] *)
    pose proof (last_of_elem _ _ Hlast) as Hpin.
    assert (Hplt : pv < length h) by (eapply seg_bound; [exact Hs1|exact Hpin]).
    eexists _, _. split.
    { eapply runs_bind; [by apply (runs_rd_prev h d a _ Hnode)|]. simpl.
      eapply runs_bind; [apply runs_make_shared|].
      eapply runs_bind; [apply runs_update; rewrite length_app; lia|].
      eapply runs_bind;
        [apply runs_update; rewrite length_alter, length_app; lia|].
      eapply runs_bind; [apply runs_get_size|]. apply runs_set_size. }
    split.
    + split; simpl; [done| | | |].
      * apply seg_app. split.
        -- apply seg_alter_out; [done|].
           apply (seg_set_next_last _ _ _ (Some a)); [done..|].
           by apply seg_grow.
        -- simpl. split.
           ++ rewrite !list_lookup_alter_ne by lia.
              rewrite list_lookup_middle by done.
              by rewrite (last_of_Some _ _ _ Hlast).
           ++ apply (seg_set_prev_first _ (Some pv) _ ((a, v) :: c2));
                [done..|].
              apply seg_alter_out; [by apply Hdisj|]. by apply seg_grow.
      * rewrite Hhd, !first_of_app. destruct c1; [done|done].
      * by rewrite Htl'.
      * rewrite Hsz, !length_app. simpl. lia.
    + apply preserved_alter; [by left|]. apply preserved_alter.
      * left. rewrite addrs_app. apply elem_of_app. by left.
      * apply preserved_grow.
  - (* [a] was the head *)
    assert (c1 = []) as ->.
    { destruct c1 as [|c c1 _] using rev_ind; [done|].
      rewrite last_of_app in Hlast. done. }
    eexists _, _. split.
    { eapply runs_bind; [by apply (runs_rd_prev h d a _ Hnode)|]. simpl.
      eapply runs_bind; [apply runs_make_shared|].
      eapply runs_bind; [apply runs_set_head|].
      eapply runs_bind; [apply runs_update; rewrite length_app; lia|].
      eapply runs_bind; [apply runs_get_size|]. apply runs_set_size. }
    split.
    + split; simpl; [done| | done | |].
      * split.
        -- rewrite list_lookup_alter_ne by lia.
           by rewrite list_lookup_middle.
        -- apply (seg_set_prev_first _ None _ ((a, v) :: c2)); [done..|].
           by apply seg_grow.
      * simpl in Htl'. by rewrite Htl'.
      * rewrite Hsz. simpl. lia.
    + apply preserved_alter; [by left|]. apply preserved_grow.
Qed.

Lemma insert_spec h d cs position x :
  wf h d cs ->
  exists h' d',
    runs (insert position x) h d tt h' d' /\
    wf h' d' (insert_at (clamp (length cs) position) (length h, x) cs) /\
    preserved h h' cs.
Proof.
  intros Hwf. pose proof Hwf as [_ _ _ _ Hsz].
  pose proof (clamp_le (length cs) position) as Hle.
  unfold insert_at.
  destruct (decide (clamp (length cs) position = length cs)) as [Heq|Hne].
  - (* the clamped position is the end: append *)
    rewrite Heq, firstn_all, drop_all.
    destruct (append_spec h d cs x Hwf) as (h' & d' & Hrun & Hwf' & Hpres).
    exists h', d'. split; [|done].
    unfold insert. eapply runs_bind; [apply runs_get_size|].
    rewrite Hsz. pose proof (clamp_Z (length cs) position) as Hp.
    cbv zeta in Hp. cbv zeta. rewrite Hp, Heq, Z.eqb_refl, orb_true_r. done.
  - (* the clamped position holds a node *)
    set (p := clamp (length cs) position) in *.
    destruct (lookup_lt_is_Some_2 cs p) as [[a v] Hc]; [lia|].
    pose proof (take_drop_middle cs p (a, v) Hc) as Hcs.
    rewrite (drop_S _ _ _ Hc). rewrite <- Hcs in Hwf.
    destruct (insert_before_spec h d _ a v _ x Hwf)
      as (h' & d' & Hrun & Hwf' & Hpres).
    rewrite Hcs in Hwf, Hpres.
    exists h', d'. split; [|done].
    unfold insert. eapply runs_bind; [apply runs_get_size|].
    rewrite Hsz. cbv zeta.
    pose proof (clamp_Z (length cs) position) as Hp. cbv zeta in Hp.
    fold p in Hp.
    rewrite Hp.
    replace (_ || _)%Z with false.
    2:{ symmetry. apply orb_false_iff. split; apply Z.eqb_neq; lia. }
    eapply runs_bind; [by apply _find_spec|].
    rewrite resolve_nonneg by lia. simpl. unfold addr_at. rewrite Hc.
    exact Hrun.
Qed.

(** ** Unlinking a node: _delete, pop and remove *)

Lemma first_of_nonempty cs a d1 d2 :
  first_of cs d1 = Some a -> cs <> [] -> first_of cs d2 = Some a.
Proof. by destruct cs. Qed.

Lemma last_of_None cs : last_of cs None = None -> cs = [].
Proof.
  destruct cs as [|c cs _] using rev_ind; [done|].
  by rewrite last_of_app.
Qed.

Lemma first_of_None cs : first_of cs None = None -> cs = [].
Proof. by destruct cs. Qed.

Lemma last_of_indep cs a d1 d2 :
  last_of cs d1 = Some a -> cs <> [] -> last_of cs d2 = Some a.
Proof.
  destruct cs as [|c cs _] using rev_ind; [done|].
  by rewrite !last_of_app.
Qed.

Lemma unlink_spec h d c1 a v c2 :
  wf h d (c1 ++ (a, v) :: c2) ->
  exists h' d',
    runs (unlink (last_of c1 None) (first_of c2 None)) h d tt h' d' /\
    wf h' d' (c1 ++ c2) /\
    preserved h h' (c1 ++ (a, v) :: c2) /\
    h' !! a = h !! a.
Proof.
  intros Hwf. pose proof Hwf as [Hnd _ Hhd Htl Hsz].
  destruct (wf_split _ _ _ _ _ _ Hwf)
    as (Hn1 & Hn2 & Ha1 & Ha2 & Hdisj & Hs1 & Hs2 & Hnode).
  simpl in Hs2. destruct Hs2 as [_ Hs2].
  rewrite addrs_app in Hnd. simpl in Hnd.
  destruct (NoDup_delete_middle _ _ _ Hnd) as [Hnd' _].
  rewrite <- addrs_app in Hnd'.
  assert (Hn2' : NoDup (addrs c2)).
  { unfold addrs in Hn2. simpl in Hn2. by apply list.NoDup_cons in Hn2 as [_ ?]. }
  assert (Hsub1 : forall b, b ∈ addrs c1 -> b ∈ addrs (c1 ++ (a, v) :: c2)).
  { intros b Hb. rewrite addrs_app. apply elem_of_app. by left. }
  assert (Hsub2 : forall b, b ∈ addrs c2 -> b ∈ addrs (c1 ++ (a, v) :: c2)).
  { intros b Hb. rewrite addrs_app. apply elem_of_app. right. by right. }
  assert (Hdisj' : forall b, b ∈ addrs c1 -> b ∉ addrs c2).
  { intros b Hb Hb2. apply (Hdisj b Hb). by right. }
  (* first the forward link around [a] ... *)
  assert (exists h1 d1,
    runs (match last_of c1 None with
          | Some _ => wr_next (last_of c1 None) (first_of c2 None)
          | None => set_head (first_of c2 None)
          end) h d tt h1 d1 /\
    seg h1 None c1 (first_of c2 None) /\ seg h1 (Some a) c2 None /\
    preserved h h1 (c1 ++ (a, v) :: c2) /\ h1 !! a = h !! a /\
    _head d1 = first_of (c1 ++ c2) None /\ _tail d1 = _tail d /\
    _size d1 = _size d) as (h1 & d1 & Hrun1 & Hs1' & Hs2' & Hp1 & Ha1' & Hhd1 & Htl1 & Hsz1).
  { destruct (last_of c1 None) as [pv|] eqn:Hlast.
    - pose proof (last_of_elem _ _ Hlast) as Hpin.
      assert (Hplt : pv < length h) by (eapply seg_bound; [exact Hs1|exact Hpin]).
      eexists _, _. split; [by apply runs_update|].
      split; [by apply (seg_set_next_last _ _ _ (Some a))|].
      split; [apply seg_alter_out; [by apply Hdisj'|done]|].
      split; [apply preserved_alter; [left; by apply Hsub1|apply preserved_refl]|].
      split; [apply list_lookup_alter_ne; by intros ->|].
      split; [|done]. rewrite Hhd, !first_of_app.
      assert (c1 <> []) by (by intros ->). by destruct c1.
    - apply last_of_None in Hlast as ->.
      eexists _, _. split; [apply runs_set_head|].
      repeat split; done. }
  (* ... then the back-reference *)
  assert (Hlen1 : length h <= length h1) by (by destruct Hp1).
  destruct (first_of c2 None) as [nx|] eqn:Hfirst.
  - pose proof (first_of_elem _ _ Hfirst) as Hnin.
    assert (Hnlt : nx < length h1).
    { eapply seg_bound; [exact Hs2'|exact Hnin]. }
    assert (c2 <> []) by (by intros ->).
    eexists _, _. split.
    { unfold unlink. eapply runs_bind; [exact Hrun1|].
      eapply runs_bind; [by apply runs_update|].
      eapply runs_bind; [apply runs_get_size|]. apply runs_set_size. }
    split; [|split].
    + split; simpl; [done| | | |].
      * apply seg_app. split.
        -- rewrite (first_of_Some _ _ _ Hfirst).
           apply seg_alter_out; [|done]. intros Hin. by apply (Hdisj' nx).
        -- by apply (seg_set_prev_first _ (Some a)).
      * done.
      * rewrite Htl1, Htl, !last_of_app, last_of_cons.
        simpl. destruct (last_of c2 (Some a)) eqn:Hl.
        -- symmetry. by eapply last_of_indep.
        -- destruct c2 as [|c c2 _] using rev_ind; [done|].
           by rewrite last_of_app in Hl.
      * rewrite Hsz1, Hsz, !length_app. simpl. lia.
    + apply preserved_alter; [left; by apply Hsub2|done].
    + rewrite list_lookup_alter_ne; [done|]. by intros ->.
  - apply first_of_None in Hfirst as ->.
    eexists _, _. split.
    { unfold unlink. eapply runs_bind; [exact Hrun1|].
      eapply runs_bind; [apply runs_set_tail|].
      eapply runs_bind; [apply runs_get_size|]. apply runs_set_size. }
    rewrite app_nil_r in *. split; [|done].
    split; simpl; try done.
    rewrite Hsz1, Hsz, !length_app. simpl. lia.
Qed.

Lemma _delete_spec h d cs position i :
  wf h d cs -> resolve (length cs) position = Some i ->
  exists v h' d',
    items cs !! i = Some v /\
    runs (_delete position) h d v h' d' /\
    wf h' d' (delete i cs) /\
    preserved h h' cs.
Proof.
  intros Hwf Hr. pose proof Hwf as [_ _ _ _ Hsz].
  destruct (resolve_Some _ _ _ Hr) as [Hi Hpos].
  destruct (lookup_lt_is_Some_2 cs i Hi) as [[a v] Hc].
  pose proof (take_drop_middle cs i (a, v) Hc) as Hcs.
  pose proof (wf_node _ _ _ _ _ _ Hwf Hc) as Hnode.
  rewrite <- Hcs in Hwf.
  destruct (unlink_spec h d _ a v _ Hwf) as (h' & d' & Hrun & Hwf' & Hpres & Ha).
  rewrite Hcs in Hwf, Hpres. rewrite <- delete_take_drop in Hwf'.
  exists v, h', d'. split; [|split; [|done]].
  { unfold items. by rewrite list_lookup_fmap, Hc. }
  unfold _delete. eapply runs_bind; [apply runs_get_size|].
  rewrite Hsz. cbv zeta.
  replace (if (position <? 0)%Z then (position + Z.of_nat (length cs))%Z
           else position) with (Z.of_nat i) by (case_match; lia).
  replace (_ || _)%Z with false.
  2:{ symmetry. apply orb_false_iff. rewrite Z.geb_leb.
      split; [apply Z.ltb_ge|apply Z.leb_gt]; lia. }
  eapply runs_bind; [by apply _find_spec|].
  rewrite resolve_nonneg by lia. simpl. unfold addr_at. rewrite Hc. simpl.
  eapply runs_bind; [by apply (runs_rd_prev h d a _ Hnode)|].
  eapply runs_bind; [by apply (runs_rd_next h d a _ Hnode)|]. simpl.
  rewrite <- first_of_drop, <- last_of_take by lia.
  eapply runs_bind; [exact Hrun|].
  rewrite <- Ha in Hnode. by apply (runs_rd_item h' d' a _ Hnode).
Qed.

Lemma _delete_invalid h d cs position :
  wf h d cs -> resolve (length cs) position = None ->
  runs (_delete position) h d value_init h d.
Proof.
  intros [_ _ _ _ Hsz] Hr. apply resolve_None in Hr.
  unfold _delete. eapply runs_bind; [apply runs_get_size|].
  rewrite Hsz. cbv zeta.
  replace (_ || _)%Z with true; [apply runs_ret|].
  symmetry. apply orb_true_iff.
  destruct (Z.ltb_spec position 0).
  - left. apply Z.ltb_lt. lia.
  - right. rewrite Z.geb_leb. apply Z.leb_le. lia.
Qed.

Lemma pop_default_eq : pop_default = pop (-1).
Proof. done. Qed.

(** *** remove *)

Lemma items_cons a v (cs : list cell) : items ((a, v) :: cs) = v :: items cs.
Proof. done. Qed.

Lemma remove_loop_absent h d c1 c2 x fuel :
  wf h d (c1 ++ c2) -> x ∉ items c2 -> length c2 <= fuel ->
  runs (remove_loop fuel x (first_of c2 None)) h d tt h d.
Proof.
  revert c1 fuel. induction c2 as [|[a v] c2 IH]; intros c1 fuel Hwf Hx Hf.
  - destruct fuel; apply runs_ret.
  - simpl in Hf. destruct fuel as [|fuel]; [lia|].
    destruct (wf_split _ _ _ _ _ _ Hwf) as (_ & _ & _ & _ & _ & _ & _ & Hnode).
    rewrite items_cons in Hx. apply not_elem_of_cons in Hx as [Hne Hx].
    simpl. eapply runs_bind; [by apply (runs_rd_item h d a _ Hnode)|]. simpl.
    destruct (decide (v = x)) as [->|_]; [done|].
    eapply runs_bind; [by apply (runs_rd_next h d a _ Hnode)|]. simpl.
    apply (IH (c1 ++ [(a, v)])); [|done|lia].
    by rewrite <- app_assoc.
Qed.

Lemma remove_loop_present h d c1 c2 a c3 x fuel :
  wf h d (c1 ++ c2 ++ (a, x) :: c3) -> x ∉ items c2 -> length c2 < fuel ->
  exists h' d',
    runs (remove_loop fuel x (first_of (c2 ++ (a, x) :: c3) None)) h d tt h' d' /\
    wf h' d' (c1 ++ c2 ++ c3) /\
    preserved h h' (c1 ++ c2 ++ (a, x) :: c3).
Proof.
  revert c1 fuel. induction c2 as [|[b w] c2 IH]; intros c1 fuel Hwf Hx Hf.
  - destruct fuel as [|fuel]; [lia|]. simpl in *.
    destruct (wf_split _ _ _ _ _ _ Hwf) as (_ & _ & _ & _ & _ & _ & _ & Hnode).
    destruct (unlink_spec _ _ _ _ _ _ Hwf) as (h' & d' & Hrun & Hwf' & Hp & _).
    exists h', d'. split; [|done].
    eapply runs_bind; [by apply (runs_rd_item h d a _ Hnode)|]. simpl.
    destruct (decide (x = x)) as [_|]; [|done].
    eapply runs_bind; [by apply (runs_rd_prev h d a _ Hnode)|].
    eapply runs_bind; [by apply (runs_rd_next h d a _ Hnode)|]. done.
  - simpl in Hf. destruct fuel as [|fuel]; [lia|].
    rewrite items_cons in Hx. apply not_elem_of_cons in Hx as [Hne Hx].
    pose proof Hwf as Hwf0.
    change (c1 ++ ((b, w) :: c2) ++ (a, x) :: c3)
      with (c1 ++ (b, w) :: (c2 ++ (a, x) :: c3)) in Hwf.
    destruct (wf_split _ _ _ _ _ _ Hwf) as (_ & _ & _ & _ & _ & _ & _ & Hnode).
    destruct (IH (c1 ++ [(b, w)]) fuel) as (h' & d' & Hrun & Hwf' & Hp);
      [by rewrite <- app_assoc|done|lia|].
    rewrite <- !app_assoc in Hwf', Hp.
    exists h', d'. split; [|done].
    simpl. eapply runs_bind; [by apply (runs_rd_item h d b _ Hnode)|]. simpl.
    destruct (decide (w = x)) as [->|_]; [done|].
    eapply runs_bind; [by apply (runs_rd_next h d b _ Hnode)|]. done.
Qed.

Lemma remove_absent h d cs x fuel :
  wf h d cs -> x ∉ items cs -> length cs <= fuel ->
  runs (remove fuel x) h d tt h d.
Proof.
  intros Hwf Hx Hf. pose proof Hwf as [_ _ Hhd _ _].
  unfold remove. eapply runs_bind; [apply runs_get_head|]. rewrite Hhd.
  by apply (remove_loop_absent h d []).
Qed.

Lemma remove_present h d cs x l1 l2 fuel :
  wf h d cs -> items cs = l1 ++ x :: l2 -> x ∉ l1 -> length cs <= fuel ->
  exists h' d' cs',
    runs (remove fuel x) h d tt h' d' /\
    wf h' d' cs' /\ items cs' = l1 ++ l2 /\
    preserved h h' cs /\ addrs cs' ⊆ addrs cs.
Proof.
  intros Hwf Hit Hx Hf. pose proof Hwf as [_ _ Hhd _ _].
  unfold items in Hit. apply fmap_app_inv in Hit as (c2 & c3' & -> & Hc3 & ->).
  symmetry in Hc3. apply fmap_cons_inv in Hc3 as ([a x'] & c3 & Hx' & -> & ->).
  simpl in Hx'. subst x'.
  destruct (remove_loop_present h d [] c2 a c3 x fuel) as (h' & d' & Hrun & Hwf' & Hp);
    [done|done|rewrite length_app in Hf; simpl in Hf; lia|].
  exists h', d', (c2 ++ c3). split; [|split; [done|split; [|split; [done|]]]].
  - unfold remove. eapply runs_bind; [apply runs_get_head|]. by rewrite Hhd.
  - apply items_app.
  - rewrite !addrs_app. intros b Hb. apply elem_of_app in Hb as [Hb|Hb];
      apply elem_of_app; [by left|right; by right].
Qed.

(** *** clear *)

Lemma clear_spec h d : runs clear h d tt h empty_DList.
Proof. done. Qed.

Lemma wf_empty h : wf h empty_DList [].
Proof. split; try done. apply NoDup_nil_2. Qed.

(** *** writing through operator[] *)

Lemma set_spec h d cs position i v :
  wf h d cs -> resolve (length cs) position = Some i ->
  exists h' cs',
    runs (set position v) h d tt h' d /\
    wf h' d cs' /\ items cs' = <[i := v]> (items cs) /\
    addrs cs' = addrs cs /\ preserved h h' cs.
Proof.
  intros Hwf Hr. pose proof Hwf as [Hnd Hseg Hhd Htl Hsz].
  destruct (resolve_Some _ _ _ Hr) as [Hi _].
  destruct (lookup_lt_is_Some_2 cs i Hi) as [[a w] Hc].
  pose proof (take_drop_middle cs i (a, w) Hc) as Hcs.
  pose proof (wf_node _ _ _ _ _ _ Hwf Hc) as Hnode.
  assert (Halt : a < length h) by (by apply lookup_lt_Some in Hnode).
  pose proof Hwf as Hwf0. rewrite <- Hcs in Hwf.
  destruct (wf_split _ _ _ _ _ _ Hwf)
    as (Hn1 & Hn2 & Ha1 & Ha2 & Hdisj & Hs1 & Hs2 & Hnode').
  assert (Haddrs : addrs (take i cs ++ (a, v) :: drop (S i) cs) = addrs cs).
  { rewrite <- Hcs at 3. by rewrite !addrs_app. }
  exists (alter (with_item v) a h), (take i cs ++ (a, v) :: drop (S i) cs).
  split; [|split; [|split; [|split; [done|]]]].
  - unfold set. eapply runs_bind; [by apply (_find_spec h d cs)|].
    rewrite Hr. simpl. unfold addr_at. rewrite Hc. simpl.
    by apply runs_update.
  - split.
    + by rewrite Haddrs.
    + apply seg_app. split; [by apply seg_alter_out|].
      simpl in *. destruct Hs2 as [_ Hs2]. split.
      * by rewrite list_lookup_alter_eq, Hnode'.
      * by apply seg_alter_out.
    + rewrite Hhd. rewrite <- Hcs at 1. rewrite !first_of_app. done.
    + rewrite Htl. rewrite <- Hcs at 1. by rewrite !last_of_app, !last_of_cons.
    + rewrite Hsz. rewrite <- Hcs at 1. by rewrite !length_app.
  - rewrite items_app, items_cons. unfold items.
    rewrite <- Hcs at 3. rewrite fmap_app, fmap_cons. simpl.
    rewrite insert_app_r_alt; rewrite length_fmap, length_take; [|lia].
    replace (i - i `min` length cs) with 0 by lia. done.
  - apply preserved_alter; [|apply preserved_refl].
    left. eapply addr_at_elem. unfold addr_at. by rewrite Hc.
Qed.

(** ** index *)

Lemma first_index_Some x vs k :
  first_index x vs = Some k <->
  vs !! k = Some x /\ forall j, j < k -> vs !! j <> Some x.
Proof.
  revert k. induction vs as [|v vs IH]; intros k; simpl.
  - split; [done|]. by intros [? _].
  - destruct (decide (v = x)) as [->|Hne].
    + split.
      * intros [= <-]. split; [done|]. intros j Hj. lia.
      * intros [Hk Hmin]. destruct k as [|k]; [done|].
        exfalso. by apply (Hmin 0); [lia|].
    + split.
      * intros Hs. destruct k as [|k]; [by destruct (first_index x vs)|].
        assert (Hfi : first_index x vs = Some k).
        { destruct (first_index x vs); simpl in Hs; congruence. }
        apply IH in Hfi as [Hk Hmin]. split; [done|].
        intros [|j] Hj; simpl; [congruence|]. apply Hmin. lia.
      * intros [Hk Hmin]. destruct k as [|k]; [simpl in Hk; congruence|].
        assert (first_index x vs = Some k) as ->; [|done].
        apply IH. split; [done|]. intros j Hj. apply (Hmin (S j)). lia.
Qed.

Lemma first_index_None x vs : first_index x vs = None <-> x ∉ vs.
Proof.
  induction vs as [|v vs IH]; simpl.
  - split; [intros _; apply not_elem_of_nil|done].
  - destruct (decide (v = x)) as [->|Hne].
    + split; [done|]. intros Hx. exfalso. apply Hx. left.
    + rewrite not_elem_of_cons. destruct (first_index x vs); simpl.
      * split; [done|]. intros [_ Hx]. by apply IH in Hx.
      * split; [|done]. intros _. split; [done|]. by apply IH.
Qed.

Lemma to_size_t_succ z : to_size_t (to_size_t z + 1) = to_size_t (z + 1).
Proof. unfold to_size_t. by rewrite Zplus_mod_idemp_l. Qed.

Lemma index_loop_spec h d c1 c2 x fuel index :
  wf h d (c1 ++ c2) -> length c2 <= fuel ->
  runs (index_loop fuel x (first_of c2 None) (to_size_t index)) h d
    match first_index x (items c2) with
    | Some k => to_size_t (index + Z.of_nat k)
    | None => NOT_FOUND
    end h d.
Proof.
  revert c1 fuel index. induction c2 as [|[a v] c2 IH]; intros c1 fuel index Hwf Hf.
  - destruct fuel; apply runs_ret.
  - simpl in Hf. destruct fuel as [|fuel]; [lia|].
    destruct (wf_split _ _ _ _ _ _ Hwf) as (_ & _ & _ & _ & _ & _ & _ & Hnode).
    simpl. eapply runs_bind; [by apply (runs_rd_item h d a _ Hnode)|]. simpl.
    destruct (decide (v = x)) as [->|Hne].
    + rewrite Z.add_0_r. apply runs_ret.
    + eapply runs_bind; [by apply (runs_rd_next h d a _ Hnode)|]. simpl.
      rewrite to_size_t_succ.
      specialize (IH (c1 ++ [(a, v)]) fuel (index + 1)%Z).
      rewrite <- app_assoc in IH. specialize (IH Hwf ltac:(lia)).
      destruct (first_index x (items c2)) as [k|]; simpl; [|done].
      replace (index + Z.of_nat (S k))%Z with (index + 1 + Z.of_nat k)%Z by lia.
      done.
Qed.

(** What [index] computes, for every [start] of type [size_t]. *)
Lemma index_spec h d cs x start fuel :
  wf h d cs -> (0 <= start < 2 ^ 64)%Z -> length cs <= fuel ->
  runs (index fuel x start) h d
    match resolve (length cs) (to_long start) with
    | Some j =>
      match first_index x (drop j (items cs)) with
      | Some k => to_size_t (start + Z.of_nat k)
      | None => NOT_FOUND
      end
    | None => NOT_FOUND
    end h d.
Proof.
  intros Hwf Hs Hf. unfold index.
  eapply runs_bind; [by apply _find_spec|].
  destruct (resolve (length cs) (to_long start)) as [j|] eqn:Hr; simpl.
  - destruct (resolve_Some _ _ _ Hr) as [Hj _].
    rewrite <- first_of_drop.
    replace start with (to_size_t start) at 1
      by (unfold to_size_t; apply Z.mod_small; lia).
    unfold items. rewrite <- fmap_drop.
    apply (index_loop_spec h d (take j cs)).
    + by rewrite take_drop.
    + rewrite length_drop. lia.
  - destruct fuel; apply runs_ret.
Qed.

(** [index] for a [start] that is also a non-negative [long], on a list
    whose size is one: the first position from [start] on, or the sentinel. *)
Lemma index_small_start h d cs x start fuel :
  wf h d cs -> (Z.of_nat (length cs) < 2 ^ 63)%Z -> (Z.of_nat start < 2 ^ 63)%Z ->
  length cs <= fuel ->
  (forall p, start <= p -> items cs !! p = Some x ->
             (forall q, start <= q < p -> items cs !! q <> Some x) ->
             runs (index fuel x (Z.of_nat start)) h d (Z.of_nat p) h d) /\
  ((forall p, start <= p -> items cs !! p <> Some x) ->
   runs (index fuel x (Z.of_nat start)) h d NOT_FOUND h d).
Proof.
  intros Hwf Hlen Hst Hf.
  pose proof (index_spec h d cs x (Z.of_nat start) fuel Hwf ltac:(lia) Hf) as Hrun.
  assert (Hlong : to_long (Z.of_nat start) = Z.of_nat start).
  { unfold to_long. rewrite Z.mod_small; lia. }
  rewrite Hlong in Hrun. split.
  - intros p Hp Hx Hmin.
    assert (Hpl : p < length cs).
    { apply lookup_lt_Some in Hx. unfold items in Hx. by rewrite length_fmap in Hx. }
    rewrite resolve_nonneg in Hrun by lia.
    assert (Hfi : first_index x (drop start (items cs)) = Some (p - start)).
    { apply first_index_Some. split.
      - rewrite lookup_drop. by replace (start + (p - start)) with p by lia.
      - intros j Hj. rewrite lookup_drop. apply Hmin. lia. }
    rewrite Hfi in Hrun.
    replace (Z.of_nat start + Z.of_nat (p - start))%Z with (Z.of_nat p) in Hrun by lia.
    unfold to_size_t in Hrun. rewrite Z.mod_small in Hrun by lia. done.
  - intros Hno. destruct (resolve (length cs) (Z.of_nat start)) as [j|] eqn:Hr; [|done].
    destruct (resolve_Some _ _ _ Hr) as [Hj [[_ Heq]|[Hneg _]]]; [|lia].
    assert (j = start) as -> by lia.
    assert (Hfi : first_index x (drop start (items cs)) = None).
    { apply first_index_None. intros Hin.
      apply list_elem_of_lookup in Hin as [k Hk]. rewrite lookup_drop in Hk.
      by apply (Hno (start + k)); [lia|]. }
    by rewrite Hfi in Hrun.
Qed.

(** ** extend *)

Lemma fresh_in_nil h : fresh_in h [].
Proof. intros a Ha. inversion Ha. Qed.

Lemma fresh_in_cons h h' a v cs :
  length h <= a -> length h <= length h' -> fresh_in h' cs ->
  fresh_in h ((a, v) :: cs).
Proof.
  intros Ha Hl Hf b Hb. apply elem_of_cons in Hb as [->|Hb]; [done|].
  apply Hf in Hb. lia.
Qed.

Lemma grown_app_fresh h cs news : fresh_in h news -> grown h cs (cs ++ news).
Proof.
  intros Hf a Ha. rewrite addrs_app in Ha.
  apply elem_of_app in Ha as [Ha|Ha]; [by left|right; by apply Hf].
Qed.

Lemma extend_self_loop_spec m : forall k cur h d,
  wf h d cur -> k + m <= length cur ->
  exists h' d' news,
    runs (extend_self_loop m (addr_at cur k)) h d tt h' d' /\
    wf h' d' (cur ++ news) /\
    items news = take m (drop k (items cur)) /\
    preserved h h' cur /\ fresh_in h news.
Proof.
  induction m as [|m IH]; intros k cur h d Hwf Hk.
  - exists h, d, []. rewrite app_nil_r. conj_split; try done.
    apply fresh_in_nil.
  - destruct (lookup_lt_is_Some_2 cur k) as [[a v] Hc]; [lia|].
    pose proof (wf_node _ _ _ _ _ _ Hwf Hc) as Hnode.
    destruct (append_spec h d cur v Hwf) as (h1 & d1 & Hrun1 & Hwf1 & Hp1).
    assert (Hc1 : (cur ++ [(length h, v)]) !! k = Some (a, v)).
    { rewrite lookup_app_l; [done|lia]. }
    pose proof (wf_node _ _ _ _ _ _ Hwf1 Hc1) as Hnode1.
    destruct (IH (S k) (cur ++ [(length h, v)]) h1 d1 Hwf1)
      as (h' & d' & news & Hrun & Hwf' & Hit & Hp & Hfr).
    { rewrite length_app. simpl. lia. }
    exists h', d', ((length h, v) :: news).
    split; [|split; [|split; [|split]]].
    + assert (Ha : addr_at cur k = Some a) by (unfold addr_at; by rewrite Hc).
      simpl. rewrite Ha.
      eapply runs_bind; [by apply (runs_rd_item h d a _ Hnode)|]. simpl.
      eapply runs_bind; [exact Hrun1|].
      eapply runs_bind; [by apply (runs_rd_next h1 d1 a _ Hnode1)|]. done.
    + by rewrite <- app_assoc in Hwf'.
    + rewrite items_cons, Hit, items_app. simpl.
      assert (Hlen : length (items cur) = length cur)
        by (unfold items; apply length_fmap).
      assert (Hv : items cur !! k = Some v).
      { unfold items. by rewrite list_lookup_fmap, Hc. }
      rewrite (drop_S _ _ _ Hv). simpl. f_equal.
      rewrite drop_app_le by lia. rewrite take_app_le; [done|].
      rewrite length_drop. lia.
    + eapply preserved_trans; [exact Hp1| |exact Hp].
      apply grown_app_fresh. intros b Hb.
      apply list_elem_of_singleton in Hb. subst. done.
    + destruct Hp1 as [Hl1 _]. by eapply fresh_in_cons.
Qed.

Lemma extend_self_spec h d cs :
  wf h d cs ->
  exists h' d' news,
    runs extend_self h d tt h' d' /\
    wf h' d' (cs ++ news) /\ items news = items cs /\
    preserved h h' cs /\ fresh_in h news.
Proof.
  intros Hwf. pose proof Hwf as [_ _ Hhd _ Hsz].
  destruct (extend_self_loop_spec (length cs) 0 cs h d Hwf)
    as (h' & d' & news & Hrun & Hwf' & Hit & Hp & Hfr); [lia|].
  exists h', d', news. split; [|split; [done|split; [|done]]].
  - unfold extend_self. eapply runs_bind; [apply runs_get_size|].
    eapply runs_bind; [apply runs_get_head|].
    by rewrite Hsz, Nat2Z.id, Hhd, addr_at_first.
  - rewrite Hit, drop_0. apply take_ge. unfold items. by rewrite length_fmap.
Qed.

Lemma wf_preserved h h' d cs co :
  wf h d co -> preserved h h' cs -> disjoint cs co -> wf h' d co.
Proof.
  intros Hwf [_ Hp] Hdis. apply (wf_frame h); [done|].
  intros a Ha. apply Hp.
  - by eapply wf_bound.
  - intros Hin. by apply (Hdis a).
Qed.

Lemma extend_loop_spec co2 : forall co1 cs h d dother fuel,
  wf h d cs -> wf h dother (co1 ++ co2) -> disjoint cs (co1 ++ co2) ->
  length co2 <= fuel ->
  exists h' d' news,
    runs (extend_loop fuel (first_of co2 None)) h d tt h' d' /\
    wf h' d' (cs ++ news) /\ items news = items co2 /\
    preserved h h' cs /\ fresh_in h news.
Proof.
  induction co2 as [|[b w] co2 IH]; intros co1 cs h d dother fuel Hwf Hwfo Hdis Hf.
  - exists h, d, []. rewrite app_nil_r. split; [destruct fuel; apply runs_ret|].
    conj_split; try done.
    apply fresh_in_nil.
  - simpl in Hf. destruct fuel as [|fuel]; [lia|].
    destruct (wf_split _ _ _ _ _ _ Hwfo) as (_ & _ & _ & _ & _ & _ & _ & Hnode).
    destruct (append_spec h d cs w Hwf) as (h1 & d1 & Hrun1 & Hwf1 & Hp1).
    pose proof (wf_preserved _ _ _ _ _ Hwfo Hp1 Hdis) as Hwfo1.
    destruct (wf_split _ _ _ _ _ _ Hwfo1) as (_ & _ & _ & _ & _ & _ & _ & Hnode1).
    destruct (IH (co1 ++ [(b, w)]) (cs ++ [(length h, w)]) h1 d1 dother fuel)
      as (h' & d' & news & Hrun & Hwf' & Hit & Hp & Hfr).
    { done. }
    { by rewrite <- app_assoc. }
    { rewrite <- app_assoc. simpl. intros a Ha Hin. rewrite addrs_app in Ha.
      apply elem_of_app in Ha as [Ha|Ha]; [by apply (Hdis a)|].
      apply list_elem_of_singleton in Ha. subst a. simpl in Hin.
      apply (wf_bound _ _ _ _ Hwfo) in Hin. lia. }
    { lia. }
    exists h', d', ((length h, w) :: news).
    split; [|split; [|split; [|split]]].
    + simpl. eapply runs_bind; [by apply (runs_rd_item h d b _ Hnode)|]. simpl.
      eapply runs_bind; [exact Hrun1|].
      eapply runs_bind; [by apply (runs_rd_next h1 d1 b _ Hnode1)|]. done.
    + by rewrite <- app_assoc in Hwf'.
    + by rewrite !items_cons, Hit.
    + eapply preserved_trans; [exact Hp1| |exact Hp].
      apply grown_app_fresh. intros a Ha.
      apply list_elem_of_singleton in Ha. subst. done.
    + destruct Hp1 as [Hl1 _]. by eapply fresh_in_cons.
Qed.

Lemma extend_other_spec h d cs dother co fuel :
  wf h d cs -> wf h dother co -> disjoint cs co -> length co <= fuel ->
  exists h' d' news,
    runs (extend_other fuel dother) h d tt h' d' /\
    wf h' d' (cs ++ news) /\ items news = items co /\
    preserved h h' cs /\ fresh_in h news.
Proof.
  intros Hwf Hwfo Hdis Hf. pose proof Hwfo as [_ _ Hhd _ _].
  unfold extend_other. rewrite Hhd.
  by apply (extend_loop_spec co [] cs h d dother fuel).
Qed.

(** ** _copy *)

Lemma items_length (cs : list cell) : length (items cs) = length cs.
Proof. unfold items. apply length_fmap. Qed.

Lemma copy_loop_spec so2 : forall so1 nc h d dsrc fuel,
  wf h dsrc (so1 ++ so2) -> seg h None nc None -> NoDup (addrs nc) ->
  disjoint nc (so1 ++ so2) -> (so2 <> [] -> nc <> []) ->
  length so2 <= fuel ->
  exists h' news,
    runs (copy_loop fuel (first_of so2 None) (last_of nc None)) h d
         (last_of (nc ++ news) None) h' d /\
    seg h' None (nc ++ news) None /\ NoDup (addrs (nc ++ news)) /\
    items news = items so2 /\ fresh_in h news /\ preserved h h' nc.
Proof.
  induction so2 as [|[b w] so2 IH];
    intros so1 nc h d dsrc fuel Hwfs Hseg Hnd Hdis Hne Hf.
  - exists h, []. rewrite app_nil_r.
    split; [destruct fuel; apply runs_ret|].
    conj_split; try done. apply fresh_in_nil.
  - simpl in Hf. destruct fuel as [|fuel]; [lia|].
    destruct (wf_split _ _ _ _ _ _ Hwfs) as (_ & _ & _ & _ & _ & _ & _ & Hnode).
    destruct (last_of nc None) as [ln|] eqn:Hlast.
    2:{ apply last_of_None in Hlast. by destruct Hne. }
    pose proof (last_of_elem _ _ Hlast) as Hlnin.
    assert (Hlnlt : ln < length h) by (eapply seg_bound; [exact Hseg|exact Hlnin]).
    assert (Hblt : b < length h) by (by apply lookup_lt_Some in Hnode).
    assert (Hbne : b <> ln).
    { intros ->. apply (Hdis ln Hlnin). rewrite addrs_app.
      apply elem_of_app. right. left. }
    destruct (lookup_lt_is_Some_2 h ln Hlnlt) as [nd Hnd0].
    set (h1 := h ++ [new_node w (Some ln) None]).
    set (h2 := alter (with_next (Some (length h))) ln h1).
    assert (Hfresh : length h ∉ addrs nc).
    { intros Hin. apply (seg_bound _ _ _ _ _ Hseg) in Hin. lia. }
    assert (Hwfs2 : wf h2 dsrc (so1 ++ (b, w) :: so2)).
    { apply (wf_frame h); [done|]. intros a Ha.
      assert (a <> ln) by (intros ->; by apply (Hdis ln)).
      pose proof (wf_bound _ _ _ _ Hwfs Ha).
      unfold h2, h1. rewrite list_lookup_alter_ne by done.
      by apply lookup_app_l. }
    destruct (wf_split _ _ _ _ _ _ Hwfs2) as (_ & _ & _ & _ & _ & _ & _ & Hnode2).
    destruct (IH (so1 ++ [(b, w)]) (nc ++ [(length h, w)]) h2 d dsrc fuel)
      as (h' & news & Hrun & Hseg' & Hnd' & Hit & Hfr & Hp).
    { by rewrite <- app_assoc. }
    { apply seg_app. split.
      - apply (seg_set_next_last _ _ _ None); [done..|]. by apply seg_grow.
      - simpl. split; [|done]. unfold h2, h1.
        rewrite list_lookup_alter_ne by lia.
        rewrite list_lookup_middle by done. by rewrite Hlast. }
    { rewrite addrs_app. apply list.NoDup_app. split; [done|]. split.
      - intros a Ha Hin. apply list_elem_of_singleton in Hin. by subst.
      - apply NoDup_singleton. }
    { rewrite <- app_assoc. simpl. intros a Ha Hin. rewrite addrs_app in Ha.
      apply elem_of_app in Ha as [Ha|Ha]; [by apply (Hdis a)|].
      apply list_elem_of_singleton in Ha. subst a. simpl in Hin.
      apply (wf_bound _ _ _ _ Hwfs) in Hin. lia. }
    { intros _ Habs. by apply app_eq_nil in Habs as [_ ?]. }
    { lia. }
    assert (Hl2 : length h2 = S (length h)).
    { unfold h2, h1. rewrite length_alter, length_app. simpl. lia. }
    exists h', ((length h, w) :: news).
    split; [|split; [|split; [|split; [|split]]]].
    + simpl. eapply runs_bind; [by apply (runs_rd_item h d b _ Hnode)|]. simpl.
      eapply runs_bind; [apply runs_make_shared|].
      eapply runs_bind; [apply runs_update; rewrite length_app; lia|].
      fold h1 h2.
      assert (Hln2 : h2 !! ln = Some (with_next (Some (length h)) nd)).
      { unfold h2, h1. rewrite list_lookup_alter_eq.
        rewrite lookup_app_l by done. by rewrite Hnd0. }
      eapply runs_bind; [by apply (runs_rd_next h2 d ln _ Hln2)|]. simpl.
      eapply runs_bind; [by apply (runs_rd_next h2 d b _ Hnode2)|]. simpl.
      rewrite last_of_app in Hrun. unfold last_of at 2 in Hrun. simpl in Hrun.
      by rewrite <- app_assoc in Hrun.
    + by rewrite <- app_assoc in Hseg'.
    + by rewrite <- app_assoc in Hnd'.
    + by rewrite !items_cons, Hit.
    + eapply fresh_in_cons; [done| |exact Hfr]. lia.
    + eapply (preserved_trans h h2 h' nc (nc ++ [(length h, w)])); [| |done].
      * unfold h2, h1. apply preserved_alter; [by left|]. apply preserved_grow.
      * apply grown_app_fresh. intros a Ha.
        apply list_elem_of_singleton in Ha. subst. done.
Qed.

Lemma _copy_spec h d dsrc so fuel :
  wf h dsrc so -> length so <= fuel ->
  exists h' d' cs',
    runs (_copy fuel dsrc) h d tt h' d' /\
    wf h' d' cs' /\ items cs' = items so /\
    fresh_in h cs' /\ preserved h h' [].
Proof.
  intros Hwfs Hf. pose proof Hwfs as [_ _ Hhd _ Hsz].
  destruct so as [|[b w] so].
  - exists h, empty_DList, []. split; [|split; [apply wf_empty|]].
    + unfold _copy. rewrite Hhd. simpl.
      eapply runs_bind.
      { eapply runs_bind; [apply runs_set_head|]. apply runs_ret. }
      simpl. eapply runs_bind; [destruct fuel; apply runs_ret|].
      eapply runs_bind; [apply runs_set_tail|]. simpl. rewrite Hsz.
      apply runs_set_size.
    + conj_split; try done. apply fresh_in_nil.
  - simpl in Hf.
    destruct (wf_split h dsrc [] b w so Hwfs) as (_ & _ & _ & _ & _ & _ & _ & Hnode).
    assert (Hblt : b < length h) by (by apply lookup_lt_Some in Hnode).
    set (h1 := h ++ [new_node w None None]).
    set (d1 := mkDList (Some (length h)) (_tail d) (_size d)).
    assert (Hwfs1 : wf h1 dsrc ((b, w) :: so)).
    { apply (wf_frame h); [done|]. intros a Ha.
      apply lookup_app_l. by eapply wf_bound. }
    destruct (wf_split h1 dsrc [] b w so Hwfs1) as (_ & _ & _ & _ & _ & _ & _ & Hnode1).
    destruct (copy_loop_spec so [(b, w)] [(length h, w)] h1 d1 dsrc fuel)
      as (h' & news & Hrun & Hseg' & Hnd' & Hit & Hfr & Hp).
    { done. }
    { simpl. split; [|done]. unfold h1. by rewrite list_lookup_middle. }
    { apply NoDup_singleton. }
    { intros a Ha Hin. apply list_elem_of_singleton in Ha. subst a.
      apply (wf_bound _ _ _ _ Hwfs) in Hin. simpl in Hin. lia. }
    { done. }
    { lia. }
    assert (Hl1 : length h1 = S (length h)).
    { unfold h1. rewrite length_app. simpl. lia. }
    eexists h', _, ((length h, w) :: news).
    split; [|split; [|split; [|split]]].
    + unfold _copy. rewrite Hhd. simpl.
      eapply runs_bind.
      { eapply runs_bind; [by apply (runs_rd_item h d b _ Hnode)|]. simpl.
        eapply runs_bind; [apply runs_make_shared|].
        eapply runs_bind; [apply runs_set_head|].
        eapply runs_bind; [by apply (runs_rd_next h1 _ b _ Hnode1)|].
        apply runs_ret. }
      simpl. eapply runs_bind; [exact Hrun|].
      eapply runs_bind; [apply runs_set_tail|]. apply runs_set_size.
    + split; simpl; [done|done|done|done|].
      rewrite Hsz. simpl.
      assert (length news = length so) as ->; [|done].
      by rewrite <- (items_length news), Hit, items_length.
    + by rewrite !items_cons, Hit.
    + eapply fresh_in_cons; [done| |exact Hfr]. lia.
    + destruct Hp as [Hl Hp]. split; [lia|]. intros a Ha _.
      rewrite Hp; [by apply lookup_app_l|lia|].
      intros Hin. apply list_elem_of_singleton in Hin. simpl in Hin. lia.
Qed.

(** ** Method calls on a store *)

Lemma grown_delete h (cs : list cell) i : grown h cs (delete i cs).
Proof.
  intros a Ha. left. unfold addrs in *.
  apply list_elem_of_fmap in Ha as (c & -> & Hc).
  apply list_elem_of_fmap. exists c. split; [done|].
  by eapply list_elem_of_delete_inv.
Qed.

Lemma grown_insert_at h (cs : list cell) i v :
  grown h cs (insert_at i (length h, v) cs).
Proof.
  intros a Ha. unfold insert_at in Ha. rewrite addrs_app in Ha.
  apply elem_of_app in Ha as [Ha|Ha].
  - left. unfold addrs in *. apply list_elem_of_fmap in Ha as (c & -> & Hc).
    apply list_elem_of_fmap. exists c. split; [done|].
    by eapply subseteq_take.
  - apply elem_of_cons in Ha as [->|Ha]; [right; simpl; lia|].
    left. unfold addrs in *. apply list_elem_of_fmap in Ha as (c & -> & Hc).
    apply list_elem_of_fmap. exists c. split; [done|].
    by eapply subseteq_drop.
Qed.

Lemma grown_same h (cs cs' : list cell) : addrs cs' ⊆ addrs cs -> grown h cs cs'.
Proof. intros Hsub a Ha. left. by apply Hsub. Qed.

Lemma store_inv_update s css this d cs h' d' cs' :
  store_inv s css ->
  objs s !! this = Some d -> css !! this = Some cs ->
  wf h' d' cs' -> preserved (nodes s) h' cs -> grown (nodes s) cs cs' ->
  store_inv {| nodes := h'; objs := <[this := d']> (objs s) |}
            (<[this := cs']> css).
Proof.
  intros [Hlen Hwf Hdis] Hd Hcs Hwf' Hp Hg.
  assert (Hthis : this < length css) by (by apply lookup_lt_Some in Hcs).
  assert (Hthis' : this < length (objs s)) by lia.
  split; simpl.
  - by rewrite !length_insert.
  - intros o d0 c0 Ho Hc. destruct (decide (o = this)) as [->|Hne].
    + rewrite list_lookup_insert_eq in Ho by done. rewrite list_lookup_insert_eq in Hc by done. by simplify_eq.
    + rewrite list_lookup_insert_ne in Ho by done. rewrite list_lookup_insert_ne in Hc by done.
      eapply wf_preserved; [by eapply Hwf|exact Hp|]. by apply (Hdis this o).
  - intros o1 o2 c1 c2 Hne H1 H2.
    destruct (decide (o1 = this)) as [->|Hne1];
      [|destruct (decide (o2 = this)) as [->|Hne2]].
    + rewrite list_lookup_insert_eq in H1 by done.
      rewrite list_lookup_insert_ne in H2 by done. simplify_eq.
      destruct (lookup_lt_is_Some_2 (objs s) o2) as [d2 Hd2].
      { apply lookup_lt_Some in H2. lia. }
      intros a Ha Hin. apply Hg in Ha as [Ha|Ha].
      * by apply (Hdis this o2 cs c2 Hne Hcs H2 a).
      * apply (wf_bound _ _ _ _ (Hwf _ _ _ Hd2 H2)) in Hin. lia.
    + rewrite list_lookup_insert_eq in H2 by done.
      rewrite list_lookup_insert_ne in H1 by done. simplify_eq.
      destruct (lookup_lt_is_Some_2 (objs s) o1) as [d1 Hd1].
      { apply lookup_lt_Some in H1. lia. }
      intros a Hin Ha. apply Hg in Ha as [Ha|Ha].
      * by apply (Hdis o1 this c1 cs Hne H1 Hcs a).
      * apply (wf_bound _ _ _ _ (Hwf _ _ _ Hd1 H1)) in Hin. lia.
    + rewrite list_lookup_insert_ne in H1 by done.
      rewrite list_lookup_insert_ne in H2 by done.
      exact (Hdis o1 o2 c1 c2 Hne H1 H2).
Qed.

Lemma store_inv_new s css h' d' cs' :
  store_inv s css ->
  wf h' d' cs' -> preserved (nodes s) h' [] -> fresh_in (nodes s) cs' ->
  store_inv {| nodes := h'; objs := objs s ++ [d'] |} (css ++ [cs']).
Proof.
  intros [Hlen Hwf Hdis] Hwf' Hp Hfr.
  assert (Hold : forall o c, css !! o = Some c ->
            exists d, objs s !! o = Some d /\ wf (nodes s) d c).
  { intros o c Hc. destruct (lookup_lt_is_Some_2 (objs s) o) as [d Hd].
    { apply lookup_lt_Some in Hc. lia. }
    exists d. split; [done|]. by eapply Hwf. }
  split; simpl.
  - rewrite !length_app. simpl. lia.
  - intros o d c Ho Hc. destruct (decide (o < length css)) as [Hlt|Hge].
    + rewrite lookup_app_l in Ho by lia. rewrite lookup_app_l in Hc by lia.
      eapply (wf_preserved _ _ _ []); [by eapply Hwf|exact Hp|].
      intros a Ha. inversion Ha.
    + rewrite lookup_app_r in Ho by lia. rewrite lookup_app_r in Hc by lia.
      rewrite Hlen in Hc at 1.
      destruct (o - length (objs s)) as [|k]; simpl in *; [by simplify_eq|].
      done.
  - intros o1 o2 c1 c2 Hne H1 H2.
    destruct (decide (o1 < length css)) as [Hlt1|Hge1];
      destruct (decide (o2 < length css)) as [Hlt2|Hge2].
    + rewrite lookup_app_l in H1 by lia. rewrite lookup_app_l in H2 by lia. by eapply Hdis.
    + rewrite lookup_app_l in H1 by lia. rewrite lookup_app_r in H2 by lia.
      destruct (o2 - length css) as [|k]; simpl in *; [|done]. simplify_eq.
      destruct (Hold _ _ H1) as (d1 & _ & Hwf1).
      intros a Ha Hin. apply Hfr in Hin.
      apply (wf_bound _ _ _ _ Hwf1) in Ha. lia.
    + rewrite lookup_app_l in H2 by lia. rewrite lookup_app_r in H1 by lia.
      destruct (o1 - length css) as [|k]; simpl in *; [|done]. simplify_eq.
      destruct (Hold _ _ H2) as (d2 & _ & Hwf2).
      intros a Ha Hin. apply Hfr in Ha.
      apply (wf_bound _ _ _ _ Hwf2) in Hin. lia.
    + rewrite lookup_app_r in H1 by lia. rewrite lookup_app_r in H2 by lia.
      destruct (o1 - length css) as [|k1] eqn:E1;
        destruct (o2 - length css) as [|k2] eqn:E2; simpl in *;
        try done. lia.
Qed.

Lemma store_inv_empty : store_inv empty_store [].
Proof. split; simpl; try done. Qed.

Lemma models_lookup s vss o vs :
  models s vss -> vss !! o = Some vs ->
  exists css d cs,
    store_inv s css /\ (items <$> css) = vss /\
    objs s !! o = Some d /\ css !! o = Some cs /\ items cs = vs /\
    wf (nodes s) d cs.
Proof.
  intros (css & Hinv & <-) Hvs. rewrite list_lookup_fmap in Hvs.
  destruct (css !! o) as [cs|] eqn:Hcs; [|done]. simpl in Hvs.
  destruct (lookup_lt_is_Some_2 (objs s) o) as [d Hd].
  { apply lookup_lt_Some in Hcs. by rewrite <- (inv_length _ _ Hinv). }
  exists css, d, cs. conj_split; try done; [congruence|].
  by eapply inv_wf.
Qed.

(** A method call that keeps to its own chain acts on its own list only. *)
Lemma call_models {A} (m : M A) s vss this vs (r : A) vs' :
  models s vss -> vss !! this = Some vs ->
  (forall d cs, wf (nodes s) d cs -> items cs = vs ->
     exists h' d' cs',
       runs m (nodes s) d r h' d' /\ wf h' d' cs' /\ items cs' = vs' /\
       preserved (nodes s) h' cs /\ grown (nodes s) cs cs') ->
  exists s', call this m s = Ok (r, s') /\ models s' (<[this := vs']> vss).
Proof.
  intros Hmod Hvs Hm.
  destruct (models_lookup _ _ _ _ Hmod Hvs)
    as (css & d & cs & Hinv & <- & Hd & Hcs & Hit0 & Hwf).
  destruct (Hm d cs Hwf Hit0) as (h' & d' & cs' & Hrun & Hwf' & Hit & Hp & Hg).
  eexists. split.
  - unfold call. rewrite Hd. unfold runs in Hrun. rewrite Hrun. simpl. reflexivity.
  - exists (<[this := cs']> css). split.
    + by eapply store_inv_update.
    + rewrite list_fmap_insert. by rewrite Hit.
Qed.

(** No chain is longer than the heap. *)
Lemma wf_length h d cs : wf h d cs -> length cs <= length h.
Proof.
  intros Hwf. pose proof Hwf as [Hnd _ _ _ _].
  assert (addrs cs ⊆+ seq 0 (length h)) as Hsub.
  { apply NoDup_submseteq; [done|]. intros a Ha.
    apply elem_of_seq. pose proof (wf_bound _ _ _ _ Hwf Ha). lia. }
  apply submseteq_length in Hsub. rewrite length_seq in Hsub.
  unfold addrs in Hsub. by rewrite length_fmap in Hsub.
Qed.

Lemma models_length s vss o vs :
  models s vss -> vss !! o = Some vs -> length vs <= length (nodes s).
Proof.
  intros Hmod Hvs.
  destruct (models_lookup _ _ _ _ Hmod Hvs) as (_ & d & cs & _ & _ & _ & _ & <- & Hwf).
  rewrite items_length. by eapply wf_length.
Qed.

Lemma models_objs s vss : models s vss -> length (objs s) = length vss.
Proof.
  intros (css & [Hlen _ _] & <-). by rewrite length_fmap.
Qed.

Lemma append_models s vss this vs x :
  models s vss -> vss !! this = Some vs ->
  exists s', call this (append x) s = Ok (tt, s') /\
             models s' (<[this := vs ++ [x]]> vss).
Proof.
  intros Hmod Hvs. eapply call_models; [done..|]. intros d cs Hwf Hit.
  destruct (append_spec _ _ _ x Hwf) as (h' & d' & Hrun & Hwf' & Hp).
  exists h', d', (cs ++ [(length (nodes s), x)]). conj_split; try done.
  - by rewrite items_app, Hit.
  - apply grown_app_fresh. intros a Ha.
    apply list_elem_of_singleton in Ha. by subst.
Qed.

Lemma insert_models s vss this vs position x :
  models s vss -> vss !! this = Some vs ->
  exists s', call this (insert position x) s = Ok (tt, s') /\
             models s' (<[this := insert_at (clamp (length vs) position) x vs]> vss).
Proof.
  intros Hmod Hvs. eapply call_models; [done..|]. intros d cs Hwf Hit.
  destruct (insert_spec _ _ _ position x Hwf) as (h' & d' & Hrun & Hwf' & Hp).
  eexists h', d', _. conj_split; try done.
  - rewrite <- Hit, items_length. unfold insert_at, items.
    by rewrite fmap_app, fmap_cons, fmap_take, fmap_drop.
  - apply grown_insert_at.
Qed.

Lemma pop_models s vss this vs position i :
  models s vss -> vss !! this = Some vs ->
  resolve (length vs) position = Some i ->
  exists v s', vs !! i = Some v /\
               call this (pop position) s = Ok (v, s') /\
               models s' (<[this := delete i vs]> vss).
Proof.
  intros Hmod Hvs Hr.
  destruct (models_lookup _ _ _ _ Hmod Hvs)
    as (css & d & cs & Hinv & Hcss & Hd & Hcs & Hit0 & Hwf).
  rewrite <- Hit0, items_length in Hr.
  destruct (_delete_spec _ _ _ _ _ Hwf Hr) as (v & h' & d' & Hv & Hrun & Hwf' & Hp).
  exists v. rewrite Hit0 in Hv.
  destruct (call_models (pop position) s vss this vs v (delete i vs) Hmod Hvs)
    as (s' & Hcall & Hmod'); [|by exists s'].
  intros d1 cs1 Hwf1 Hit1.
  assert (Hr1 : resolve (length cs1) position = Some i).
  { by rewrite <- (items_length cs1), Hit1, <- Hit0, items_length. }
  destruct (_delete_spec _ _ _ _ _ Hwf1 Hr1) as (v1 & h1 & d1' & Hv1 & Hrun1 & Hwf1' & Hp1).
  assert (v1 = v) as -> by (rewrite Hit1 in Hv1; congruence).
  exists h1, d1', (delete i cs1). conj_split; try done.
  - unfold items. by rewrite list_fmap_delete, <- Hit1.
  - apply grown_delete.
Qed.

Lemma pop_invalid_models s vss this vs position :
  models s vss -> vss !! this = Some vs ->
  resolve (length vs) position = None ->
  call this (pop position) s = Ok (value_init, s).
Proof.
  intros Hmod Hvs Hr.
  destruct (models_lookup _ _ _ _ Hmod Hvs)
    as (css & d & cs & Hinv & Hcss & Hd & Hcs & Hit0 & Hwf).
  rewrite <- Hit0, items_length in Hr.
  pose proof (_delete_invalid _ _ _ _ Hwf Hr) as Hrun.
  unfold call. rewrite Hd. unfold pop. unfold runs in Hrun. rewrite Hrun. simpl.
  rewrite list_insert_id by done. by destruct s.
Qed.

Lemma remove_first_absent x vs : x ∉ vs -> remove_first x vs = vs.
Proof.
  induction vs as [|v vs IH]; [done|]. rewrite not_elem_of_cons. intros [Hne Hx].
  simpl. destruct (decide (v = x)); [done|]. by rewrite IH.
Qed.

Lemma remove_first_present x l1 l2 :
  x ∉ l1 -> remove_first x (l1 ++ x :: l2) = l1 ++ l2.
Proof.
  induction l1 as [|v l1 IH]; simpl.
  - intros _. by destruct (decide (x = x)).
  - rewrite not_elem_of_cons. intros [Hne Hx].
    destruct (decide (v = x)); [done|]. by rewrite IH.
Qed.

Lemma elem_of_first_split x (vs : list ItemType) :
  x ∈ vs -> exists l1 l2, vs = l1 ++ x :: l2 /\ x ∉ l1.
Proof.
  induction vs as [|v vs IH]; [by intros ?%elem_of_nil|].
  intros Hx. destruct (decide (v = x)) as [->|Hne].
  - exists [], vs. split; [done|]. apply not_elem_of_nil.
  - apply elem_of_cons in Hx as [->|Hx]; [done|].
    destruct (IH Hx) as (l1 & l2 & -> & Hl1). exists (v :: l1), l2.
    split; [done|]. apply not_elem_of_cons. split; [congruence|done].
Qed.

Lemma remove_spec h d cs x fuel :
  wf h d cs -> length cs <= fuel ->
  exists h' d' cs',
    runs (remove fuel x) h d tt h' d' /\
    wf h' d' cs' /\ items cs' = remove_first x (items cs) /\
    preserved h h' cs /\ grown h cs cs'.
Proof.
  intros Hwf Hf. destruct (decide (x ∈ items cs)) as [Hin|Hnin].
  - destruct (elem_of_first_split _ _ Hin) as (l1 & l2 & Heq & Hl1).
    destruct (remove_present _ _ _ _ _ _ _ Hwf Heq Hl1 Hf)
      as (h' & d' & cs' & Hrun & Hwf' & Hit & Hp & Hsub).
    exists h', d', cs'. conj_split; try done.
    + by rewrite Heq, remove_first_present.
    + by apply grown_same.
  - exists h, d, cs. conj_split; try done.
    + by apply (remove_absent h d cs).
    + by rewrite remove_first_absent.
    + apply grown_refl.
Qed.

Lemma remove_models s vss this vs x fuel :
  models s vss -> vss !! this = Some vs -> length vs <= fuel ->
  exists s', call this (remove fuel x) s = Ok (tt, s') /\
             models s' (<[this := remove_first x vs]> vss).
Proof.
  intros Hmod Hvs Hf. eapply call_models; [done..|]. intros d cs Hwf Hit.
  destruct (remove_spec _ _ _ x fuel Hwf) as (h' & d' & cs' & Hrun & Hwf' & Hit' & Hp & Hg).
  { by rewrite <- items_length, Hit. }
  exists h', d', cs'. conj_split; try done. by rewrite Hit', Hit.
Qed.

Lemma clear_models s vss this vs :
  models s vss -> vss !! this = Some vs ->
  exists s', call this clear s = Ok (tt, s') /\ models s' (<[this := []]> vss).
Proof.
  intros Hmod Hvs. eapply call_models; [done..|]. intros d cs Hwf Hit.
  exists (nodes s), empty_DList, []. conj_split; try done.
  - apply wf_empty.
  - intros a Ha. inversion Ha.
Qed.

Lemma set_models s vss this vs position i v :
  models s vss -> vss !! this = Some vs ->
  resolve (length vs) position = Some i ->
  exists s', call this (set position v) s = Ok (tt, s') /\
             models s' (<[this := <[i := v]> vs]> vss).
Proof.
  intros Hmod Hvs Hr. eapply call_models; [done..|]. intros d cs Hwf Hit.
  rewrite <- Hit, items_length in Hr.
  destruct (set_spec _ _ _ _ _ v Hwf Hr) as (h' & cs' & Hrun & Hwf' & Hit' & Had & Hp).
  exists h', d, cs'. conj_split; try done.
  - by rewrite Hit', Hit.
  - apply grown_same. by rewrite Had.
Qed.

Lemma get_models s vss this vs position i :
  models s vss -> vss !! this = Some vs ->
  resolve (length vs) position = Some i ->
  exists v, vs !! i = Some v /\ call this (get position) s = Ok (v, s).
Proof.
  intros Hmod Hvs Hr.
  destruct (models_lookup _ _ _ _ Hmod Hvs)
    as (css & d & cs & Hinv & Hcss & Hd & Hcs & Hit0 & Hwf).
  rewrite <- Hit0, items_length in Hr.
  destruct (get_spec _ _ _ _ _ Hwf Hr) as (v & Hv & Hrun).
  exists v. split; [by rewrite <- Hit0|].
  unfold call. rewrite Hd. unfold runs in Hrun. rewrite Hrun. simpl.
  rewrite list_insert_id by done. by destruct s.
Qed.

Lemma preserved_weaken h h' cs : preserved h h' [] -> preserved h h' cs.
Proof.
  intros [Hl Hp]. split; [done|]. intros a Ha _. apply Hp; [done|].
  apply not_elem_of_nil.
Qed.

Lemma grown_fresh h cs cs' : fresh_in h cs' -> grown h cs cs'.
Proof. intros Hf a Ha. right. by apply Hf. Qed.

Lemma extend_self_models s vss this vs fuel :
  models s vss -> vss !! this = Some vs ->
  exists s', extend fuel this this s = Ok (tt, s') /\
             models s' (<[this := vs ++ vs]> vss).
Proof.
  intros Hmod Hvs. unfold extend. destruct (decide (this = this)); [|done].
  eapply call_models; [done..|]. intros d cs Hwf Hit.
  destruct (extend_self_spec _ _ _ Hwf) as (h' & d' & news & Hrun & Hwf' & Hit' & Hp & Hfr).
  exists h', d', (cs ++ news). conj_split; try done.
  - by rewrite items_app, Hit', Hit.
  - by apply grown_app_fresh.
Qed.

Lemma extend_other_models s vss this other vs ws fuel :
  models s vss -> vss !! this = Some vs -> vss !! other = Some ws ->
  other <> this -> length ws <= fuel ->
  exists s', extend fuel this other s = Ok (tt, s') /\
             models s' (<[this := vs ++ ws]> vss).
Proof.
  intros (css & Hinv & <-) Hvs Hws Hne Hf.
  rewrite list_lookup_fmap in Hvs, Hws.
  destruct (css !! this) as [cs|] eqn:Hcs; [|done].
  destruct (css !! other) as [co|] eqn:Hco; [|done].
  simpl in Hvs, Hws. simplify_eq.
  destruct (lookup_lt_is_Some_2 (objs s) this) as [d Hd].
  { apply lookup_lt_Some in Hcs. by rewrite <- (inv_length _ _ Hinv). }
  destruct (lookup_lt_is_Some_2 (objs s) other) as [dother Hdo].
  { apply lookup_lt_Some in Hco. by rewrite <- (inv_length _ _ Hinv). }
  pose proof (inv_wf _ _ Hinv _ _ _ Hd Hcs) as Hwf.
  pose proof (inv_wf _ _ Hinv _ _ _ Hdo Hco) as Hwfo.
  assert (Hdis : disjoint cs co).
  { eapply (inv_disjoint _ _ Hinv this other); [congruence|done..]. }
  destruct (extend_other_spec _ _ _ _ _ fuel Hwf Hwfo Hdis)
    as (h' & d' & news & Hrun & Hwf' & Hit & Hp & Hfr).
  { by rewrite items_length in Hf. }
  eexists. split.
  - unfold extend. destruct (decide (other = this)); [done|].
    rewrite Hdo. unfold call. rewrite Hd. unfold runs in Hrun. rewrite Hrun.
    simpl. reflexivity.
  - exists (<[this := cs ++ news]> css). split.
    + eapply store_inv_update; [done..|]. by apply grown_app_fresh.
    + by rewrite list_fmap_insert, items_app, Hit.
Qed.

Lemma declare_models s vss :
  models s vss ->
  (declare s).1 = length vss /\ models (declare s).2 (vss ++ [[]]).
Proof.
  intros Hmod. pose proof (models_objs _ _ Hmod) as Hlen.
  destruct Hmod as (css & Hinv & <-). split; [done|].
  exists (css ++ [[]]). split; [|by rewrite fmap_app].
  apply store_inv_new; [done|apply wf_empty|apply preserved_refl|apply fresh_in_nil].
Qed.

Lemma copy_construct_models s vss source vs fuel garbage :
  models s vss -> vss !! source = Some vs -> length vs <= fuel ->
  exists s', copy_construct fuel garbage source s = Ok (length vss, s') /\
             models s' (vss ++ [vs]).
Proof.
  intros Hmod Hvs Hf. pose proof (models_objs _ _ Hmod) as Hlen.
  destruct (models_lookup _ _ _ _ Hmod Hvs)
    as (css & dsrc & so & Hinv & Hcss & Hd & Hcs & Hit0 & Hwfs).
  destruct (_copy_spec (nodes s) (mkDList None None garbage) dsrc so fuel Hwfs)
    as (h' & d' & cs' & Hrun & Hwf' & Hit & Hfr & Hp).
  { by rewrite <- items_length, Hit0. }
  eexists. split.
  - unfold copy_construct. rewrite Hd. unfold runs in Hrun. rewrite Hrun.
    simpl. rewrite Hlen. reflexivity.
  - exists (css ++ [cs']). split.
    + by apply store_inv_new.
    + rewrite fmap_app. simpl. by rewrite Hit, Hit0, Hcss.
Qed.

Lemma assign_models s vss this source vs0 vs fuel :
  models s vss -> vss !! this = Some vs0 -> vss !! source = Some vs ->
  this <> source -> length vs <= fuel ->
  exists s', assign fuel this source s = Ok (tt, s') /\
             models s' (<[this := vs]> vss).
Proof.
  intros Hmod Hvs0 Hvs Hne Hf.
  destruct (models_lookup _ _ _ _ Hmod Hvs)
    as (css & dsrc & so & Hinv & Hcss & Hd & Hcs & Hit0 & Hwfs).
  unfold assign. destruct (decide (this = source)); [done|]. rewrite Hd.
  eapply call_models; [done..|]. intros d cs Hwf Hit.
  destruct (_copy_spec (nodes s) empty_DList dsrc so fuel Hwfs)
    as (h' & d' & cs' & Hrun & Hwf' & Hit' & Hfr & Hp).
  { by rewrite <- items_length, Hit0. }
  exists h', d', cs'. conj_split.
  - eapply runs_bind; [apply clear_spec|]. done.
  - done.
  - by rewrite Hit'.
  - by apply preserved_weaken.
  - by apply grown_fresh.
Qed.

Lemma assign_self s vss this vs fuel :
  models s vss -> vss !! this = Some vs ->
  assign fuel this this s = Ok (tt, s).
Proof.
  intros Hmod Hvs.
  destruct (models_lookup _ _ _ _ Hmod Hvs) as (_ & d & _ & _ & _ & Hd & _).
  unfold assign. destruct (decide (this = this)); [|done]. by rewrite Hd.
Qed.

(** ** The invariant in terms of the links *)

Lemma nth_next_wf h d cs k : forall i,
  wf h d cs -> i + k <= length cs ->
  nth_next h k (addr_at cs i) = Some (addr_at cs (i + k)).
Proof.
  induction k as [|k IH]; intros i Hwf Hi; simpl.
  - by rewrite Nat.add_0_r.
  - destruct (addr_at_lt cs i) as [a Ha]; [lia|].
    destruct (wf_node_at _ _ _ _ _ Hwf Ha) as (v & _ & Hn).
    rewrite Ha, Hn. simpl. rewrite IH by (done || lia). f_equal. f_equal. lia.
Qed.

Lemma traverse_next_wf h d cs fuel : forall i,
  wf h d cs -> length cs - i <= fuel ->
  traverse _next h fuel (addr_at cs i) = Some (drop i (addrs cs)).
Proof.
  induction fuel as [|fuel IH]; intros i Hwf Hi.
  - rewrite addr_at_ge by lia. rewrite drop_ge; [done|].
    unfold addrs. rewrite length_fmap. lia.
  - destruct (decide (i < length cs)) as [Hlt|Hge].
    + destruct (addr_at_lt cs i Hlt) as [a Ha].
      destruct (wf_node_at _ _ _ _ _ Hwf Ha) as (v & Hc & Hn).
      rewrite Ha. simpl. rewrite Hn. simpl. rewrite IH by (done || lia).
      simpl. f_equal. symmetry. apply drop_S.
      unfold addrs. by rewrite list_lookup_fmap, Hc.
    + rewrite addr_at_ge by lia. rewrite drop_ge; [done|].
      unfold addrs. rewrite length_fmap. lia.
Qed.

Lemma traverse_prev_wf h d cs i : forall fuel,
  wf h d cs -> i <= length cs -> i <= fuel ->
  traverse _prev h fuel (prev_at cs i) = Some (reverse (take i (addrs cs))).
Proof.
  induction i as [|i IH]; intros fuel Hwf Hi Hf.
  - rewrite take_0. by destruct fuel.
  - destruct fuel as [|fuel]; [lia|].
    destruct (addr_at_lt cs i) as [a Ha]; [lia|].
    destruct (wf_node_at _ _ _ _ _ Hwf Ha) as (v & Hc & Hn).
    simpl. rewrite Ha. simpl. rewrite Hn. simpl.
    rewrite IH by (done || lia). simpl. f_equal.
    assert (Hai : addrs cs !! i = Some a).
    { unfold addrs. by rewrite list_lookup_fmap, Hc. }
    by rewrite (take_S_r _ _ _ Hai), reverse_app.
Qed.

Lemma addr_at_inj cs i j a :
  NoDup (addrs cs) -> addr_at cs i = Some a -> addr_at cs j = Some a -> i = j.
Proof.
  intros Hnd Hi Hj. unfold addr_at in *.
  eapply NoDup_lookup; [exact Hnd| |]; unfold addrs;
    rewrite list_lookup_fmap; [exact Hi|exact Hj].
Qed.

Lemma links_consistent_wf h d cs : wf h d cs -> links_consistent h (addrs cs).
Proof.
  intros Hwf a b na nb Ha Hb Hna Hnb. pose proof Hwf as [Hnd _ _ _ _].
  apply list_elem_of_lookup in Ha as [i Hi], Hb as [j Hj].
  unfold addrs in Hi, Hj. rewrite list_lookup_fmap in Hi, Hj.
  assert (Hai : addr_at cs i = Some a) by done.
  assert (Hbj : addr_at cs j = Some b) by done.
  destruct (wf_node_at _ _ _ _ _ Hwf Hai) as (v & _ & Hn1).
  destruct (wf_node_at _ _ _ _ _ Hwf Hbj) as (w & _ & Hn2).
  rewrite Hna in Hn1. rewrite Hnb in Hn2. simplify_eq. simpl. split.
  - intros Hnext.
    assert (S i = j) as <- by (by eapply addr_at_inj).
    done.
  - intros Hprev. destruct j as [|j]; [done|]. simpl in Hprev.
    assert (j = i) as -> by (by eapply addr_at_inj).
    done.
Qed.

Lemma wf_invariant h d cs : wf h d cs -> DList_invariant h d.
Proof.
  intros Hwf. pose proof Hwf as [Hnd Hseg Hhd Htl Hsz].
  unfold DList_invariant. rewrite Hsz, Nat2Z.id, Hhd, Htl.
  split; [lia|]. split; [|split; [|split; [|split]]].
  - destruct cs; simpl; split; try done; lia.
  - destruct cs as [|c cs _] using rev_ind; [done|].
    rewrite last_of_app, first_of_app. by destruct cs.
  - rewrite addr_at_first.
    rewrite (nth_next_wf h d cs (length cs) 0 Hwf) by lia.
    simpl. by rewrite addr_at_ge.
  - intros Hne. rewrite addr_at_first.
    rewrite (nth_next_wf h d cs (length cs - 1) 0 Hwf) by lia.
    simpl. rewrite addr_at_last. destruct (length cs); [done|].
    simpl. by rewrite Nat.sub_0_r.
  - exists (addrs cs). split; [|split; [|split]].
    + rewrite addr_at_first. rewrite (traverse_next_wf h d cs) by (done || lia).
      by rewrite drop_0.
    + rewrite addr_at_last. rewrite (traverse_prev_wf h d cs) by (done || lia).
      rewrite take_ge; [done|]. unfold addrs. by rewrite length_fmap.
    + unfold addrs. rewrite length_fmap, <- Hsz. apply runs_get_size.
    + by eapply links_consistent_wf.
Qed.

(** ** Client programs *)

Lemma call_invalid {A} (m : M A) s vss this :
  models s vss -> vss !! this = None -> call this m s = Fault.
Proof.
  intros Hmod Hnone. unfold call.
  rewrite (lookup_ge_None_2 (objs s) this); [done|].
  rewrite (models_objs _ _ Hmod). by apply lookup_ge_None.
Qed.

Lemma set_fault h d cs position v :
  wf h d cs -> resolve (length cs) position = None ->
  set position v {| mem := h; self := d |} = Fault.
Proof.
  intros Hwf Hr. unfold set, bind.
  rewrite (_find_spec h d cs position Hwf), Hr. done.
Qed.

Lemma step_models o s s' vss :
  models s vss -> step o s = Ok s' -> models s' (abstract_step o vss).
Proof.
  intros Hmod Hstep. destruct o; simpl in Hstep; simpl; unfold list_of.
  - (* declaration *)
    simplify_eq. by apply declare_models.
  - (* copy construction *)
    destruct (vss !! source) as [vs|] eqn:Hvs.
    + destruct (copy_construct_models s vss source vs (length (nodes s)) garbage Hmod Hvs)
        as (s1 & Hrun & Hmod'); [by eapply models_length|].
      rewrite Hrun in Hstep. simpl in Hstep. simplify_eq. by repeat (simpl; rewrite ?Hvs, ?Hws, ?Hr).
    + unfold copy_construct in Hstep.
      rewrite (lookup_ge_None_2 (objs s) source) in Hstep; [done|].
      rewrite (models_objs _ _ Hmod). by apply lookup_ge_None.
  - (* assignment *)
    destruct (decide (this = source)) as [->|Hne].
    + unfold assign in Hstep. destruct (decide (source = source)); [|done].
      destruct (vss !! source) as [vs|] eqn:Hvs.
      * destruct (objs s !! source); simpl in Hstep; [|done]. simplify_eq.
        simpl. by rewrite list_insert_id.
      * rewrite (lookup_ge_None_2 (objs s) source) in Hstep; [done|].
        rewrite (models_objs _ _ Hmod). by apply lookup_ge_None.
    + destruct (vss !! source) as [vs|] eqn:Hvs.
      * destruct (vss !! this) as [vs0|] eqn:Hvs0.
        -- destruct (assign_models s vss this source vs0 vs (length (nodes s)) Hmod Hvs0 Hvs Hne)
             as (s1 & Hrun & Hmod'); [by eapply models_length|].
           rewrite Hrun in Hstep. simpl in Hstep. simplify_eq. by repeat (simpl; rewrite ?Hvs, ?Hws, ?Hr).
        -- unfold assign in Hstep. destruct (decide (this = source)); [done|].
           destruct (objs s !! source); [|done].
           by rewrite (call_invalid _ s vss this Hmod Hvs0) in Hstep.
      * unfold assign in Hstep. destruct (decide (this = source)); [done|].
        rewrite (lookup_ge_None_2 (objs s) source) in Hstep; [done|].
        rewrite (models_objs _ _ Hmod). by apply lookup_ge_None.
  - (* clear *)
    destruct (vss !! this) as [vs|] eqn:Hvs.
    + destruct (clear_models s vss this vs Hmod Hvs) as (s1 & Hrun & Hmod').
      rewrite Hrun in Hstep. simpl in Hstep. simplify_eq. by repeat (simpl; rewrite ?Hvs, ?Hws, ?Hr).
    + by rewrite (call_invalid _ s vss this Hmod Hvs) in Hstep.
  - (* append *)
    destruct (vss !! this) as [vs|] eqn:Hvs.
    + destruct (append_models s vss this vs x Hmod Hvs) as (s1 & Hrun & Hmod').
      rewrite Hrun in Hstep. simpl in Hstep. simplify_eq. by repeat (simpl; rewrite ?Hvs, ?Hws, ?Hr).
    + by rewrite (call_invalid _ s vss this Hmod Hvs) in Hstep.
  - (* insert *)
    destruct (vss !! this) as [vs|] eqn:Hvs.
    + destruct (insert_models s vss this vs position x Hmod Hvs) as (s1 & Hrun & Hmod').
      rewrite Hrun in Hstep. simpl in Hstep. simplify_eq. by repeat (simpl; rewrite ?Hvs, ?Hws, ?Hr).
    + by rewrite (call_invalid _ s vss this Hmod Hvs) in Hstep.
  - (* pop *)
    destruct (vss !! this) as [vs|] eqn:Hvs.
    + destruct (resolve (length vs) position) as [i|] eqn:Hr.
      * destruct (pop_models s vss this vs position i Hmod Hvs Hr)
          as (v & s1 & _ & Hrun & Hmod').
        rewrite Hrun in Hstep. simpl in Hstep. simplify_eq. by repeat (simpl; rewrite ?Hvs, ?Hws, ?Hr).
      * rewrite (pop_invalid_models s vss this vs position Hmod Hvs Hr) in Hstep.
        simpl in Hstep. simplify_eq. by repeat (simpl; rewrite ?Hvs, ?Hws, ?Hr).
    + by rewrite (call_invalid _ s vss this Hmod Hvs) in Hstep.
  - (* remove *)
    destruct (vss !! this) as [vs|] eqn:Hvs.
    + destruct (remove_models s vss this vs x (length (nodes s)) Hmod Hvs)
        as (s1 & Hrun & Hmod'); [by eapply models_length|].
      rewrite Hrun in Hstep. simpl in Hstep. simplify_eq. by repeat (simpl; rewrite ?Hvs, ?Hws, ?Hr).
    + by rewrite (call_invalid _ s vss this Hmod Hvs) in Hstep.
  - (* extend *)
    destruct (vss !! this) as [vs|] eqn:Hvs.
    + destruct (decide (otherList = this)) as [->|Hne].
      * destruct (extend_self_models s vss this vs (length (nodes s)) Hmod Hvs)
          as (s1 & Hrun & Hmod').
        rewrite Hrun in Hstep. simpl in Hstep. simplify_eq. by repeat (simpl; rewrite ?Hvs, ?Hws, ?Hr).
      * destruct (vss !! otherList) as [ws|] eqn:Hws.
        -- destruct (extend_other_models s vss this otherList vs ws (length (nodes s))
                       Hmod Hvs Hws Hne) as (s1 & Hrun & Hmod');
             [by eapply models_length|].
           rewrite Hrun in Hstep. simpl in Hstep. simplify_eq. by repeat (simpl; rewrite ?Hvs, ?Hws, ?Hr).
        -- unfold extend in Hstep. destruct (decide (otherList = this)); [done|].
           rewrite (lookup_ge_None_2 (objs s) otherList) in Hstep; [done|].
           rewrite (models_objs _ _ Hmod). by apply lookup_ge_None.
    + unfold extend in Hstep. destruct (decide (otherList = this)).
      * by rewrite (call_invalid _ s vss this Hmod Hvs) in Hstep.
      * destruct (objs s !! otherList); [|done].
        by rewrite (call_invalid _ s vss this Hmod Hvs) in Hstep.
  - (* writing an element *)
    destruct (vss !! this) as [vs|] eqn:Hvs.
    + destruct (resolve (length vs) position) as [i|] eqn:Hr.
      * destruct (set_models s vss this vs position i v Hmod Hvs Hr)
          as (s1 & Hrun & Hmod').
        rewrite Hrun in Hstep. simpl in Hstep. simplify_eq. by repeat (simpl; rewrite ?Hvs, ?Hws, ?Hr).
      * destruct (models_lookup _ _ _ _ Hmod Hvs)
          as (css & d & cs & Hinv & Hcss & Hd & Hcs & Hit0 & Hwf).
        rewrite <- Hit0, items_length in Hr.
        unfold call in Hstep. rewrite Hd in Hstep.
        by rewrite (set_fault _ _ _ _ v Hwf Hr) in Hstep.
    + by rewrite (call_invalid _ s vss this Hmod Hvs) in Hstep.
Qed.

Lemma run_models ops : forall s s' vss,
  models s vss -> run ops s = Ok s' ->
  models s' (foldl (fun vss o => abstract_step o vss) vss ops).
Proof.
  induction ops as [|o ops IH]; intros s s' vss Hmod Hrun; simpl in *.
  - by simplify_eq.
  - destruct (step o s) as [s1| |] eqn:Hstep; [|done..].
    eapply IH; [|done]. by eapply step_models.
Qed.

Lemma models_empty : models empty_store [].
Proof. exists []. split; [apply store_inv_empty|done]. Qed.

Lemma run_reachable ops : forall s s',
  reachable s -> run ops s = Ok s' -> reachable s'.
Proof.
  induction ops as [|o ops IH]; intros s s' Hre Hrun; simpl in *.
  - by simplify_eq.
  - destruct (step o s) as [s1| |] eqn:Hstep; [|done..].
    eapply IH; [|done]. by eapply reachable_step.
Qed.

Lemma reachable_models s : reachable s -> exists vss, models s vss.
Proof.
  induction 1 as [|s o s' _ [vss Hmod] Hstep].
  - exists []. apply models_empty.
  - eexists. by eapply step_models.
Qed.

(** ** Lists built by appends *)

Lemma append_all_spec vs : forall h d cs,
  wf h d cs ->
  exists h' d' news,
    runs (append_all vs) h d tt h' d' /\
    wf h' d' (cs ++ news) /\ items news = vs.
Proof.
  induction vs as [|x vs IH]; intros h d cs Hwf.
  - exists h, d, []. rewrite app_nil_r. by conj_split.
  - destruct (append_spec _ _ _ x Hwf) as (h1 & d1 & Hrun1 & Hwf1 & _).
    destruct (IH _ _ _ Hwf1) as (h' & d' & news & Hrun & Hwf' & Hit).
    exists h', d', ((length h, x) :: news). conj_split.
    + simpl. eapply runs_bind; [exact Hrun1|done].
    + by rewrite <- app_assoc in Hwf'.
    + by rewrite items_cons, Hit.
Qed.

Lemma represents_length h d vs :
  represents h d vs -> _size d = Z.of_nat (length vs).
Proof. intros (cs & [] & <-). by rewrite items_length. Qed.

Lemma resolve_normalize n position :
  resolve n position =
  let p := if (position <? 0)%Z then (position + Z.of_nat n)%Z else position in
  if ((0 <=? p) && (p <? Z.of_nat n))%Z then Some (Z.to_nat p) else None.
Proof.
  unfold resolve. cbv zeta.
  destruct (Z.ltb_spec position 0);
    destruct (Z.leb_spec 0 position);
    destruct (Z.ltb_spec position (Z.of_nat n));
    destruct (Z.leb_spec (- Z.of_nat n) position);
    destruct (Z.leb_spec 0 (position + Z.of_nat n));
    destruct (Z.ltb_spec (position + Z.of_nat n) (Z.of_nat n));
    simpl; try lia; try done; f_equal; lia.
Qed.

(** ** expect_contents *)

Lemma expect_from_spec h d cs l2 : forall l1,
  wf h d cs -> items cs = l1 ++ l2 ->
  runs (expect_from (length l1) l2) h d true h d.
Proof.
  induction l2 as [|x l2 IH]; intros l1 Hwf Hit; [apply runs_ret|].
  assert (Hlen : length cs = length l1 + S (length l2)).
  { by rewrite <- items_length, Hit, length_app. }
  destruct (get_spec h d cs (Z.of_nat (length l1)) (length l1) Hwf)
    as (v & Hv & Hrun); [apply resolve_nonneg; lia|].
  rewrite Hit, list_lookup_middle in Hv by done. injection Hv as <-.
  simpl. eapply runs_bind; [exact Hrun|]. simpl.
  destruct (decide (x = x)); [|done].
  specialize (IH (l1 ++ [x]) Hwf). rewrite length_app in IH. simpl in IH.
  replace (S (length l1)) with (length l1 + 1) by lia. apply IH.
  by rewrite <- app_assoc.
Qed.

(** A list that holds [vs] passes [expect_contents vs]. *)
Lemma expect_contents_spec h d vs :
  represents h d vs -> runs (expect_contents vs) h d true h d.
Proof.
  intros (cs & Hwf & Hit). pose proof Hwf as [_ _ _ _ Hsz].
  unfold expect_contents, length_. eapply runs_bind; [apply runs_get_size|].
  rewrite Hsz, <- Hit, items_length, Z.eqb_refl. rewrite Hit.
  by apply (expect_from_spec h d cs vs []).
Qed.

(** ** The properties of the specification *)

(** C1. Structural invariant.  In every store reachable from the empty
    one by declarations, copy constructions, assignments and calls of
    [append], [insert], [pop], [remove], [clear], [extend] (and writes
    through [operator[]]), every list satisfies [DList_invariant]: the size
    is zero iff the head is null iff the tail is null; following [_next]
    from the head exactly [_size] times reaches null, and [_size - 1] times
    reaches the tail; the forward traversal from the head and the backward
    traversal from the tail visit the same [_size] nodes, in opposite
    orders; and for nodes [a], [b] of the list, [a]'s next is [b] iff
    [b]'s prev is [a]. *)
Theorem reachable_invariant s o d :
  reachable s -> objs s !! o = Some d -> DList_invariant (nodes s) d.
Proof.
  intros Hre Hd. destruct (reachable_models s Hre) as (vss & css & Hinv & _).
  destruct (lookup_lt_is_Some_2 css o) as [cs Hcs].
  { rewrite (inv_length _ _ Hinv). by apply lookup_lt_Some in Hd. }
  eapply wf_invariant. by eapply inv_wf.
Qed.

(** C2. Indexing round trip.  After appending [vs] to an empty list, for
    every [i < length vs] both [operator[](i)] and [operator[](i - n)],
    [n] the number of elements, return the [i]-th appended value. *)
Theorem index_round_trip (h0 : heap) vs i :
  i < length vs ->
  exists h d v,
    runs (append_all vs) h0 empty_DList tt h d /\
    vs !! i = Some v /\
    runs (get (Z.of_nat i)) h d v h d /\
    runs (get (Z.of_nat i - Z.of_nat (length vs))) h d v h d.
Proof.
  intros Hi.
  destruct (append_all_spec vs h0 empty_DList [] (wf_empty h0))
    as (h & d & cs & Hrun & Hwf & Hit).
  simpl in Hwf. assert (Hlen : length cs = length vs).
  { by rewrite <- Hit, items_length. }
  destruct (get_spec h d cs (Z.of_nat i) i Hwf) as (v & Hv & Hget1).
  { apply resolve_nonneg. lia. }
  destruct (get_spec h d cs (Z.of_nat i - Z.of_nat (length vs)) i Hwf)
    as (v' & Hv' & Hget2).
  { rewrite <- Hlen. apply resolve_neg. lia. }
  rewrite Hit in Hv, Hv'. assert (v' = v) as -> by congruence.
  by exists h, d, v.
Qed.

(** C3. [insert(position, x)] never fails: on a list holding [vs] it
    yields the list with [x] at the clamped position, the other elements
    in their order, and the size one larger.  A position [_size + k] with
    [k > 0] makes it behave as [append(x)], a position below [- _size] as
    [insert(0, x)]. *)
Theorem insert_correct h d vs position x :
  represents h d vs ->
  (exists h' d',
     runs (insert position x) h d tt h' d' /\
     represents h' d' (insert_at (clamp (length vs) position) x vs) /\
     _size d' = (_size d + 1)%Z) /\
  (forall k, (0 < k)%Z ->
     insert (_size d + k) x {| mem := h; self := d |}
     = append x {| mem := h; self := d |}) /\
  (forall position', (position' < - _size d)%Z ->
     insert position' x {| mem := h; self := d |}
     = insert 0 x {| mem := h; self := d |}).
Proof.
  intros (cs & Hwf & Hit). pose proof Hwf as [_ _ _ _ Hsz].
  split; [|split].
  - destruct (insert_spec h d cs position x Hwf) as (h' & d' & Hrun & Hwf' & _).
    exists h', d'. split; [done|].
    pose proof Hwf' as [_ _ _ _ Hsz'].
    split.
    + exists (insert_at (clamp (length cs) position) (length h, x) cs).
      split; [done|]. rewrite <- Hit, items_length. unfold insert_at, items.
      by rewrite fmap_app, fmap_cons, fmap_take, fmap_drop.
    + rewrite Hsz', Hsz. unfold insert_at.
      rewrite length_app. simpl. rewrite length_take, length_drop.
      pose proof (clamp_le (length cs) position). lia.
  - intros k Hk. unfold insert. unfold bind at 1. unfold get_size.
    cbv beta iota zeta. simpl (self _).
    destruct (Z.ltb_spec (_size d + k) 0); [lia|].
    destruct (Z.ltb_spec (_size d + k) 0); [lia|].
    destruct (Z.gtb_spec (_size d + k) (_size d)); [|lia].
    by rewrite Z.eqb_refl, orb_true_r.
  - intros position' Hp. unfold insert. unfold bind at 1 3. unfold get_size.
    cbv beta iota zeta. simpl (self _).
    destruct (Z.ltb_spec position' 0); [|lia].
    destruct (Z.ltb_spec (position' + _size d) 0); [|lia].
    destruct (Z.ltb_spec 0 0); [lia|]. done.
Qed.

(** C4. [pop(position)]: with [p] the position after adding the size to
    a negative one, if [0 <= p < _size] the element at [p] is removed and
    returned; otherwise a default-constructed element is returned and
    neither the list nor the heap changes.  [pop()] is [pop(-1)], which on
    a non-empty list removes and returns the last element. *)
Theorem pop_correct h d vs position :
  represents h d vs ->
  let p := if (position <? 0)%Z then (position + _size d)%Z else position in
  ((0 <= p < _size d)%Z ->
     exists v h' d',
       vs !! Z.to_nat p = Some v /\
       runs (pop position) h d v h' d' /\
       represents h' d' (delete (Z.to_nat p) vs) /\
       _size d' = (_size d - 1)%Z) /\
  (~ (0 <= p < _size d)%Z -> runs (pop position) h d value_init h d) /\
  (forall v, list.last vs = Some v ->
     exists h' d',
       runs pop_default h d v h' d' /\
       represents h' d' (take (length vs - 1) vs)).
Proof.
  intros (cs & Hwf & Hit). pose proof Hwf as [_ _ _ _ Hsz].
  assert (Hlen : length cs = length vs) by (by rewrite <- Hit, items_length).
  intros p. subst p.
  pose proof (resolve_normalize (length cs) position) as Hres.
  cbv zeta in Hres. rewrite <- Hsz in Hres.
  assert (Hpop : forall q i, resolve (length cs) q = Some i ->
            exists v h' d', vs !! i = Some v /\ runs (pop q) h d v h' d' /\
              represents h' d' (delete i vs) /\ _size d' = (_size d - 1)%Z).
  { intros q i Hr. destruct (resolve_Some _ _ _ Hr) as [Hi _].
    destruct (_delete_spec h d cs q i Hwf Hr)
      as (v & h' & d' & Hv & Hrun & Hwf' & _).
    exists v, h', d'. rewrite Hit in Hv. conj_split; try done.
    - exists (delete i cs). split; [done|].
      unfold items. by rewrite list_fmap_delete, <- Hit.
    - destruct Hwf' as [_ _ _ _ Hsz']. rewrite Hsz', Hsz.
      rewrite length_delete by (by apply lookup_lt_is_Some_2). lia. }
  split; [|split].
  - intros Hin. apply Hpop. rewrite Hres.
    destruct (Z.leb_spec 0 (if (position <? 0)%Z then (position + _size d)%Z else position));
      [|lia].
    destruct (Z.ltb_spec (if (position <? 0)%Z then (position + _size d)%Z else position)
                (_size d)); [done|lia].
  - intros Hout. apply (_delete_invalid h d cs position Hwf). rewrite Hres.
    destruct (Z.leb_spec 0 (if (position <? 0)%Z then (position + _size d)%Z else position));
      [|done].
    destruct (Z.ltb_spec (if (position <? 0)%Z then (position + _size d)%Z else position)
                (_size d)); [lia|done].
  - intros v Hlast.
    assert (Hn : length vs <> 0) by (by destruct vs).
    assert (Hr : resolve (length cs) (-1) = Some (length vs - 1)).
    { replace (-1)%Z with (Z.of_nat (length vs - 1) - Z.of_nat (length cs))%Z by lia.
      apply resolve_neg. lia. }
    destruct (Hpop (-1)%Z _ Hr) as (v' & h' & d' & Hv & Hrun & Hrep & _).
    assert (v' = v) as ->.
    { rewrite last_lookup in Hlast.
      replace (Init.Nat.pred (length vs)) with (length vs - 1) in Hlast by lia.
      congruence. }
    exists h', d'. split; [done|].
    rewrite delete_take_drop in Hrep.
    replace (S (length vs - 1)) with (length vs) in Hrep by lia.
    by rewrite drop_all, app_nil_r in Hrep.
Qed.

(** C5. [remove(x)]: if [x] does not occur, nothing changes; if the list
    is [l1 ++ x :: l2] with [x] not in [l1], the result holds [l1 ++ l2]
    and the size is one smaller. *)
Theorem remove_correct h d vs x fuel :
  represents h d vs -> length vs <= fuel ->
  (x ∉ vs -> runs (remove fuel x) h d tt h d) /\
  (forall l1 l2, vs = l1 ++ x :: l2 -> x ∉ l1 ->
     exists h' d',
       runs (remove fuel x) h d tt h' d' /\
       represents h' d' (l1 ++ l2) /\
       _size d' = (_size d - 1)%Z).
Proof.
  intros (cs & Hwf & Hit) Hf. pose proof Hwf as [_ _ _ _ Hsz].
  assert (Hlen : length cs = length vs) by (by rewrite <- Hit, items_length).
  split.
  - intros Hx. apply (remove_absent h d cs); [done|by rewrite Hit|lia].
  - intros l1 l2 Hvs Hx.
    destruct (remove_present h d cs x l1 l2 fuel Hwf)
      as (h' & d' & cs' & Hrun & Hwf' & Hit' & _); [congruence|done|lia|].
    exists h', d'. conj_split; [done|by exists cs'|].
    destruct Hwf' as [_ _ _ _ Hsz']. rewrite Hsz', Hsz, Hlen, Hvs.
    rewrite <- (items_length cs'), Hit', !length_app. simpl. lia.
Qed.

(** C6. [this.extend(other)]: the elements of [other] are appended, in
    order, to [this]; every other list of the store, [other] included
    when it is another object, keeps its contents; when [other] is [this]
    the list ends up holding its former contents twice. *)
Theorem extend_correct s vss this other vs ws fuel :
  models s vss -> vss !! this = Some vs -> vss !! other = Some ws ->
  length ws <= fuel ->
  exists s',
    extend fuel this other s = Ok (tt, s') /\
    models s' (<[this := vs ++ ws]> vss) /\
    (other <> this -> (<[this := vs ++ ws]> vss) !! other = Some ws) /\
    (other = this -> (<[this := vs ++ ws]> vss) !! this = Some (vs ++ vs)).
Proof.
  intros Hmod Hvs Hws Hf.
  assert (Hthis : this < length vss) by (by apply lookup_lt_Some in Hvs).
  destruct (decide (other = this)) as [->|Hne].
  - assert (ws = vs) as -> by congruence.
    destruct (extend_self_models s vss this vs fuel Hmod Hvs) as (s' & Hrun & Hmod').
    exists s'. conj_split; try done. intros _.
    by rewrite list_lookup_insert_eq.
  - destruct (extend_other_models s vss this other vs ws fuel Hmod Hvs Hws Hne Hf)
      as (s' & Hrun & Hmod').
    exists s'. conj_split; try done. intros _.
    by rewrite list_lookup_insert_ne.
Qed.

(** C7. Copies.  Copy construction from [source] yields a new list with
    the same elements in the same order, copy assignment makes [this]
    hold them, and every other list is left as it was.  Afterwards a
    write through [operator[]] into the source leaves the copy unchanged,
    and a write into the copy leaves the source unchanged.  Assigning a
    list to itself changes nothing. *)
Theorem copy_correct s vss source vs fuel garbage :
  models s vss -> vss !! source = Some vs -> length vs <= fuel ->
  (exists s',
     copy_construct fuel garbage source s = Ok (length vss, s') /\
     models s' (vss ++ [vs]) /\
     forall position i v, resolve (length vs) position = Some i ->
       (exists s'', call source (set position v) s' = Ok (tt, s'') /\
                    models s'' (<[source := <[i := v]> vs]> vss ++ [vs])) /\
       (exists s'', call (length vss) (set position v) s' = Ok (tt, s'') /\
                    models s'' (vss ++ [<[i := v]> vs]))) /\
  (forall this vs0, vss !! this = Some vs0 -> this <> source ->
     exists s',
       assign fuel this source s = Ok (tt, s') /\
       models s' (<[this := vs]> vss) /\
       forall position i v, resolve (length vs) position = Some i ->
         (exists s'', call source (set position v) s' = Ok (tt, s'') /\
                      models s'' (<[source := <[i := v]> vs]> (<[this := vs]> vss))) /\
         (exists s'', call this (set position v) s' = Ok (tt, s'') /\
                      models s'' (<[this := <[i := v]> vs]> vss))) /\
  assign fuel source source s = Ok (tt, s).
Proof.
  intros Hmod Hvs Hf.
  assert (Hsrc : source < length vss) by (by apply lookup_lt_Some in Hvs).
  split; [|split].
  - destruct (copy_construct_models s vss source vs fuel garbage Hmod Hvs Hf)
      as (s' & Hrun & Hmod').
    exists s'. conj_split; [done..|]. intros position i v Hr. split.
    + destruct (set_models s' (vss ++ [vs]) source vs position i v Hmod')
        as (s'' & Hset & Hmod''); [by rewrite lookup_app_l|done|].
      exists s''. split; [done|]. by rewrite insert_app_l in Hmod''.
    + destruct (set_models s' (vss ++ [vs]) (length vss) vs position i v Hmod')
        as (s'' & Hset & Hmod''); [by rewrite list_lookup_middle|done|].
      exists s''. split; [done|].
      rewrite insert_app_r_alt in Hmod'' by lia.
      by rewrite Nat.sub_diag in Hmod''.
  - intros this vs0 Hvs0 Hne.
    assert (Hthis : this < length vss) by (by apply lookup_lt_Some in Hvs0).
    destruct (assign_models s vss this source vs0 vs fuel Hmod Hvs0 Hvs Hne Hf)
      as (s' & Hrun & Hmod').
    exists s'. conj_split; [done..|]. intros position i v Hr. split.
    + destruct (set_models s' (<[this := vs]> vss) source vs position i v Hmod')
        as (s'' & Hset & Hmod''); [by rewrite list_lookup_insert_ne|done|].
      by exists s''.
    + destruct (set_models s' (<[this := vs]> vss) this vs position i v Hmod')
        as (s'' & Hset & Hmod''); [by rewrite list_lookup_insert_eq|done|].
      exists s''. split; [done|]. by rewrite list_insert_insert_eq in Hmod''.
  - by eapply assign_self.
Qed.

(** C9. Indexed access.  [_find(position)] always returns, and returns
    null exactly when [position >= _size] or [position < - _size].  Within
    [- _size <= position < _size] both forms of [operator[]] reach a node;
    outside, they dereference the null pointer. *)
Theorem find_safety h d vs position w :
  represents h d vs ->
  (exists r, runs (_find position) h d r h d /\
             (r = None <-> (position >= _size d \/ position < - _size d)%Z)) /\
  ((- _size d <= position < _size d)%Z ->
     (exists v, runs (get position) h d v h d) /\
     (exists h', runs (set position w) h d tt h' d)) /\
  (~ (- _size d <= position < _size d)%Z ->
     get position {| mem := h; self := d |} = Fault /\
     set position w {| mem := h; self := d |} = Fault).
Proof.
  intros (cs & Hwf & Hit). pose proof Hwf as [_ _ _ _ Hsz]. rewrite Hsz.
  split; [|split].
  - eexists. split; [by apply _find_spec|].
    destruct (resolve (length cs) position) as [i|] eqn:Hr; simpl.
    + destruct (resolve_Some _ _ _ Hr) as [Hi Hpos].
      destruct (addr_at_lt cs i Hi) as [a ->]. split; [done|]. lia.
    + split; [|done]. intros _. by apply resolve_None.
  - intros Hin.
    destruct (resolve (length cs) position) as [i|] eqn:Hr.
    2:{ apply resolve_None in Hr. lia. }
    split.
    + destruct (get_spec h d cs position i Hwf Hr) as (v & _ & Hrun). by exists v.
    + destruct (set_spec h d cs position i w Hwf Hr) as (h' & _ & Hrun & _).
      by exists h'.
  - intros Hout.
    assert (Hr : resolve (length cs) position = None).
    { apply resolve_None. lia. }
    split; [by eapply get_fault|by eapply set_fault].
Qed.

(** * Further properties of the methods *)

(** ** count *)

Lemma count_loop_spec h d c1 c2 x fuel k :
  wf h d (c1 ++ c2) -> length c2 <= fuel ->
  runs (count_loop fuel x (first_of c2 None) k) h d
       (k + Z.of_nat (length (filter (fun v => v = x) (items c2))))%Z h d.
Proof.
  revert c1 fuel k. induction c2 as [|[a v] c2 IH]; intros c1 fuel k Hwf Hf.
  - simpl. rewrite Z.add_0_r. destruct fuel; apply runs_ret.
  - simpl in Hf. destruct fuel as [|fuel]; [lia|].
    destruct (wf_split _ _ _ _ _ _ Hwf) as (_ & _ & _ & _ & _ & _ & _ & Hnode).
    simpl. eapply runs_bind; [by apply (runs_rd_item h d a _ Hnode)|]. simpl.
    eapply runs_bind; [by apply (runs_rd_next h d a _ Hnode)|]. simpl.
    specialize (IH (c1 ++ [(a, v)]) fuel
                   (if decide (v = x) then (k + 1)%Z else k)).
    rewrite <- app_assoc in IH. specialize (IH Hwf ltac:(lia)).
    rewrite filter_cons.
    destruct (decide (v = x)); simpl length.
    + replace (k + Z.of_nat (S (length (filter (fun v0 => v0 = x) (items c2)))))%Z
        with (k + 1 + Z.of_nat (length (filter (fun v0 => v0 = x) (items c2))))%Z
        by lia.
      exact IH.
    + exact IH.
Qed.

Lemma count_spec h d vs x fuel :
  represents h d vs -> length vs <= fuel ->
  runs (count fuel x) h d
       (Z.of_nat (length (filter (fun v => v = x) vs))) h d.
Proof.
  intros (cs & Hwf & Hit) Hf. pose proof Hwf as [_ _ Hhd _ _].
  unfold count. eapply runs_bind; [apply runs_get_head|]. rewrite Hhd, <- Hit.
  apply (count_loop_spec h d [] cs x fuel 0 Hwf).
  by rewrite <- items_length, Hit.
Qed.

(** X1. On a list of fewer than [2^31] elements, so that the [int] counter
    cannot overflow, [count(x)] returns the number of elements equal to
    [x], which fits an [int], and changes neither the list nor the heap. *)
Theorem count_correct h d vs x fuel :
  represents h d vs -> (Z.of_nat (length vs) < 2 ^ 31)%Z -> length vs <= fuel ->
  runs (count fuel x) h d
       (Z.of_nat (length (filter (fun v => v = x) vs))) h d /\
  (0 <= Z.of_nat (length (filter (fun v => v = x) vs)) < 2 ^ 31)%Z.
Proof.
  intros Hrep Hlen Hf. split; [by apply count_spec|].
  pose proof (length_filter (fun v => v = x) vs). lia.
Qed.

(** ** expect_contents and make_list *)

Lemma expect_from_decides h d cs v2 : forall l1 l2,
  wf h d cs -> items cs = l1 ++ l2 -> length v2 = length l2 ->
  exists b, runs (expect_from (length l1) v2) h d b h d /\
            (b = true <-> v2 = l2).
Proof.
  induction v2 as [|x v2 IH]; intros l1 l2 Hwf Hit Hlen.
  - destruct l2; [|done]. exists true. split; [apply runs_ret|done].
  - destruct l2 as [|y l2]; [done|]. simpl in Hlen.
    assert (Hcs : length cs = length l1 + S (length l2)).
    { by rewrite <- items_length, Hit, length_app. }
    destruct (get_spec h d cs (Z.of_nat (length l1)) (length l1) Hwf)
      as (v & Hv & Hrun); [apply resolve_nonneg; lia|].
    rewrite Hit, list_lookup_middle in Hv by done. injection Hv as <-.
    destruct (decide (y = x)) as [->|Hne].
    + destruct (IH (l1 ++ [x]) l2 Hwf) as (b & Hb & Hiff);
        [by rewrite <- app_assoc|lia|].
      exists b. split.
      * simpl. eapply runs_bind; [exact Hrun|]. simpl.
        destruct (decide (x = x)); [|done].
        rewrite length_app in Hb. simpl in Hb.
        by replace (S (length l1)) with (length l1 + 1) by lia.
      * rewrite Hiff. split; [by intros ->|by intros [= ->]].
    + exists false. split.
      * simpl. eapply runs_bind; [exact Hrun|]. simpl.
        destruct (decide (y = x)); [done|]. apply runs_ret.
      * split; [done|]. intros [= -> _]. done.
Qed.

(** X2. [expect_contents(L, v)] never faults on a list, changes nothing
    and passes exactly when the list holds [v]. *)
Theorem expect_contents_decides h d vs v :
  represents h d vs ->
  exists b, runs (expect_contents v) h d b h d /\ (b = true <-> v = vs).
Proof.
  intros (cs & Hwf & Hit). pose proof Hwf as [_ _ _ _ Hsz].
  destruct (decide (length v = length vs)) as [Hlen|Hlen].
  - destruct (expect_from_decides h d cs v [] vs Hwf Hit Hlen) as (b & Hb & Hiff).
    exists b. split; [|done].
    unfold expect_contents, length_. eapply runs_bind; [apply runs_get_size|].
    rewrite Hsz, <- items_length, Hit, Hlen, Z.eqb_refl. exact Hb.
  - exists false. split.
    + unfold expect_contents, length_. eapply runs_bind; [apply runs_get_size|].
      rewrite Hsz, <- items_length, Hit.
      destruct (Z.eqb_spec (Z.of_nat (length vs)) (Z.of_nat (length v))); [lia|].
      apply runs_ret.
    + split; [done|]. by intros ->.
Qed.

(** X3. [expect_contents(make_list(v), w)] passes exactly when [w] is [v]. *)
Theorem make_list_expect_contents (h0 : heap) v w :
  exists h d b,
    runs (append_all v) h0 empty_DList tt h d /\
    runs (expect_contents w) h d b h d /\
    (b = true <-> w = v).
Proof.
  destruct (append_all_spec v h0 empty_DList [] (wf_empty h0))
    as (h & d & cs & Hrun & Hwf & Hit).
  simpl in Hwf, Hit. pose proof Hwf as [_ _ _ _ Hsz].
  assert (Hn : runs length_ h d (Z.of_nat (length v)) h d).
  { pose proof (runs_get_size h d) as Hg. unfold length_.
    by rewrite Hsz, <- items_length, Hit in Hg. }
  destruct (decide (length w = length v)) as [Hlen|Hlen].
  - destruct (expect_from_decides h d cs w [] v Hwf Hit Hlen) as (b & Hb & Hiff).
    exists h, d, b. split; [done|]. split; [|done].
    unfold expect_contents. eapply runs_bind; [exact Hn|].
    rewrite Hlen, Z.eqb_refl. exact Hb.
  - exists h, d, false. split; [done|]. split.
    + unfold expect_contents. eapply runs_bind; [exact Hn|].
      destruct (Z.eqb_spec (Z.of_nat (length v)) (Z.of_nat (length w))); [lia|].
      apply runs_ret.
    + split; [done|]. by intros ->.
Qed.

(** ** Writing and reading through operator[] *)

(** X4. After [L[position] = v], [L[position]] reads [v], every other
    position reads what it held, and the size is unchanged. *)
Theorem set_then_get h d vs position i v :
  represents h d vs -> resolve (length vs) position = Some i ->
  exists h',
    runs (set position v) h d tt h' d /\
    represents h' d (<[i := v]> vs) /\
    runs (get position) h' d v h' d /\
    forall q j w, resolve (length vs) q = Some j -> j <> i -> vs !! j = Some w ->
      runs (get q) h' d w h' d.
Proof.
  intros (cs & Hwf & Hit) Hr.
  assert (Hlen : length cs = length vs) by (by rewrite <- Hit, items_length).
  rewrite <- Hlen in Hr.
  destruct (set_spec h d cs position i v Hwf Hr)
    as (h' & cs' & Hrun & Hwf' & Hit' & Had & _).
  assert (Hlen' : length cs' = length cs).
  { by rewrite <- (items_length cs'), Hit', length_insert, items_length. }
  destruct (resolve_Some _ _ _ Hr) as [Hi _].
  exists h'. split; [done|]. split; [|split].
  - exists cs'. split; [done|]. by rewrite Hit', Hit.
  - destruct (get_spec h' d cs' position i Hwf') as (v' & Hv' & Hget);
      [by rewrite Hlen'|].
    rewrite Hit', list_lookup_insert_eq in Hv' by (by rewrite items_length).
    by injection Hv' as <-.
  - intros q j w Hq Hne Hw. rewrite <- Hlen in Hq.
    destruct (get_spec h' d cs' q j Hwf') as (w' & Hw' & Hget);
      [by rewrite Hlen'|].
    rewrite Hit', list_lookup_insert_ne, Hit in Hw' by done.
    by assert (w' = w) as -> by congruence.
Qed.

(** ** Round trips of insertion and deletion *)

(** X5. [append(x)] followed by [pop()] returns [x] and restores the list. *)
Theorem append_then_pop h d vs x :
  represents h d vs ->
  exists h' d',
    runs (append x ;;; pop_default) h d x h' d' /\
    represents h' d' vs /\ _size d' = _size d.
Proof.
  intros (cs & Hwf & Hit). pose proof Hwf as [_ _ _ _ Hsz].
  destruct (append_spec h d cs x Hwf) as (h1 & d1 & Hrun1 & Hwf1 & _).
  assert (Hr : resolve (length (cs ++ [(length h, x)])) (-1) = Some (length cs)).
  { rewrite length_app. simpl.
    replace (-1)%Z with (Z.of_nat (length cs) - Z.of_nat (length cs + 1))%Z by lia.
    apply resolve_neg. lia. }
  destruct (_delete_spec h1 d1 _ (-1) (length cs) Hwf1 Hr)
    as (v & h' & d' & Hv & Hrun & Hwf' & _).
  rewrite items_app, lookup_app_r in Hv by (by rewrite items_length).
  rewrite items_length, Nat.sub_diag in Hv. simpl in Hv. injection Hv as <-.
  assert (Hdel : delete (length cs) (cs ++ [(length h, x)]) = cs).
  { rewrite delete_take_drop, take_app_length.
    rewrite drop_ge by (rewrite length_app; simpl; lia). apply app_nil_r. }
  rewrite Hdel in Hwf'.
  exists h', d'. split; [|split].
  - eapply runs_bind; [exact Hrun1|]. exact Hrun.
  - by exists cs.
  - destruct Hwf' as [_ _ _ _ Hsz']. by rewrite Hsz', Hsz.
Qed.

Lemma delete_insert_at {A} (l : list A) i x :
  i <= length l -> delete i (insert_at i x l) = l.
Proof.
  intros Hi. unfold insert_at. rewrite delete_take_drop.
  rewrite take_app_length' by (rewrite length_take; lia).
  rewrite cons_middle, app_assoc.
  rewrite drop_app_length' by (rewrite length_app, length_take; simpl; lia).
  apply take_drop.
Qed.

(** X6. After [insert(position, x)] the element at the clamped position is
    [x], and popping that position returns [x] and restores the list. *)
Theorem insert_then_pop h d vs position x :
  represents h d vs ->
  exists h1 d1 h' d',
    runs (insert position x) h d tt h1 d1 /\
    runs (get (Z.of_nat (clamp (length vs) position))) h1 d1 x h1 d1 /\
    runs (pop (Z.of_nat (clamp (length vs) position))) h1 d1 x h' d' /\
    represents h' d' vs.
Proof.
  intros (cs & Hwf & Hit).
  assert (Hlen : length cs = length vs) by (by rewrite <- Hit, items_length).
  rewrite <- Hlen. set (i := clamp (length cs) position).
  pose proof (clamp_le (length cs) position) as Hi. fold i in Hi.
  destruct (insert_spec h d cs position x Hwf) as (h1 & d1 & Hrun1 & Hwf1 & _).
  fold i in Hwf1.
  assert (Hl1 : length (insert_at i (length h, x) cs) = S (length cs)).
  { unfold insert_at. rewrite length_app. simpl.
    rewrite length_take, length_drop. lia. }
  assert (Hr : resolve (length (insert_at i (length h, x) cs)) (Z.of_nat i) = Some i).
  { apply resolve_nonneg. lia. }
  assert (Hx : items (insert_at i (length h, x) cs) !! i = Some x).
  { unfold insert_at. rewrite items_app, items_cons.
    apply list_lookup_middle. rewrite items_length, length_take. lia. }
  destruct (get_spec h1 d1 _ _ i Hwf1 Hr) as (v & Hv & Hget).
  assert (v = x) as -> by congruence.
  destruct (_delete_spec h1 d1 _ _ i Hwf1 Hr) as (v & h' & d' & Hv' & Hrun & Hwf' & _).
  assert (v = x) as -> by congruence.
  rewrite delete_insert_at in Hwf' by done.
  exists h1, d1, h', d'. split; [done|]. split; [done|]. split; [done|].
  by exists cs.
Qed.

(** ** index *)

(** X7. For a start that is also a non-negative [long], on a list whose size
    fits a [long] too: [index(x, start)] returns the first position from [start] on
    that holds [x], or the sentinel when there is none; the sentinel is
    no position of the list.  Nothing is changed. *)
Theorem index_from_start h d vs x start fuel :
  represents h d vs ->
  (Z.of_nat (length vs) < 2 ^ 63)%Z -> (Z.of_nat start < 2 ^ 63)%Z ->
  length vs <= fuel ->
  (forall p, start <= p -> vs !! p = Some x ->
             (forall q, start <= q < p -> vs !! q <> Some x) ->
             runs (index fuel x (Z.of_nat start)) h d (Z.of_nat p) h d) /\
  ((forall p, start <= p -> vs !! p <> Some x) ->
   runs (index fuel x (Z.of_nat start)) h d NOT_FOUND h d) /\
  (forall p, p < length vs -> Z.of_nat p <> NOT_FOUND).
Proof.
  intros (cs & Hwf & Hit) Hlen Hst Hf.
  assert (Hl : length cs = length vs) by (by rewrite <- Hit, items_length).
  rewrite <- Hit.
  destruct (index_small_start h d cs x start fuel Hwf) as [Hfound Habsent];
    [lia|lia|lia|].
  split; [done|]. split; [done|].
  intros p Hp. unfold NOT_FOUND, to_size_t.
  change ((-1) mod 2 ^ 64)%Z with (2 ^ 64 - 1)%Z.
  rewrite items_length in Hp. lia.
Qed.

(** X8. For every [start] of type [size_t], [index] returns without fault
    and without changing anything.  The start is read as the signed
    position [to_long start]: when that is out of range the result is the
    sentinel; otherwise the scan begins at the position it resolves to,
    and a match [k] nodes further gives [start + k] modulo [2^64]. *)
Theorem index_any_start h d vs x start fuel :
  represents h d vs -> (0 <= start < 2 ^ 64)%Z -> length vs <= fuel ->
  runs (index fuel x start) h d
    match resolve (length vs) (to_long start) with
    | Some j =>
      match first_index x (drop j vs) with
      | Some k => to_size_t (start + Z.of_nat k)
      | None => NOT_FOUND
      end
    | None => NOT_FOUND
    end h d.
Proof.
  intros (cs & Hwf & Hit) Hs Hf.
  assert (Hl : length cs = length vs) by (by rewrite <- Hit, items_length).
  rewrite <- Hl, <- Hit. apply index_spec; [done|done|lia].
Qed.

(** ** remove, index and count together *)

Lemma first_index_remove_first x vs k :
  first_index x vs = Some k -> remove_first x vs = delete k vs.
Proof.
  revert k. induction vs as [|v vs IH]; intros k; simpl; [done|].
  destruct (decide (v = x)); [by intros [= <-]|].
  destruct (first_index x vs) as [k'|]; simpl; [|done].
  intros [= <-]. simpl. f_equal. by apply IH.
Qed.

(** X9. [remove(x)] removes the element at the position [index(x, 0)]
    reports: when that is the sentinel nothing changes, otherwise the
    resulting list is the one [pop] at that position leaves, and [pop]
    returns [x]. *)
Theorem remove_is_pop_at_index h d vs x fuel :
  represents h d vs -> (Z.of_nat (length vs) < 2 ^ 63)%Z -> length vs <= fuel ->
  exists p,
    runs (index fuel x 0) h d p h d /\
    (p = NOT_FOUND -> runs (remove fuel x) h d tt h d) /\
    (p <> NOT_FOUND ->
     exists ws h1 d1 h2 d2,
       runs (remove fuel x) h d tt h1 d1 /\ represents h1 d1 ws /\
       runs (pop p) h d x h2 d2 /\ represents h2 d2 ws).
Proof.
  intros (cs & Hwf & Hit) Hlen Hf.
  assert (Hl : length cs = length vs) by (by rewrite <- Hit, items_length).
  pose proof (index_spec h d cs x 0 fuel Hwf ltac:(lia) ltac:(lia)) as Hidx.
  change (to_long 0) with 0%Z in Hidx.
  destruct (decide (length cs = 0)) as [Hz|Hnz].
  - (* the empty list *)
    destruct cs; [|done]. simpl in Hidx. exists NOT_FOUND.
    split; [done|]. split; [|done]. intros _.
    apply (remove_absent h d []); [done|apply not_elem_of_nil|simpl; lia].
  - assert (Hr0 : resolve (length cs) 0 = Some 0)
      by (apply (resolve_nonneg _ 0); lia).
    rewrite Hr0, drop_0, Hit in Hidx.
    destruct (first_index x vs) as [k|] eqn:Hfi.
    + exists (to_size_t (0 + Z.of_nat k)). split; [done|].
      pose proof Hfi as Hfi'. apply first_index_Some in Hfi' as [Hk Hmin].
      assert (Hkl : k < length vs) by (by apply lookup_lt_Some in Hk).
      assert (Hp : to_size_t (0 + Z.of_nat k) = Z.of_nat k).
      { unfold to_size_t. rewrite Z.mod_small; lia. }
      rewrite Hp. split.
      * intros Habs. unfold NOT_FOUND, to_size_t in Habs.
        change ((-1) mod 2 ^ 64)%Z with (2 ^ 64 - 1)%Z in Habs. lia.
      * intros _.
        destruct (remove_spec h d cs x fuel Hwf) as (h1 & d1 & cs1 & Hrem & Hwf1 & Hit1 & _);
          [lia|].
        destruct (_delete_spec h d cs (Z.of_nat k) k Hwf)
          as (v & h2 & d2 & Hv & Hpop & Hwf2 & _); [apply resolve_nonneg; lia|].
        rewrite Hit in Hv. assert (v = x) as -> by congruence.
        exists (delete k vs), h1, d1, h2, d2. split; [done|]. split; [|split; [done|]].
        -- exists cs1. split; [done|].
           by rewrite Hit1, Hit, (first_index_remove_first x vs k).
        -- exists (delete k cs). split; [done|].
           unfold items. by rewrite list_fmap_delete, <- Hit.
    + exists NOT_FOUND. split; [done|]. split; [|done]. intros _.
      apply (remove_absent h d cs); [done| |lia].
      rewrite Hit. by apply first_index_None.
Qed.

Lemma filter_remove_first_length x y (vs : list ItemType) :
  length (filter (fun v => v = y) (remove_first x vs)) =
  length (filter (fun v => v = y) vs)
  - (if decide (y = x /\ x ∈ vs) then 1 else 0).
Proof.
  induction vs as [|v vs IH]; simpl.
  - destruct (decide (y = x /\ x ∈ [])); simpl; lia.
  - destruct (decide (v = x)) as [->|Hne].
    + rewrite filter_cons. destruct (decide (x = y)) as [->|Hxy].
      * destruct (decide (y = y /\ y ∈ y :: vs)) as [_|Hn]; [simpl; lia|].
        exfalso. apply Hn. split; [done|left].
      * destruct (decide (y = x /\ x ∈ x :: vs)) as [[-> _]|_]; [done|lia].
    + rewrite !filter_cons. destruct (decide (v = y)) as [->|Hvy].
      * simpl. rewrite IH.
        destruct (decide (y = x /\ x ∈ vs)) as [[-> _]|_]; [done|].
        destruct (decide (y = x /\ x ∈ y :: vs)) as [[-> _]|_]; [done|lia].
      * rewrite IH.
        destruct (decide (y = x /\ x ∈ vs)) as [[-> Hin]|Hn].
        -- destruct (decide (x = x /\ x ∈ v :: vs)) as [_|Hn']; [done|].
           exfalso. apply Hn'. split; [done|by right].
        -- destruct (decide (y = x /\ x ∈ v :: vs)) as [[-> Hin]|_]; [|done].
           exfalso. apply Hn. split; [done|].
           apply elem_of_cons in Hin as [->|Hin]; done.
Qed.

(** X10. On a list of fewer than [2^31] elements: after [remove(x)],
    [count(x)] is one less when [x] occurred, and the count of every other
    value is what it was. *)
Theorem remove_then_count h d vs x fuel :
  represents h d vs -> (Z.of_nat (length vs) < 2 ^ 31)%Z -> length vs <= fuel ->
  exists h' d',
    runs (remove fuel x) h d tt h' d' /\
    forall y,
      runs (count fuel y) h' d'
        (Z.of_nat (length (filter (fun v => v = y) vs)
                   - (if decide (y = x /\ x ∈ vs) then 1 else 0))) h' d'.
Proof.
  intros (cs & Hwf & Hit) _ Hf.
  assert (Hl : length cs = length vs) by (by rewrite <- Hit, items_length).
  destruct (remove_spec h d cs x fuel Hwf) as (h' & d' & cs' & Hrem & Hwf' & Hit' & _);
    [lia|].
  exists h', d'. split; [done|]. intros y.
  rewrite <- filter_remove_first_length, <- Hit, <- Hit'.
  pose proof Hwf' as [_ _ Hhd _ _].
  unfold count. eapply runs_bind; [apply runs_get_head|]. rewrite Hhd.
  apply (count_loop_spec h' d' [] cs' y fuel 0 Hwf').
  assert (length (items cs') <= length (items cs)); [|rewrite !items_length in *; lia].
  rewrite Hit'. clear. induction (items cs) as [|v l IH]; simpl; [done|].
  destruct (decide (v = x)); simpl; lia.
Qed.

(** X11. On a list of fewer than [2^31] elements, [index(x, 0)] is the
    sentinel exactly when [count(x)] is [0]. *)
Theorem index_sentinel_iff_count_zero h d vs x fuel :
  represents h d vs -> (Z.of_nat (length vs) < 2 ^ 31)%Z -> length vs <= fuel ->
  exists p c,
    runs (index fuel x 0) h d p h d /\
    runs (count fuel x) h d c h d /\
    (p = NOT_FOUND <-> c = 0%Z).
Proof.
  intros Hrep Hlen Hf.
  pose proof (count_spec h d vs x fuel Hrep Hf) as Hcount.
  destruct Hrep as (cs & Hwf & Hit).
  assert (Hl : length cs = length vs) by (by rewrite <- Hit, items_length).
  pose proof (index_spec h d cs x 0 fuel Hwf ltac:(lia) ltac:(lia)) as Hidx.
  change (to_long 0) with 0%Z in Hidx.
  eexists _, _. split; [exact Hidx|]. split; [exact Hcount|].
  assert (Hcz : Z.of_nat (length (filter (fun v => v = x) vs)) = 0%Z <-> x ∉ vs).
  { split.
    - intros Hz Hin. assert (x ∈ filter (fun v => v = x) vs) as Hf'.
      { by apply list_elem_of_filter. }
      destruct (filter (fun v => v = x) vs); [by apply elem_of_nil in Hf'|].
      simpl in Hz. lia.
    - intros Hnin. destruct (filter (fun v => v = x) vs) as [|v l] eqn:Hfl; [done|].
      exfalso. assert (v ∈ filter (fun v => v = x) vs) as Hv by (rewrite Hfl; left).
      apply list_elem_of_filter in Hv as [-> Hv]. done. }
  rewrite Hcz.
  destruct (decide (length cs = 0)) as [Hz|Hnz].
  - destruct cs; [|done]. simpl in Hit. subst vs. simpl.
    split; [intros _; apply not_elem_of_nil|done].
  - assert (Hr0 : resolve (length cs) 0 = Some 0)
      by (apply (resolve_nonneg _ 0); lia).
    rewrite Hr0, drop_0, Hit.
    destruct (first_index x vs) as [k|] eqn:Hfi.
    + pose proof Hfi as Hfi'. apply first_index_Some in Hfi' as [Hk _].
      assert (Hkl : k < length vs) by (by apply lookup_lt_Some in Hk).
      split.
      * unfold NOT_FOUND, to_size_t. rewrite (Z.mod_small (0 + Z.of_nat k)) by lia.
        change ((-1) mod 2 ^ 64)%Z with (2 ^ 64 - 1)%Z. lia.
      * intros Hnin. exfalso. apply Hnin. by eapply list_elem_of_lookup_2.
    + split; [|done]. intros _. by apply first_index_None.
Qed.

(** ** clear *)


(** ** Negative positions *)

(** X13. For [0 <= i < _size], [pop(i - _size)] is the same computation as
    [pop(i)], and [insert(i - _size, x)] the same as [insert(i, x)]. *)
Theorem negative_position_same h d i x :
  (0 <= i < _size d)%Z ->
  pop (i - _size d) {| mem := h; self := d |} = pop i {| mem := h; self := d |} /\
  insert (i - _size d) x {| mem := h; self := d |}
  = insert i x {| mem := h; self := d |}.
Proof.
  intros Hi. split.
  - unfold pop, _delete. unfold bind at 1 3. unfold get_size.
    cbv beta iota zeta. simpl (self _).
    destruct (Z.ltb_spec (i - _size d) 0); [|lia].
    destruct (Z.ltb_spec i 0); [lia|].
    by replace (i - _size d + _size d)%Z with i by lia.
  - unfold insert. unfold bind at 1 3. unfold get_size.
    cbv beta iota zeta. simpl (self _).
    destruct (Z.ltb_spec (i - _size d) 0); [|lia].
    destruct (Z.ltb_spec i 0); [lia|].
    by replace (i - _size d + _size d)%Z with i by lia.
Qed.

(** ** The empty list *)

(** X14. On a list just constructed by [DList()], whatever the heap holds:
    [pop] at any position returns the default element and changes
    nothing, [remove] changes nothing, [index] returns the sentinel for
    any start, [count] is [0], [operator[]] dereferences null at every
    position, and [insert] at any position yields the one-element list. *)
Theorem empty_list_behaviour (h : heap) position x start fuel :
  runs (pop position) h empty_DList value_init h empty_DList /\
  runs (remove fuel x) h empty_DList tt h empty_DList /\
  runs (index fuel x start) h empty_DList NOT_FOUND h empty_DList /\
  runs (count fuel x) h empty_DList 0%Z h empty_DList /\
  get position {| mem := h; self := empty_DList |} = Fault /\
  exists h' d',
    runs (insert position x) h empty_DList tt h' d' /\
    represents h' d' [x] /\ _size d' = 1%Z.
Proof.
  pose proof (wf_empty h) as Hwf.
  assert (Hnone : forall q, resolve (length (@nil (nat * ItemType))) q = None).
  { intros q. apply resolve_None. simpl. lia. }
  split; [by apply (_delete_invalid h empty_DList [])|].
  split; [apply (remove_absent h empty_DList []);
          [done|apply not_elem_of_nil|simpl; lia]|].
  split.
  { unfold index. eapply runs_bind; [by apply (_find_spec h empty_DList [])|].
    rewrite Hnone. simpl. destruct fuel; apply runs_ret. }
  split; [destruct fuel; done|].
  split; [by apply (get_fault h empty_DList [])|].
  destruct (insert_spec h empty_DList [] position x Hwf) as (h' & d' & Hrun & Hwf' & _).
  exists h', d'. split; [done|].
  assert (Hc : clamp 0 position = 0) by (pose proof (clamp_le 0 position); lia).
  simpl in Hwf'. rewrite Hc in Hwf'. unfold insert_at in Hwf'. simpl in Hwf'.
  split; [by eexists|]. by destruct Hwf'.
Qed.

(** ** The copy constructor and the indeterminate _size *)

Lemma copy_loop_self fuel : forall sourceNode newNode (h : heap) d1 d2,
  copy_loop fuel sourceNode newNode {| mem := h; self := d2 |} =
  match copy_loop fuel sourceNode newNode {| mem := h; self := d1 |} with
  | Ok (r, c) => Ok (r, {| mem := mem c; self := d2 |})
  | Fault => Fault
  | OutOfFuel => OutOfFuel
  end.
Proof.
  induction fuel as [|fuel IH]; intros [a|] newNode h d1 d2; simpl; try done.
  unfold rd_item, rd_next, wr_next.
  unfold bind, deref, make_shared, update, ret. simpl.
  repeat (case_match; simplify_eq/=; try done).
Qed.

(** X15. The copy constructor never uses the indeterminate [_size] its object
    starts with: whatever that value, the outcome is the same. *)
Theorem copy_construct_ignores_garbage fuel garbage1 garbage2 source s :
  copy_construct fuel garbage1 source s = copy_construct fuel garbage2 source s.
Proof.
  unfold copy_construct. destruct (objs s !! source) as [src|]; [|done].
  unfold _copy. destruct (_head src) as [a|].
  - unfold rd_item, rd_next.
    unfold bind, deref, make_shared, set_head, set_tail, set_size, ret. simpl.
    destruct (nodes s !! a) as [nd|] eqn:Ha; [|done]. simpl.
    destruct ((nodes s ++ [new_node (_item nd) None None]) !! a) as [na|]; [|done].
    simpl.
    set (d1 := {| _head := Some (length (nodes s)); _tail := None;
                  _size := garbage1 |}).
    set (d2 := {| _head := Some (length (nodes s)); _tail := None;
                  _size := garbage2 |}).
    rewrite (copy_loop_self fuel (_next na) (Some (length (nodes s))) _ d1 d2).
    pose proof (copy_loop_self fuel (_next na) (Some (length (nodes s)))
                  (nodes s ++ [new_node (_item nd) None None]) d1 d1) as Hself.
    destruct (copy_loop fuel (_next na) (Some (length (nodes s))) _)
      as [[r c]| |]; [|done..].
    injection Hself as ->. done.
  - unfold bind, set_head, set_tail, set_size, ret. simpl.
    set (d1 := {| _head := None; _tail := None; _size := garbage1 |}).
    set (d2 := {| _head := None; _tail := None; _size := garbage2 |}).
    rewrite (copy_loop_self fuel None None _ d1 d2).
    pose proof (copy_loop_self fuel None None (nodes s) d1 d1) as Hself.
    destruct (copy_loop fuel None None _) as [[r c]| |]; [|done..].
    injection Hself as ->. done.
Qed.

(** ** Client programs: validity, faults and termination *)

Lemma lookup_valid {A} (l : list A) o v :
  l !! o = Some v -> bool_decide (o < length l) = true.
Proof. intros Hl. apply bool_decide_eq_true_2. by eapply lookup_lt_Some. Qed.

Lemma lookup_invalid {A} (l : list A) o :
  l !! o = None -> bool_decide (o < length l) = false.
Proof.
  intros Hl. apply bool_decide_eq_false_2. apply lookup_ge_None in Hl. lia.
Qed.

Lemma objs_invalid s vss o :
  models s vss -> vss !! o = None -> objs s !! o = None.
Proof.
  intros Hmod Hnone. apply lookup_ge_None_2.
  rewrite (models_objs _ _ Hmod). by apply lookup_ge_None.
Qed.

Ltac step_ok H :=
  let s1 := fresh "s1" in
  let Hrun := fresh "Hrun" in
  destruct H as (s1 & Hrun & _); left; split; [done|];
  exists s1; by rewrite Hrun.

Lemma step_outcome o s vss :
  models s vss ->
  (op_valid o vss = true /\ exists s', step o s = Ok s') \/
  (op_valid o vss = false /\ step o s = Fault).
Proof.
  intros Hmod. destruct o; unfold op_valid, step.
  - left. split; [done|]. by eexists.
  - destruct (vss !! source) as [vs|] eqn:Hvs.
    + rewrite (lookup_valid _ _ _ Hvs).
      step_ok (copy_construct_models s vss source vs (length (nodes s)) garbage
                 Hmod Hvs (models_length _ _ _ _ Hmod Hvs)).
    + rewrite (lookup_invalid _ _ Hvs). right. split; [done|].
      unfold copy_construct. by rewrite (objs_invalid _ _ _ Hmod Hvs).
  - destruct (vss !! this) as [vs0|] eqn:Hvs0;
      destruct (vss !! source) as [vs|] eqn:Hvs;
      rewrite ?(lookup_valid _ _ _ Hvs0), ?(lookup_valid _ _ _ Hvs),
        ?(lookup_invalid _ _ Hvs0), ?(lookup_invalid _ _ Hvs); simpl.
    + destruct (decide (this = source)) as [->|Hne].
      * left. split; [done|]. exists s.
        by rewrite (assign_self s vss source vs _ Hmod Hvs).
      * step_ok (assign_models s vss this source vs0 vs (length (nodes s))
                   Hmod Hvs0 Hvs Hne (models_length _ _ _ _ Hmod Hvs)).
    + right. split; [done|]. unfold assign.
      destruct (decide (this = source)) as [->|Hne]; [congruence|].
      by rewrite (objs_invalid _ _ _ Hmod Hvs).
    + right. split; [done|]. unfold assign.
      destruct (decide (this = source)) as [->|Hne]; [congruence|].
      destruct (objs s !! source); [|done].
      by rewrite (call_invalid _ s vss this Hmod Hvs0).
    + right. split; [done|]. unfold assign.
      destruct (decide (this = source)) as [->|Hne].
      * by rewrite (objs_invalid _ _ _ Hmod Hvs).
      * by rewrite (objs_invalid _ _ _ Hmod Hvs).
  - destruct (vss !! this) as [vs|] eqn:Hvs.
    + rewrite (lookup_valid _ _ _ Hvs).
      step_ok (clear_models s vss this vs Hmod Hvs).
    + rewrite (lookup_invalid _ _ Hvs). right. split; [done|].
      by rewrite (call_invalid _ s vss this Hmod Hvs).
  - destruct (vss !! this) as [vs|] eqn:Hvs.
    + rewrite (lookup_valid _ _ _ Hvs).
      step_ok (append_models s vss this vs x Hmod Hvs).
    + rewrite (lookup_invalid _ _ Hvs). right. split; [done|].
      by rewrite (call_invalid _ s vss this Hmod Hvs).
  - destruct (vss !! this) as [vs|] eqn:Hvs.
    + rewrite (lookup_valid _ _ _ Hvs).
      step_ok (insert_models s vss this vs position x Hmod Hvs).
    + rewrite (lookup_invalid _ _ Hvs). right. split; [done|].
      by rewrite (call_invalid _ s vss this Hmod Hvs).
  - destruct (vss !! this) as [vs|] eqn:Hvs.
    + rewrite (lookup_valid _ _ _ Hvs). left. split; [done|].
      destruct (resolve (length vs) position) as [i|] eqn:Hr.
      * destruct (pop_models s vss this vs position i Hmod Hvs Hr)
          as (v & s1 & _ & Hrun & _).
        exists s1. by rewrite Hrun.
      * exists s. by rewrite (pop_invalid_models s vss this vs position Hmod Hvs Hr).
    + rewrite (lookup_invalid _ _ Hvs). right. split; [done|].
      by rewrite (call_invalid _ s vss this Hmod Hvs).
  - destruct (vss !! this) as [vs|] eqn:Hvs.
    + rewrite (lookup_valid _ _ _ Hvs).
      step_ok (remove_models s vss this vs x (length (nodes s)) Hmod Hvs
                 (models_length _ _ _ _ Hmod Hvs)).
    + rewrite (lookup_invalid _ _ Hvs). right. split; [done|].
      by rewrite (call_invalid _ s vss this Hmod Hvs).
  - destruct (vss !! this) as [vs|] eqn:Hvs;
      destruct (vss !! otherList) as [ws|] eqn:Hws;
      rewrite ?(lookup_valid _ _ _ Hvs), ?(lookup_valid _ _ _ Hws),
        ?(lookup_invalid _ _ Hvs), ?(lookup_invalid _ _ Hws); simpl.
    + destruct (decide (otherList = this)) as [->|Hne].
      * step_ok (extend_self_models s vss this vs (length (nodes s)) Hmod Hvs).
      * step_ok (extend_other_models s vss this otherList vs ws
                   (length (nodes s)) Hmod Hvs Hws Hne
                   (models_length _ _ _ _ Hmod Hws)).
    + right. split; [done|]. unfold extend.
      destruct (decide (otherList = this)) as [->|Hne]; [congruence|].
      by rewrite (objs_invalid _ _ _ Hmod Hws).
    + right. split; [done|]. unfold extend.
      destruct (decide (otherList = this)) as [->|Hne]; [congruence|].
      destruct (objs s !! otherList); [|done].
      by rewrite (call_invalid _ s vss this Hmod Hvs).
    + right. split; [done|]. unfold extend.
      destruct (decide (otherList = this)) as [->|Hne].
      * by rewrite (call_invalid _ s vss this Hmod Hvs).
      * by rewrite (objs_invalid _ _ _ Hmod Hws).
  - destruct (vss !! this) as [vs|] eqn:Hvs.
    + rewrite (lookup_valid _ _ _ Hvs). unfold list_of. rewrite Hvs. simpl.
      destruct (resolve (length vs) position) as [i|] eqn:Hr.
      * rewrite bool_decide_eq_true_2 by done.
        step_ok (set_models s vss this vs position i v Hmod Hvs Hr).
      * rewrite bool_decide_eq_false_2 by (by intros [? ?]).
        right. split; [done|].
        destruct (models_lookup _ _ _ _ Hmod Hvs)
          as (css & d & cs & Hinv & Hcss & Hd & Hcs & Hit0 & Hwf).
        rewrite <- Hit0, items_length in Hr.
        unfold call. rewrite Hd.
        by rewrite (set_fault _ _ _ _ v Hwf Hr).
    + rewrite (lookup_invalid _ _ Hvs). right. split; [done|].
      by rewrite (call_invalid _ s vss this Hmod Hvs).
Qed.

(** X16. On a store that holds well-formed lists a statement of a client
    program never runs out of steps with as many steps as the heap has
    nodes, and it faults (a null pointer is dereferenced, or an object does
    not exist) exactly when it names an object that does not exist or
    writes through [operator[]] outside the range [-size, size). *)
Theorem step_fault_iff_invalid o s vss :
  models s vss ->
  step o s <> OutOfFuel /\
  (step o s = Fault <-> op_valid o vss = false).
Proof.
  intros Hmod.
  destruct (step_outcome o s vss Hmod) as [[Hv [s' Hs]]|[Hv Hs]];
    rewrite Hs, Hv.
  - split; [done|]. split; intros; done.
  - split; [done|]. split; intros; done.
Qed.

(** X17. A valid client program runs to its end, and the store then holds the
    lists that the same statements give on plain lists. *)
Theorem valid_program_runs ops : forall s vss,
  models s vss -> program_valid ops vss = true ->
  exists s', run ops s = Ok s' /\
             models s' (foldl (fun vss o => abstract_step o vss) vss ops).
Proof.
  induction ops as [|o ops IH]; intros s vss Hmod Hval; simpl in *.
  - by exists s.
  - apply andb_true_iff in Hval as [Hv Hvals].
    destruct (step_outcome o s vss Hmod) as [[_ [s1 Hs]]|[Hv' _]];
      [|congruence].
    rewrite Hs. apply IH; [|done]. by eapply step_models.
Qed.

(** X18. A client program with an invalid statement faults, at the first such
    statement; it never ends in another way. *)
Theorem invalid_program_faults ops : forall s vss,
  models s vss -> program_valid ops vss = false -> run ops s = Fault.
Proof.
  induction ops as [|o ops IH]; intros s vss Hmod Hval; simpl in *.
  - done.
  - destruct (step_outcome o s vss Hmod) as [[Hv [s1 Hs]]|[Hv Hs]];
      rewrite Hs; [|done].
    rewrite Hv in Hval. simpl in Hval.
    apply (IH s1 (abstract_step o vss)); [|done]. by eapply step_models.
Qed.

End DList.

(** * Concrete lists of integers *)

Section Examples.

Local Open Scope Z_scope.

#[local] Instance Z_value_init : ValueInit Z := 0.

(** A program that has just declared [DList<int> L;]. *)
Definition start_config : config (ItemType := Z) :=
  {| mem := []; self := empty_DList |}.

(** [make_list(vs)] of the test file: a fresh list with [vs] appended. *)
Definition make_list (vs : list Z) : config :=
  match append_all vs start_config with
  | Ok (_, c) => c
  | _ => start_config
  end.

(** A client program over three lists, and the store it ends in. *)
Definition program : list (op (ItemType := Z)) :=
  [OpDeclare; OpAppend 0%nat 10; OpAppend 0%nat 20; OpInsert 0%nat 1 15;
   OpCopy 7 0%nat; OpExtend 0%nat 0%nat; OpExtend 1%nat 0%nat;
   OpPop 0%nat (-1); OpRemove 1%nat 20; OpDeclare; OpAssign 2%nat 1%nat;
   OpSet 2%nat 0 99; OpClear 1%nat; OpInsert 1%nat (-5) 3].

Definition program_store : store :=
  Eval vm_compute in
    match run program empty_store with
    | Ok s => s
    | _ => empty_store
    end.

(** *** The examples of the specification, run on the model *)

Definition passes (m : M (ItemType := Z) bool) (c : config) : bool :=
  match m c with
  | Ok (b, _) => b
  | _ => false
  end.

Definition after {A} (m : M (ItemType := Z) A) (c : config) : config :=
  match m c with
  | Ok (_, c') => c'
  | _ => c
  end.

Definition value_of {A} (m : M (ItemType := Z) A) (c : config) : option A :=
  match m c with
  | Ok (a, _) => Some a
  | _ => None
  end.

(** The list made by [make_list(vs)] holds [vs]. *)
Lemma make_list_represents vs :
  represents (mem (make_list vs)) (self (make_list vs)) vs.
Proof.
  destruct (append_all_spec vs [] empty_DList [] (wf_empty []))
    as (h & d & cs & Hrun & Hwf & Hit).
  unfold make_list, start_config. unfold runs in Hrun. rewrite Hrun. simpl.
  by exists cs.
Qed.

Lemma program_reachable : reachable program_store.
Proof.
  apply (run_reachable program empty_store); [apply reachable_empty|].
  by vm_compute.
Qed.

Lemma program_models :
  models program_store [[10; 15; 20; 10; 15]; [3]; [99; 15; 10; 15; 20; 10; 15; 20]].
Proof.
  assert (Hrun : run program empty_store = Ok program_store) by (by vm_compute).
  assert (Habs : foldl (fun vss o => abstract_step o vss) [] program
                 = [[10; 15; 20; 10; 15]; [3]; [99; 15; 10; 15; 20; 10; 15; 20]])
    by (by vm_compute).
  rewrite <- Habs.
  exact (run_models program empty_store program_store [] models_empty Hrun).
Qed.

(** [insert(0,5)], [insert(2,15)], [insert(1000,40)], [insert(-9999,0)]
    on [[10,20,30]]. *)
Example test_insert :
  let L1 := after (insert 0 5) (make_list [10; 20; 30]) in
  let L2 := after (insert 2 15) L1 in
  let L3 := after (insert 1000 40) L2 in
  let L4 := after (insert (-9999) 0) L3 in
  passes (expect_contents [5; 10; 20; 30]) L1 = true /\
  passes (expect_contents [5; 10; 15; 20; 30]) L2 = true /\
  passes (expect_contents [5; 10; 15; 20; 30; 40]) L3 = true /\
  passes (expect_contents [0; 5; 10; 15; 20; 30; 40]) L4 = true.
Proof. by vm_compute. Qed.

(** [pop()], [pop(0)], [pop(1)] on [[10,20,30,40]]. *)
Example test_pop :
  let L0 := make_list [10; 20; 30; 40] in
  let L1 := after (pop_default) L0 in
  let L2 := after (pop 0) L1 in
  let L3 := after (pop 1) L2 in
  value_of (pop_default) L0 = Some 40 /\
  passes (expect_contents [10; 20; 30]) L1 = true /\
  value_of (pop 0) L1 = Some 10 /\
  passes (expect_contents [20; 30]) L2 = true /\
  value_of (pop 1) L2 = Some 30 /\
  passes (expect_contents [20]) L3 = true.
Proof. by vm_compute. Qed.

(** [remove(2)] then [remove(999)] on [[1,2,3,2,4]]. *)
Example test_remove :
  let L1 := after (remove 5 2) (make_list [1; 2; 3; 2; 4]) in
  let L2 := after (remove 5 999) L1 in
  passes (expect_contents [1; 3; 2; 4]) L1 = true /\
  passes (expect_contents [1; 3; 2; 4]) L2 = true.
Proof. by vm_compute. Qed.

(** [index(5,0)], [index(5,1)], [index(9,0)], [index(42,0)] on [[5,7,5,9]]. *)
Example test_index :
  let L := make_list [5; 7; 5; 9] in
  value_of (index 4 5 0) L = Some 0 /\
  value_of (index 4 5 1) L = Some 2 /\
  value_of (index 4 9 0) L = Some 3 /\
  value_of (index 4 42 0) L = Some NOT_FOUND.
Proof. by vm_compute. Qed.

(** [count(2)], [count(3)], [count(99)] on [[2,2,2,3,4]]. *)
Example test_count :
  let L := make_list [2; 2; 2; 3; 4] in
  value_of (count 5 2) L = Some 3 /\
  value_of (count 5 3) L = Some 1 /\
  value_of (count 5 99) L = Some 0.
Proof. by vm_compute. Qed.

(** [G.extend(G)] on [[1,2,3,4]]. *)
Example test_extend_self :
  passes (expect_contents [1; 2; 3; 4; 1; 2; 3; 4])
         (after extend_self (make_list [1; 2; 3; 4])) = true.
Proof. by vm_compute. Qed.

(** *** Instances of the theorems *)

Lemma reachable_invariant_witness :
  reachable program_store /\
  objs program_store !! 2%nat
    = Some {| _head := Some 15%nat; _tail := Some 22%nat; _size := 8 |} /\
  DList_invariant (nodes program_store)
    {| _head := Some 15%nat; _tail := Some 22%nat; _size := 8 |}.
Proof.
  split; [exact program_reachable|]. split; [reflexivity|].
  apply (reachable_invariant program_store 2%nat).
  - exact program_reachable.
  - reflexivity.
Defined.

Lemma index_round_trip_witness :
  (1 < length [10; 20; 30])%nat /\
  exists h d,
    runs (append_all [10; 20; 30]) [] empty_DList tt h d /\
    runs (get 1) h d 20 h d /\
    runs (get (-2)) h d 20 h d.
Proof.
  assert (Hi : (1 < length [10; 20; 30])%nat) by (simpl; lia).
  split; [exact Hi|].
  destruct (index_round_trip [] [10; 20; 30] 1%nat Hi)
    as (h & d & v & Hrun & Hv & Hget1 & Hget2).
  injection Hv as <-. exists h, d. split; [exact Hrun|]. split; [exact Hget1|].
  exact Hget2.
Defined.

Lemma insert_correct_witness :
  represents (mem (make_list [10; 20; 30])) (self (make_list [10; 20; 30]))
             [10; 20; 30] /\
  exists h' d',
    runs (insert (-2) 15) (mem (make_list [10; 20; 30]))
         (self (make_list [10; 20; 30])) tt h' d' /\
    represents h' d' [10; 15; 20; 30] /\ _size d' = 4.
Proof.
  split; [apply make_list_represents|].
  destruct (insert_correct _ _ _ (-2) 15 (make_list_represents [10; 20; 30]))
    as [Hins _].
  exact Hins.
Defined.

Lemma pop_correct_witness :
  represents (mem (make_list [10; 20; 30; 40])) (self (make_list [10; 20; 30; 40]))
             [10; 20; 30; 40] /\
  (exists h' d',
     runs (pop (-3)) (mem (make_list [10; 20; 30; 40]))
          (self (make_list [10; 20; 30; 40])) 20 h' d' /\
     represents h' d' [10; 30; 40]) /\
  runs (pop 4) (mem (make_list [10; 20; 30; 40]))
       (self (make_list [10; 20; 30; 40])) 0
       (mem (make_list [10; 20; 30; 40])) (self (make_list [10; 20; 30; 40])).
Proof.
  split; [apply make_list_represents|]. split.
  - destruct (pop_correct _ _ _ (-3) (make_list_represents [10; 20; 30; 40]))
      as [Hin _].
    destruct Hin as (v & h' & d' & Hv & Hrun & Hrep & _); [vm_compute; split; congruence|].
    vm_compute in Hv. injection Hv as <-.
    exists h', d'. split; [exact Hrun|exact Hrep].
  - destruct (pop_correct _ _ _ 4 (make_list_represents [10; 20; 30; 40]))
      as (_ & Hout & _).
    apply Hout. vm_compute. intros [_ Hlt]. discriminate Hlt.
Defined.

Lemma remove_correct_witness :
  represents (mem (make_list [1; 2; 3; 2; 4])) (self (make_list [1; 2; 3; 2; 4]))
             [1; 2; 3; 2; 4] /\
  (length [1; 2; 3; 2; 4] <= 5)%nat /\
  exists h' d',
    runs (remove 5 2) (mem (make_list [1; 2; 3; 2; 4]))
         (self (make_list [1; 2; 3; 2; 4])) tt h' d' /\
    represents h' d' [1; 3; 2; 4].
Proof.
  assert (Hf : (length [1; 2; 3; 2; 4] <= 5)%nat) by (simpl; lia).
  split; [apply make_list_represents|]. split; [exact Hf|].
  destruct (remove_correct _ _ _ 2 5 (make_list_represents [1; 2; 3; 2; 4]) Hf)
    as [_ Hpresent].
  destruct (Hpresent [1] [3; 2; 4]) as (h' & d' & Hrun & Hrep & _).
  - reflexivity.
  - intros Hin. apply list_elem_of_singleton in Hin. discriminate Hin.
  - exists h', d'. split; [exact Hrun|exact Hrep].
Defined.

Lemma extend_correct_witness :
  models program_store
    [[10; 15; 20; 10; 15]; [3]; [99; 15; 10; 15; 20; 10; 15; 20]] /\
  exists s',
    extend 8 1%nat 0%nat program_store = Ok (tt, s') /\
    models s' [[10; 15; 20; 10; 15]; [3; 10; 15; 20; 10; 15];
               [99; 15; 10; 15; 20; 10; 15; 20]].
Proof.
  split; [exact program_models|].
  destruct (extend_correct program_store _ 1%nat 0%nat [3] [10; 15; 20; 10; 15] 8%nat
              program_models eq_refl eq_refl)
    as (s' & Hrun & Hmod & _).
  - simpl. lia.
  - exists s'. split; [exact Hrun|exact Hmod].
Defined.

Lemma copy_correct_witness :
  models program_store
    [[10; 15; 20; 10; 15]; [3]; [99; 15; 10; 15; 20; 10; 15; 20]] /\
  exists s',
    copy_construct 8 0 0%nat program_store = Ok (3%nat, s') /\
    models s' [[10; 15; 20; 10; 15]; [3]; [99; 15; 10; 15; 20; 10; 15; 20];
               [10; 15; 20; 10; 15]] /\
    exists s'',
      call 0%nat (set 1 77) s' = Ok (tt, s'') /\
      models s'' [[10; 77; 20; 10; 15]; [3]; [99; 15; 10; 15; 20; 10; 15; 20];
                  [10; 15; 20; 10; 15]].
Proof.
  split; [exact program_models|].
  destruct (copy_correct program_store _ 0%nat [10; 15; 20; 10; 15] 8%nat 0
              program_models eq_refl)
    as [(s' & Hrun & Hmod & Hset) _].
  - simpl. lia.
  - exists s'. split; [exact Hrun|]. split; [exact Hmod|].
    destruct (Hset 1 1%nat 77 eq_refl) as [(s'' & Hcall & Hmod'') _].
    exists s''. split; [exact Hcall|exact Hmod''].
Defined.

Lemma find_safety_witness :
  represents (mem (make_list [5; 6; 7])) (self (make_list [5; 6; 7])) [5; 6; 7] /\
  (exists v, runs (get (-3)) (mem (make_list [5; 6; 7]))
                  (self (make_list [5; 6; 7])) v
                  (mem (make_list [5; 6; 7])) (self (make_list [5; 6; 7]))) /\
  get 3 (make_list [5; 6; 7]) = Fault.
Proof.
  split; [apply make_list_represents|]. split.
  - destruct (find_safety _ _ _ (-3) 0 (make_list_represents [5; 6; 7]))
      as (_ & Hin & _).
    destruct Hin as [Hget _]; [vm_compute; split; congruence|]. exact Hget.
  - destruct (find_safety _ _ _ 3 0 (make_list_represents [5; 6; 7]))
      as (_ & _ & Hout).
    destruct Hout as [Hget _]; [|exact Hget].
    vm_compute. intros [_ Hlt]. discriminate Hlt.
Defined.

(** *** index with a start that does not fit a long *)

(** C8. On the list [[5, 7]] no position [p] with [2^64 - 2 <= p < 2]
    exists, yet [index(5, 2^64 - 2)] returns [2^64 - 2] and not the
    sentinel: the [size_t] start is converted to the [long] [-2], which
    [_find] resolves to the first node. *)
Theorem index_huge_start_found :
  let L := make_list [5; 7] in
  let start := 2 ^ 64 - 2 in
  index 2 5 start L = Ok (start, L) /\
  start <> NOT_FOUND /\
  (0 <= start < 2 ^ 64) /\
  ~ (exists p, start <= p < _size (self L)).
Proof.
  cbv zeta.
  assert (Hsz : _size (self (make_list [5; 7])) = 2) by (by vm_compute).
  split; [by vm_compute|]. split; [by vm_compute|]. split; [lia|].
  intros [p Hp]. rewrite Hsz in Hp. lia.
Qed.

(** C10. On the list [[1, 2, 3]] the start [2^64 - 3] is not below the
    length, yet [index(2, 2^64 - 3)] walks the list from its first node
    and returns [2^64 - 2] instead of the sentinel. *)
Theorem index_past_end_not_sentinel :
  let L := make_list [1; 2; 3] in
  let start := 2 ^ 64 - 3 in
  (_size (self L) <= start < 2 ^ 64) /\
  index 3 2 start L = Ok (2 ^ 64 - 2, L) /\
  2 ^ 64 - 2 <> NOT_FOUND /\
  _find (to_long start) L = Ok (Some 0%nat, L).
Proof.
  cbv zeta.
  assert (Hsz : _size (self (make_list [1; 2; 3])) = 3) by (by vm_compute).
  split; [rewrite Hsz; lia|]. split; [by vm_compute|]. split; by vm_compute.
Qed.

(** *** Instances of the further properties *)

Lemma count_correct_witness :
  represents (mem (make_list [1; 2; 1; 3; 1])) (self (make_list [1; 2; 1; 3; 1]))
             [1; 2; 1; 3; 1] /\
  Z.of_nat (length [1; 2; 1; 3; 1]) < 2 ^ 31 /\
  (length [1; 2; 1; 3; 1] <= 5)%nat /\
  runs (count 5 1) (mem (make_list [1; 2; 1; 3; 1]))
       (self (make_list [1; 2; 1; 3; 1])) 3
       (mem (make_list [1; 2; 1; 3; 1])) (self (make_list [1; 2; 1; 3; 1])).
Proof.
  assert (Hn : Z.of_nat (length [1; 2; 1; 3; 1]) < 2 ^ 31) by reflexivity.
  assert (Hf : (length [1; 2; 1; 3; 1] <= 5)%nat) by (simpl; lia).
  split; [apply make_list_represents|]. split; [exact Hn|]. split; [exact Hf|].
  exact (proj1 (count_correct _ _ _ 1 5%nat
                  (make_list_represents [1; 2; 1; 3; 1]) Hn Hf)).
Defined.

Lemma expect_contents_decides_witness :
  represents (mem (make_list [1; 2; 3])) (self (make_list [1; 2; 3])) [1; 2; 3] /\
  exists b,
    runs (expect_contents [1; 2; 4]) (mem (make_list [1; 2; 3]))
         (self (make_list [1; 2; 3])) b
         (mem (make_list [1; 2; 3])) (self (make_list [1; 2; 3])) /\
    (b = true <-> [1; 2; 4] = [1; 2; 3]).
Proof.
  split; [apply make_list_represents|].
  exact (expect_contents_decides _ _ _ [1; 2; 4] (make_list_represents [1; 2; 3])).
Defined.

Lemma set_then_get_witness :
  represents (mem (make_list [10; 20; 30])) (self (make_list [10; 20; 30]))
             [10; 20; 30] /\
  resolve 3 (-1) = Some 2%nat /\
  exists h',
    runs (set (-1) 99) (mem (make_list [10; 20; 30]))
         (self (make_list [10; 20; 30])) tt h' (self (make_list [10; 20; 30])) /\
    represents h' (self (make_list [10; 20; 30])) [10; 20; 99] /\
    runs (get (-1)) h' (self (make_list [10; 20; 30])) 99
         h' (self (make_list [10; 20; 30])).
Proof.
  assert (Hr : resolve 3 (-1) = Some 2%nat) by reflexivity.
  split; [apply make_list_represents|]. split; [exact Hr|].
  destruct (set_then_get _ _ _ (-1) 2%nat 99
              (make_list_represents [10; 20; 30]) Hr)
    as (h' & Hset & Hrep & Hget & _).
  exists h'. split; [exact Hset|]. split; [exact Hrep|exact Hget].
Defined.

Lemma append_then_pop_witness :
  represents (mem (make_list [10; 20])) (self (make_list [10; 20])) [10; 20] /\
  exists h' d',
    runs (bind (append 30) (fun _ => pop_default)) (mem (make_list [10; 20]))
         (self (make_list [10; 20])) 30 h' d' /\
    represents h' d' [10; 20] /\
    _size d' = _size (self (make_list [10; 20])).
Proof.
  split; [apply make_list_represents|].
  exact (append_then_pop _ _ _ 30 (make_list_represents [10; 20])).
Defined.

Lemma insert_then_pop_witness :
  represents (mem (make_list [10; 20; 30])) (self (make_list [10; 20; 30]))
             [10; 20; 30] /\
  exists h1 d1 h' d',
    runs (insert (-1) 25) (mem (make_list [10; 20; 30]))
         (self (make_list [10; 20; 30])) tt h1 d1 /\
    runs (get 2) h1 d1 25 h1 d1 /\
    runs (pop 2) h1 d1 25 h' d' /\
    represents h' d' [10; 20; 30].
Proof.
  split; [apply make_list_represents|].
  exact (insert_then_pop _ _ _ (-1) 25 (make_list_represents [10; 20; 30])).
Defined.

Lemma index_from_start_witness :
  represents (mem (make_list [5; 7; 5])) (self (make_list [5; 7; 5])) [5; 7; 5] /\
  Z.of_nat (length [5; 7; 5]) < 2 ^ 63 /\ Z.of_nat 1 < 2 ^ 63 /\
  (length [5; 7; 5] <= 3)%nat /\
  runs (index 3 5 1) (mem (make_list [5; 7; 5])) (self (make_list [5; 7; 5])) 2
       (mem (make_list [5; 7; 5])) (self (make_list [5; 7; 5])) /\
  runs (index 3 7 2) (mem (make_list [5; 7; 5])) (self (make_list [5; 7; 5]))
       NOT_FOUND (mem (make_list [5; 7; 5])) (self (make_list [5; 7; 5])).
Proof.
  assert (Hn : Z.of_nat (length [5; 7; 5]) < 2 ^ 63) by reflexivity.
  assert (H1 : Z.of_nat 1 < 2 ^ 63) by reflexivity.
  assert (H2 : Z.of_nat 2 < 2 ^ 63) by reflexivity.
  assert (Hf : (length [5; 7; 5] <= 3)%nat) by (simpl; lia).
  split; [apply make_list_represents|].
  split; [exact Hn|]. split; [exact H1|]. split; [exact Hf|]. split.
  - destruct (index_from_start _ _ _ 5 1%nat 3%nat
                (make_list_represents [5; 7; 5]) Hn H1 Hf) as (Hfound & _ & _).
    apply (Hfound 2%nat); [lia|reflexivity|].
    intros q Hq. assert (q = 1%nat) as -> by lia. discriminate.
  - destruct (index_from_start _ _ _ 7 2%nat 3%nat
                (make_list_represents [5; 7; 5]) Hn H2 Hf) as (_ & Habsent & _).
    apply Habsent. intros p Hp Hx.
    destruct p as [|[|[|p]]]; [lia|lia|discriminate Hx|discriminate Hx].
Defined.

Lemma index_any_start_witness :
  represents (mem (make_list [5; 7; 5])) (self (make_list [5; 7; 5])) [5; 7; 5] /\
  0 <= 1 < 2 ^ 64 /\ (length [5; 7; 5] <= 3)%nat /\
  runs (index 3 5 1) (mem (make_list [5; 7; 5])) (self (make_list [5; 7; 5])) 2
       (mem (make_list [5; 7; 5])) (self (make_list [5; 7; 5])).
Proof.
  assert (Hs : 0 <= 1 < 2 ^ 64) by lia.
  assert (Hf : (length [5; 7; 5] <= 3)%nat) by (simpl; lia).
  split; [apply make_list_represents|]. split; [exact Hs|]. split; [exact Hf|].
  exact (index_any_start _ _ _ 5 1 3%nat (make_list_represents [5; 7; 5]) Hs Hf).
Defined.

Lemma remove_is_pop_at_index_witness :
  represents (mem (make_list [1; 2; 3; 2])) (self (make_list [1; 2; 3; 2]))
             [1; 2; 3; 2] /\
  Z.of_nat (length [1; 2; 3; 2]) < 2 ^ 63 /\ (length [1; 2; 3; 2] <= 4)%nat /\
  exists p,
    runs (index 4 2 0) (mem (make_list [1; 2; 3; 2]))
         (self (make_list [1; 2; 3; 2])) p
         (mem (make_list [1; 2; 3; 2])) (self (make_list [1; 2; 3; 2])) /\
    (p = NOT_FOUND ->
     runs (remove 4 2) (mem (make_list [1; 2; 3; 2]))
          (self (make_list [1; 2; 3; 2])) tt
          (mem (make_list [1; 2; 3; 2])) (self (make_list [1; 2; 3; 2]))) /\
    (p <> NOT_FOUND ->
     exists ws h1 d1 h2 d2,
       runs (remove 4 2) (mem (make_list [1; 2; 3; 2]))
            (self (make_list [1; 2; 3; 2])) tt h1 d1 /\
       represents h1 d1 ws /\
       runs (pop p) (mem (make_list [1; 2; 3; 2]))
            (self (make_list [1; 2; 3; 2])) 2 h2 d2 /\
       represents h2 d2 ws).
Proof.
  assert (Hn : Z.of_nat (length [1; 2; 3; 2]) < 2 ^ 63) by reflexivity.
  assert (Hf : (length [1; 2; 3; 2] <= 4)%nat) by (simpl; lia).
  split; [apply make_list_represents|]. split; [exact Hn|]. split; [exact Hf|].
  exact (remove_is_pop_at_index _ _ _ 2 4%nat
           (make_list_represents [1; 2; 3; 2]) Hn Hf).
Defined.

Lemma remove_then_count_witness :
  represents (mem (make_list [1; 2; 3; 2])) (self (make_list [1; 2; 3; 2]))
             [1; 2; 3; 2] /\
  Z.of_nat (length [1; 2; 3; 2]) < 2 ^ 31 /\
  (length [1; 2; 3; 2] <= 4)%nat /\
  exists h' d',
    runs (remove 4 2) (mem (make_list [1; 2; 3; 2]))
         (self (make_list [1; 2; 3; 2])) tt h' d' /\
    runs (count 4 2) h' d' 1 h' d' /\
    runs (count 4 3) h' d' 1 h' d'.
Proof.
  assert (Hn : Z.of_nat (length [1; 2; 3; 2]) < 2 ^ 31) by reflexivity.
  assert (Hf : (length [1; 2; 3; 2] <= 4)%nat) by (simpl; lia).
  split; [apply make_list_represents|]. split; [exact Hn|]. split; [exact Hf|].
  destruct (remove_then_count _ _ _ 2 4%nat
              (make_list_represents [1; 2; 3; 2]) Hn Hf) as (h' & d' & Hrun & Hcount).
  exists h', d'. split; [exact Hrun|]. split.
  - pose proof (Hcount 2) as Hc.
    assert (He : Z.of_nat (length (filter (fun v => v = 2) [1; 2; 3; 2])
                  - (if decide (2 = 2 /\ 2 ∈ [1; 2; 3; 2]) then 1 else 0)) = 1).
    { destruct (decide (2 = 2 /\ 2 ∈ [1; 2; 3; 2])) as [_|Hno]; [reflexivity|].
      exfalso. apply Hno. split; [reflexivity|]. apply list_elem_of_further, list_elem_of_here. }
    rewrite He in Hc. exact Hc.
  - pose proof (Hcount 3) as Hc.
    assert (He : Z.of_nat (length (filter (fun v => v = 3) [1; 2; 3; 2])
                  - (if decide (3 = 2 /\ 2 ∈ [1; 2; 3; 2]) then 1 else 0)) = 1).
    { destruct (decide (3 = 2 /\ 2 ∈ [1; 2; 3; 2])) as [[Hno _]|_]; [discriminate Hno|reflexivity]. }
    rewrite He in Hc. exact Hc.
Defined.

Lemma index_sentinel_iff_count_zero_witness :
  represents (mem (make_list [1; 2; 3])) (self (make_list [1; 2; 3])) [1; 2; 3] /\
  Z.of_nat (length [1; 2; 3]) < 2 ^ 31 /\ (length [1; 2; 3] <= 3)%nat /\
  exists p c,
    runs (index 3 4 0) (mem (make_list [1; 2; 3])) (self (make_list [1; 2; 3])) p
         (mem (make_list [1; 2; 3])) (self (make_list [1; 2; 3])) /\
    runs (count 3 4) (mem (make_list [1; 2; 3])) (self (make_list [1; 2; 3])) c
         (mem (make_list [1; 2; 3])) (self (make_list [1; 2; 3])) /\
    (p = NOT_FOUND <-> c = 0).
Proof.
  assert (Hn : Z.of_nat (length [1; 2; 3]) < 2 ^ 31) by reflexivity.
  assert (Hf : (length [1; 2; 3] <= 3)%nat) by (simpl; lia).
  split; [apply make_list_represents|]. split; [exact Hn|]. split; [exact Hf|].
  exact (index_sentinel_iff_count_zero _ _ _ 4 3%nat
           (make_list_represents [1; 2; 3]) Hn Hf).
Defined.


Lemma negative_position_same_witness :
  0 <= 1 < _size (self (make_list [10; 20; 30])) /\
  pop (1 - _size (self (make_list [10; 20; 30])))
      {| mem := mem (make_list [10; 20; 30]);
         self := self (make_list [10; 20; 30]) |}
  = pop 1 {| mem := mem (make_list [10; 20; 30]);
             self := self (make_list [10; 20; 30]) |} /\
  insert (1 - _size (self (make_list [10; 20; 30]))) 15
         {| mem := mem (make_list [10; 20; 30]);
            self := self (make_list [10; 20; 30]) |}
  = insert 1 15 {| mem := mem (make_list [10; 20; 30]);
                   self := self (make_list [10; 20; 30]) |}.
Proof.
  assert (Hi : 0 <= 1 < _size (self (make_list [10; 20; 30])))
    by (vm_compute; split; congruence).
  split; [exact Hi|].
  exact (negative_position_same (mem (make_list [10; 20; 30]))
           (self (make_list [10; 20; 30])) 1 15 Hi).
Defined.

Lemma step_fault_iff_invalid_witness :
  models program_store
    [[10; 15; 20; 10; 15]; [3]; [99; 15; 10; 15; 20; 10; 15; 20]] /\
  step (OpSet 1%nat 5 0) program_store <> OutOfFuel /\
  (step (OpSet 1%nat 5 0) program_store = Fault <->
   op_valid (OpSet 1%nat 5 0)
     [[10; 15; 20; 10; 15]; [3]; [99; 15; 10; 15; 20; 10; 15; 20]] = false).
Proof.
  split; [exact program_models|].
  exact (step_fault_iff_invalid (OpSet 1%nat 5 0) program_store _ program_models).
Defined.

Lemma valid_program_runs_witness :
  models (ItemType := Z) empty_store [] /\ program_valid program [] = true /\
  exists s',
    run program empty_store = Ok s' /\
    models s' (foldl (fun vss o => abstract_step o vss) [] program).
Proof.
  assert (Hv : program_valid program [] = true) by (by vm_compute).
  split; [apply models_empty|]. split; [exact Hv|].
  exact (valid_program_runs program empty_store [] models_empty Hv).
Defined.

Lemma invalid_program_faults_witness :
  models (ItemType := Z) empty_store [] /\
  program_valid [OpDeclare; OpAppend 0%nat 1; OpPop 0%nat 5; OpSet 0%nat 1 9] []
    = false /\
  run [OpDeclare; OpAppend 0%nat 1; OpPop 0%nat 5; OpSet 0%nat 1 9] empty_store
    = Fault.
Proof.
  assert (Hv : program_valid
                 [OpDeclare; OpAppend 0%nat 1; OpPop 0%nat 5; OpSet 0%nat 1 9] []
               = false) by (by vm_compute).
  split; [apply models_empty|]. split; [exact Hv|].
  exact (invalid_program_faults _ empty_store [] models_empty Hv).
Defined.

End Examples.
